(** * gdrive4d: the embed synchronization engine

    A shallow embedding of [src/util/invisible.ts] (the correlation codec)
    and [src/embeds.ts] (link extraction, lookup of the embeds message,
    embed building, diffing and suppression of native previews), followed
    by the properties of the engine.  The callers of the engine,
    [src/main.ts] (the listeners of the message events) and
    [src/commands.ts] (the command [Update Embeds]), and the checks at
    startup, [src/checks.ts], are embedded as well.

    JavaScript strings are sequences of UTF-16 code units; they are
    modelled as [list Z].  The platform functions the code calls
    ([TextEncoder], [TextDecoder], [String.fromCodePoint], [indexOf],
    [substring], [Math.min], regular expressions) are modelled after
    ECMAScript and the WHATWG Encoding Standard.  What the code takes from
    its surroundings ([Date], [normalize-url], the
    URL parser, the chat service and the file service) is a parameter of
    the model, the class [Platform] and the record [World]; the module
    [Sample] gives one instance, on which the examples are evaluated.
    Asynchronous functions are modelled by the requests they issue, in
    order, and the way they settle: a request to send, edit, delete or
    suppress that the chat service refuses rejects the call that awaits
    it; the history requests are taken to be answered. *)

From stdpp Require Import base option list strings gmap sorting.
From Stdlib Require Import ZArith Lia Ascii.

Local Open Scope Z_scope.

(** ** Results of fallible code *)

(** What a JavaScript function can throw in the modelled code. *)
Inductive exn : Type :=
  | InvalidInvisibleCharacter (codepoint : Z)
  | MissingRequiredFields
  | InvalidTimeValue
  | DriveError (gaxios : bool) (response : option (option (list (list Z))))
  | TypeError
  | ValidationError (setter : string)
  | DiscordAPIError (code : Z).

Inductive outcome (A : Type) : Type :=
  | Ret (a : A)
  | Throw (e : exn).
Arguments Ret {A} a.
Arguments Throw {A} e.

Definition obind {A B} (m : outcome A) (k : A -> outcome B) : outcome B :=
  match m with
  | Ret a => k a
  | Throw e => Throw e
  end.

Notation "x <-! m ; k" := (obind m (fun x => k))
  (at level 100, m at next level, right associativity).

(** [Array.prototype.map] with a callback that may throw: the first
    exception (in index order) is the one that propagates. *)
Fixpoint mapM {A B} (f : A -> outcome B) (l : list A) : outcome (list B) :=
  match l with
  | [] => Ret []
  | a :: l' => b <-! f a; bs <-! mapM f l'; Ret (b :: bs)
  end.

(** ** JavaScript strings *)

Module Js.

(** A string is its sequence of UTF-16 code units. *)
Abbreviation jsstring := (list Z).

(** A JavaScript number as far as the code needs it: an integer, or the
    [Infinity] that [Math.min()] returns for no arguments. *)
Inductive number : Type :=
  | Num (z : Z)
  | Infinity.

Definition is_high_surrogate (u : Z) : bool := (0xD800 <=? u) && (u <=? 0xDBFF).
Definition is_low_surrogate (u : Z) : bool := (0xDC00 <=? u) && (u <=? 0xDFFF).
Definition is_surrogate (u : Z) : bool := (0xD800 <=? u) && (u <=? 0xDFFF).

(** The string iterator, as used by [Array.from(str)] followed by
    [codePointAt(0)]: a high surrogate followed by a low surrogate is one
    code point, any other code unit stands for itself. *)
Fixpoint codePoints (s : jsstring) : list Z :=
  match s with
  | [] => []
  | u :: s' =>
      match s' with
      | l :: s'' =>
          if is_high_surrogate u && is_low_surrogate l
          then (0x10000 + (u - 0xD800) * 0x400 + (l - 0xDC00)) :: codePoints s''
          else u :: codePoints s'
      | [] => [u]
      end
  end.

(** UTF-16 code units of one code point. *)
Definition codeUnits (c : Z) : jsstring :=
  if c <=? 0xFFFF then [c]
  else [0xD800 + (c - 0x10000) / 0x400; 0xDC00 + (c - 0x10000) `mod` 0x400].

(** [String.fromCodePoint(...cps)]. *)
Definition fromCodePoint (cps : list Z) : jsstring :=
  concat (map codeUnits cps).

Fixpoint startsWith (s needle : jsstring) {struct needle} : bool :=
  match needle, s with
  | [], _ => true
  | n :: needle', u :: s' => (u =? n) && startsWith s' needle'
  | _ :: _, [] => false
  end.

Fixpoint indexOf_from (s needle : jsstring) (i : Z) : Z :=
  if startsWith s needle then i
  else match s with
       | [] => -1
       | _ :: s' => indexOf_from s' needle (i + 1)
       end.

(** [s.indexOf(needle)]: index of the first occurrence, or [-1]. *)
Definition indexOf (s needle : jsstring) : Z := indexOf_from s needle 0.

(** [Math.min(...l)]. *)
Definition Math_min (l : list Z) : number :=
  match l with
  | [] => Infinity
  | z :: l' => Num (foldr Z.min z l')
  end.

(** [s.substring(start)]: [start] is clamped to [0 .. s.length]. *)
Definition substring (s : jsstring) (start : number) : jsstring :=
  match start with
  | Infinity => []
  | Num z => drop (Z.to_nat z) s
  end.

(** The code units of an ASCII literal. *)
Fixpoint lit (s : string) : jsstring :=
  match s with
  | EmptyString => []
  | String a s' => Z.of_N (N_of_ascii a) :: lit s'
  end.

(** A string the type [string] of the source admits: every element is a
    16-bit code unit. *)
Definition is_string (s : jsstring) : bool :=
  forallb (fun u => (0 <=? u) && (u <=? 0xFFFF)) s.

(** No unpaired surrogate. *)
Fixpoint well_formed (s : jsstring) : bool :=
  match s with
  | [] => true
  | u :: s' =>
      match s' with
      | l :: s'' =>
          if is_high_surrogate u && is_low_surrogate l then well_formed s''
          else negb (is_surrogate u) && well_formed s'
      | [] => negb (is_surrogate u)
      end
  end.

End Js.
Import Js.

(** ** UTF-8, as [TextEncoder] and [TextDecoder] implement it *)

Module Utf8.

(** The UTF-8 encoder of the Encoding Standard, for one scalar value. *)
Definition encode_cp (c : Z) : list Z :=
  if c <=? 0x7F then [c]
  else if c <=? 0x7FF then
    [(c ≫ 6) + 0xC0; Z.lor 0x80 (Z.land c 0x3F)]
  else if c <=? 0xFFFF then
    [(c ≫ 12) + 0xE0; Z.lor 0x80 (Z.land (c ≫ 6) 0x3F);
     Z.lor 0x80 (Z.land c 0x3F)]
  else
    [(c ≫ 18) + 0xF0; Z.lor 0x80 (Z.land (c ≫ 12) 0x3F);
     Z.lor 0x80 (Z.land (c ≫ 6) 0x3F); Z.lor 0x80 (Z.land c 0x3F)].

(** Conversion to a scalar value string: an unpaired surrogate becomes
    U+FFFD. *)
Definition toUSV (s : jsstring) : list Z :=
  map (fun c => if is_surrogate c then 0xFFFD else c) (codePoints s).

(** [new TextEncoder().encode(str)], as the array of its bytes. *)
Definition TextEncoder_encode (s : jsstring) : list Z :=
  concat (map encode_cp (toUSV s)).

(** State of the UTF-8 decoder of the Encoding Standard. *)
Record state : Type := State {
  code_point : Z;
  bytes_needed : nat;
  lower_boundary : Z;
  upper_boundary : Z;
}.

Definition init : state := State 0 0 0x80 0xBF.

(** A byte read when no continuation byte is awaited. *)
Definition lead (b : Z) : list Z * state :=
  if b <=? 0x7F then ([b], init)
  else if (0xC2 <=? b) && (b <=? 0xDF) then
    ([], State (Z.land b 0x1F) 1 0x80 0xBF)
  else if (0xE0 <=? b) && (b <=? 0xEF) then
    ([], State (Z.land b 0xF) 2
               (if b =? 0xE0 then 0xA0 else 0x80)
               (if b =? 0xED then 0x9F else 0xBF))
  else if (0xF0 <=? b) && (b <=? 0xF4) then
    ([], State (Z.land b 0x7) 3
               (if b =? 0xF0 then 0x90 else 0x80)
               (if b =? 0xF4 then 0x8F else 0xBF))
  else ([0xFFFD], init).

(** One byte: the code points emitted and the next state.  A byte outside
    the awaited range ends the sequence with U+FFFD and is read again as
    a lead byte. *)
Definition step (st : state) (b : Z) : list Z * state :=
  match bytes_needed st with
  | O => lead b
  | S n =>
      if (b <? lower_boundary st) || (upper_boundary st <? b) then
        let '(out, st') := lead b in (0xFFFD :: out, st')
      else
        let cp := Z.lor (code_point st ≪ 6) (Z.land b 0x3F) in
        match n with
        | O => ([cp], init)
        | S _ => ([], State cp n 0x80 0xBF)
        end
  end.

Fixpoint run (st : state) (bs : list Z) : list Z :=
  match bs with
  | [] => match bytes_needed st with O => [] | S _ => [0xFFFD] end
  | b :: bs' => let '(out, st') := step st b in out ++ run st' bs'
  end.

(** [new TextDecoder().decode(bytes)]: the default decoder replaces
    malformed input by U+FFFD and drops a leading byte order mark. *)
Definition TextDecoder_decode (bs : list Z) : jsstring :=
  let cps := run init bs in
  fromCodePoint (match cps with
                 | c :: cps' => if c =? 0xFEFF then cps' else cps
                 | [] => []
                 end).

End Utf8.

(** ** src/util/invisible.ts *)

Module Invisible.

(** [Array.from({ length: 16 }, (_, i) => 0x2060 + i)] *)
Definition invisibleChars : list Z :=
  map (fun i => 0x2060 + Z.of_nat i) (seq 0 16).

(** [invisibleChars.indexOf(codepoint)] *)
Fixpoint arrayIndexOf_from (l : list Z) (x : Z) (i : Z) : Z :=
  match l with
  | [] => -1
  | y :: l' => if y =? x then i else arrayIndexOf_from l' x (i + 1)
  end.
Definition arrayIndexOf (l : list Z) (x : Z) : Z := arrayIndexOf_from l x 0.

(** [encode]: every byte of the UTF-8 form is split into its upper and
    lower nibble, and nibble [i] is written as [invisibleChars[i]]. *)
Definition encode (str : jsstring) : jsstring :=
  let nibbles :=
    map (fun i => invisibleChars !!! Z.to_nat i)
        (concat (map (fun byte => [byte ≫ 4; Z.land byte 0xf])
                     (Utf8.TextEncoder_encode str))) in
  fromCodePoint nibbles.

(** The loop of [decode]:
    [for (let i = 0; i < nibbles.length - 1; i += 2)
       bytes[i / 2] = (nibbles[i] << 4) | nibbles[i + 1];]
    on a [Uint8Array], which stores values modulo 256. *)
Fixpoint decode_loop (fuel : nat) (nibbles : list Z) (i : Z) (bytes : list Z)
  : list Z :=
  match fuel with
  | O => bytes
  | S fuel' =>
      if i <? Z.of_nat (length nibbles) - 1 then
        let hi := nibbles !!! Z.to_nat i in
        let lo := nibbles !!! Z.to_nat (i + 1) in
        decode_loop fuel' nibbles (i + 2)
          (<[Z.to_nat (i / 2) := (Z.lor (hi ≪ 4) lo) `mod` 256]> bytes)
      else bytes
  end.

(** [decode]: throws on a code point that is not in [invisibleChars]. *)
Definition decode (encoded : jsstring) : outcome jsstring :=
  nibbles <-! mapM (fun codepoint =>
                      let index := arrayIndexOf invisibleChars codepoint in
                      if index =? -1 then Throw (InvalidInvisibleCharacter codepoint)
                      else Ret index)
                   (codePoints encoded);
  let bytes := replicate (length nibbles / 2)%nat 0 in
  let bytes := decode_loop (length nibbles) nibbles 0 bytes in
  Ret (Utf8.TextDecoder_decode bytes).

Definition appendInvisible (visible invisible : jsstring) : jsstring :=
  visible ++ encode invisible.

Definition decodeAppendedInvisible (text : jsstring) : outcome jsstring :=
  let indexOfInvisible :=
    Math_min (filter (fun i => i ≠ -1)
                     (map (fun char => indexOf text (fromCodePoint [char]))
                          invisibleChars)) in
  decode (substring text indexOfInvisible).

End Invisible.
Import Invisible.

(** ** Regular expressions

    The fragment of ECMAScript regular expressions that [extractFileIds]
    uses, without the [u] flag (matching is on code units), with the
    backtracking semantics of the language: alternatives are tried left to
    right, quantifiers are greedy. *)

Module Regex.

Inductive regex : Type :=
  | Chr (c : Z)
  | Class (p : Z -> bool)
  | Seq (r1 r2 : regex)
  | Alt (r1 r2 : regex)
  | Opt (r : regex)
  | Repeat (min : nat) (p : Z -> bool)
  | Capture (r : regex).

(** The literal [s]. *)
Fixpoint Str (s : jsstring) : regex :=
  match s with
  | [] => Repeat 0 (fun _ => false)
  | [c] => Chr c
  | c :: s' => Seq (Chr c) (Str s')
  end.

Section Matcher.
Context {R : Type}.

(** [[p]{min,}]: as many characters of the class as possible, giving
    them back one at a time while the continuation fails. *)
Fixpoint repeat_class (p : Z -> bool) (min : nat) (s : jsstring)
    (k : jsstring -> option R) : option R :=
  let stop := match min with O => k s | S _ => None end in
  match s with
  | c :: s' =>
      if p c then
        match repeat_class p (pred min) s' k with
        | Some r => Some r
        | None => stop
        end
      else stop
  | [] => stop
  end.

(** [bt r s cap k]: match [r] at the start of [s], then continue with
    [k] on the rest of the input and the capture of group 1. *)
Fixpoint bt (r : regex) (s : jsstring) (cap : option jsstring)
    (k : jsstring -> option jsstring -> option R) : option R :=
  match r with
  | Chr c =>
      match s with
      | u :: s' => if u =? c then k s' cap else None
      | [] => None
      end
  | Class p =>
      match s with
      | u :: s' => if p u then k s' cap else None
      | [] => None
      end
  | Seq r1 r2 => bt r1 s cap (fun s1 cap1 => bt r2 s1 cap1 k)
  | Alt r1 r2 =>
      match bt r1 s cap k with
      | Some x => Some x
      | None => bt r2 s cap k
      end
  | Opt r =>
      match bt r s cap k with
      | Some x => Some x
      | None => k s cap
      end
  | Repeat min p => repeat_class p min s (fun s' => k s' cap)
  | Capture r =>
      bt r s cap (fun s' _ => k s' (Some (take (length s - length s') s)))
  end.
End Matcher.

(** One match attempt at the start of [s]: the matched text and the
    capture of group 1. *)
Definition exec (r : regex) (s : jsstring) : option (jsstring * option jsstring) :=
  bt r s None (fun rest cap => Some (take (length s - length rest) s, cap)).

(** [[...s.matchAll(r)]] for a global [r]: the search resumes where the
    last match ended, one code unit later when that match was empty. *)
Fixpoint matchAll_from (r : regex) (s : jsstring) (skip : nat)
  : list (jsstring * option jsstring) :=
  match skip with
  | S n =>
      match s with
      | _ :: s' => matchAll_from r s' n
      | [] => []
      end
  | O =>
      match exec r s with
      | Some (m, cap) =>
          (m, cap) :: match s with
                      | _ :: s' => matchAll_from r s' (pred (length m))
                      | [] => []
                      end
      | None =>
          match s with
          | _ :: s' => matchAll_from r s' 0
          | [] => []
          end
      end
  end.

Definition matchAll (r : regex) (s : jsstring) : list (jsstring * option jsstring) :=
  matchAll_from r s 0.

(** [\s]: white space and line terminators. *)
Definition is_space (u : Z) : bool :=
  ((9 <=? u) && (u <=? 13)) || (u =? 32) || (u =? 0xA0) || (u =? 0x1680)
  || ((0x2000 <=? u) && (u <=? 0x200A)) || (u =? 0x2028) || (u =? 0x2029)
  || (u =? 0x202F) || (u =? 0x205F) || (u =? 0x3000) || (u =? 0xFEFF).

(** [\w] *)
Definition is_word (u : Z) : bool :=
  ((0x41 <=? u) && (u <=? 0x5A)) || ((0x61 <=? u) && (u <=? 0x7A))
  || ((0x30 <=? u) && (u <=? 0x39)) || (u =? 0x5F).

End Regex.
Import Regex.

(** ** The collaborators of src/embeds.ts *)

(** Values of the fields of an embed object. *)
Inductive jsval : Type :=
  | VStr (s : jsstring)
  | VNum (n : Z).

#[global] Instance jsval_eq_dec : EqDecision jsval.
Proof. solve_decision. Defined.

(** The raw data of an embed ([APIEmbed]): a JavaScript object with fields
    such as [title], [url], [color] and [timestamp]. *)
Abbreviation APIEmbed := (gmap string jsval).

(** The getters [Embed#title] and [Embed#url]: [data.title ?? null]. *)
Definition embed_title (e : APIEmbed) : option jsstring :=
  match e !! "title"%string with
  | Some (VStr s) => Some s
  | _ => None
  end.

Definition embed_url (e : APIEmbed) : option jsstring :=
  match e !! "url"%string with
  | Some (VStr s) => Some s
  | _ => None
  end.

(** [MessageFlags] *)
Definition SuppressEmbeds : Z := 1 ≪ 2.
Definition SuppressNotifications : Z := 1 ≪ 12.

(** [flags.has(bit)] *)
Definition flags_has (flags bit : Z) : bool := Z.land flags bit =? bit.

Record Message : Type := {
  id : jsstring;
  authorId : jsstring;
  createdTimestamp : Z;
  content : jsstring;
  embeds : list APIEmbed;
  flags : Z;
}.

(** [MessageCreateOptions & MessageEditOptions], as far as the code fills
    them. *)
Record MessagePayload : Type := {
  payload_embeds : list APIEmbed;
  payload_flags : Z;
}.

(** [drive_v3.Schema$File], with the four requested fields. *)
Record File : Type := {
  name : option jsstring;
  webViewLink : option jsstring;
  mimeType : option jsstring;
  modifiedTime : option jsstring;
}.

(** What [driveClient.files.get] settles to. *)
Inductive DriveResponse : Type :=
  | Found (data : File)
  | Failed (e : exn).

(** An entry of [fileTypes]; [color] is the number that [resolveColor]
    reads from the hexadecimal string. *)
Record FileType : Type := {
  mime : option jsstring;
  color : Z;
}.

(** The options object handed to [normalizeUrl]. *)
Record NormalizeUrlOptions : Type := {
  defaultProtocol : string;
  normalizeProtocol : bool;
  forceHttps : bool;
  removeExplicitPort : bool;
  stripHash : bool;
  removeQueryParameters : bool;
}.

(** The requests the code issues. *)
Inductive event : Type :=
  | EvFetch (after : jsstring) (limit : nat)
  | EvSleep (ms : Z)
  | EvSend (payload : MessagePayload)
  | EvEdit (target : jsstring) (payload : MessagePayload)
  | EvDelete (target : jsstring)
  | EvSuppressEmbeds (target : jsstring) (suppress : bool).

(** What the code takes from its runtime and from the two services:
    [Date]; [new URL(s).protocol] ([None] when the constructor throws);
    the [normalize-url] package; the way the chat service stores a
    message it is sent ([stored_embed]: the embed as later reads return
    it; [fresh_message]: id and creation time of the next message of a
    channel); the error with which the chat service answers a request
    that it refuses, in a channel with the given messages ([refused]);
    and, when both the lookup of the old embeds message and the building
    of the new one fail, which of the two fails first
    ([lookup_rejects_first]). *)
Class Platform : Type := {
  Date_parse : jsstring -> option Z;
  Date_toISOString : Z -> jsstring;
  URL_protocol : jsstring -> option jsstring;
  normalizeUrl : jsstring -> NormalizeUrlOptions -> jsstring;
  stored_embed : APIEmbed -> APIEmbed;
  fresh_message : list Message -> jsstring * Z;
  refused : list Message -> event -> option exn;
  lookup_rejects_first : bool;
}.

(** The channel of the source message (oldest message first), the file
    service, and the bot's own user id. *)
Record World : Type := {
  channel : list Message;
  drive : jsstring -> DriveResponse;
  botUserId : jsstring;
}.

(** The number a snowflake id denotes. *)
Definition snowflake_value (s : jsstring) : Z :=
  fold_left (fun acc d => acc * 10 + (d - 48)) s 0.

(** A snowflake id: a non-empty string of decimal digits. *)
Definition is_snowflake (s : jsstring) : bool :=
  match s with
  | [] => false
  | _ => forallb (fun d => (48 <=? d) && (d <=? 57)) s
  end.

(** [channel.messages.fetch({ after, limit })]: the [limit] messages that
    follow [after], newest first. *)
Definition fetch_after (w : World) (after : jsstring) (limit : nat) : list Message :=
  reverse (take limit
    (filter (fun m => snowflake_value after < snowflake_value (id m)) (channel w))).

Section Server.
Context `{Platform}.

Definition send (w : World) (payload : MessagePayload) : World :=
  let '(i, t) := fresh_message (channel w) in
  {| channel := channel w ++
       [{| id := i; authorId := botUserId w; createdTimestamp := t;
           content := []; embeds := map stored_embed (payload_embeds payload);
           flags := payload_flags payload |}];
     drive := drive w; botUserId := botUserId w |}.

Definition edit (w : World) (target : jsstring) (payload : MessagePayload) : World :=
  {| channel :=
       map (fun m => if bool_decide (id m = target)
                     then {| id := id m; authorId := authorId m;
                             createdTimestamp := createdTimestamp m;
                             content := content m;
                             embeds := map stored_embed (payload_embeds payload);
                             flags := flags m |}
                     else m) (channel w);
     drive := drive w; botUserId := botUserId w |}.

Definition delete_message (w : World) (target : jsstring) : World :=
  {| channel := filter (fun m => id m ≠ target) (channel w);
     drive := drive w; botUserId := botUserId w |}.

(** [message.suppressEmbeds(suppress)] sets or clears the flag. *)
Definition set_suppress (w : World) (target : jsstring) (suppress : bool) : World :=
  {| channel :=
       map (fun m => if bool_decide (id m = target)
                     then {| id := id m; authorId := authorId m;
                             createdTimestamp := createdTimestamp m;
                             content := content m; embeds := embeds m;
                             flags := if suppress
                                      then Z.lor (flags m) SuppressEmbeds
                                      else Z.land (flags m) (Z.lnot SuppressEmbeds) |}
                     else m) (channel w);
     drive := drive w; botUserId := botUserId w |}.

(** The effect of a request that the chat service accepts. *)
Definition effect (w : World) (ev : event) : World :=
  match ev with
  | EvFetch _ _ | EvSleep _ => w
  | EvSend payload => send w payload
  | EvEdit target payload => edit w target payload
  | EvDelete target => delete_message w target
  | EvSuppressEmbeds target suppress => set_suppress w target suppress
  end.

(** The effect of a request on the world: none when the chat service
    refuses it. *)
Definition apply_event (w : World) (ev : event) : World :=
  match refused (channel w) ev with
  | Some _ => w
  | None => effect w ev
  end.

(** Requests that the code awaits one after the other.  The chat service
    answers each of them in the channel as the requests before it left
    it; a request that it refuses rejects the call with the error of the
    service, and the requests after it are not issued. *)
Fixpoint await_each (w : World) (requests : list event) : list event * outcome unit :=
  match requests with
  | [] => ([], Ret ())
  | ev :: requests' =>
      match refused (channel w) ev with
      | Some e => ([ev], Throw e)
      | None =>
          let '(issued, r) := await_each (effect w ev) requests' in (ev :: issued, r)
      end
  end.

End Server.

(** ** src/embeds.ts *)

Section Embeds.
Context `{Platform}.

(** The code unit of an ASCII character. *)
Definition chr (a : ascii) : Z := Z.of_N (N_of_ascii a).

Infix "⋅" := Seq (at level 60, right associativity).

(** The class [[^\s'\x22\)]] (\x22 is the double quote). *)
Definition url_char (u : Z) : bool :=
  negb (is_space u || (u =? chr "'") || (u =? 34) || (u =? chr ")")).

(** [[-\w]] *)
Definition id_char (u : Z) : bool := (u =? chr "-") || is_word u.

(** The class [[^\s\x22\)'.?!]]. *)
Definition url_last_char (u : Z) : bool :=
  negb (is_space u || (u =? 34) || (u =? chr ")") || (u =? chr "'")
        || (u =? chr ".") || (u =? chr "?") || (u =? chr "!")).

(** The pattern of [extractFileIds],
    [https?:\/\/(?:drive|docs)\.google\.com\/[^\s'\x22\)]+\/(?:d|e|folders)\/([-\w]{25,})(?:\/[^\s'\x22\)]*[^\s\x22\)'.?!])?]
    with the flag [g]. *)
Definition fileIdRegex : regex :=
  Str (lit "http") ⋅ Opt (Chr (chr "s")) ⋅ Str (lit "://")
  ⋅ Alt (Str (lit "drive")) (Str (lit "docs"))
  ⋅ Str (lit ".google.com/")
  ⋅ Repeat 1 url_char
  ⋅ Chr (chr "/")
  ⋅ Alt (Chr (chr "d")) (Alt (Chr (chr "e")) (Str (lit "folders")))
  ⋅ Chr (chr "/")
  ⋅ Capture (Repeat 25 id_char)
  ⋅ Opt (Chr (chr "/") ⋅ Repeat 0 url_char ⋅ Class url_last_char).

Record FileRef : Type := {
  url : jsstring;
  fileId : jsstring;
}.

Definition extractFileIds (content : jsstring) : list FileRef :=
  map (fun '(url, id) => {| url := url; fileId := default [] id |})
      (matchAll fileIdRegex content).

(** [Array.prototype.find] with a callback that may throw. *)
Fixpoint find_outcome {A} (p : A -> outcome bool) (l : list A) : outcome (option A) :=
  match l with
  | [] => Ret None
  | a :: l' => b <-! p a; if b : bool then Ret (Some a) else find_outcome p l'
  end.

(** [Collection#sort(compare)]: stable, ascending. *)
Fixpoint insert_sorted {A} (compare : A -> A -> Z) (a : A) (l : list A) : list A :=
  match l with
  | [] => [a]
  | b :: l' =>
      if compare a b <=? 0 then a :: b :: l' else b :: insert_sorted compare a l'
  end.

Fixpoint sort {A} (compare : A -> A -> Z) (l : list A) : list A :=
  match l with
  | [] => []
  | a :: l' => insert_sorted compare a (sort compare l')
  end.

(** The callback of [find] in [retrieveOldEmbedsMessage]. *)
Definition hides_source_id (sourceId : jsstring) (m : Message) : outcome bool :=
  match embeds m with
  | [] => Ret false
  | firstEmbed :: _ =>
      match embed_title firstEmbed with
      | None | Some [] => Ret false
      | Some title =>
          decoded <-! decodeAppendedInvisible title;
          Ret (bool_decide (sourceId = decoded))
      end
  end.

(** [retrieveOldEmbedsMessage(message, maxRetries)].  [fetch n] answers
    the [n]-th history request of the call; [fuel] bounds the depth of the
    recursion, and [None] is a call that has not returned within it. *)
Fixpoint retrieveOldEmbedsMessage (fuel : nat)
    (fetch : nat -> jsstring -> nat -> list Message) (attempt : nat)
    (botUserId : jsstring) (message : Message) (maxRetries : Z)
  : option (list event * outcome (option Message)) :=
  match fuel with
  | O => None
  | S fuel' =>
      let sourceId := id message in
      let history := fetch attempt sourceId 10%nat in
      match
        find_outcome (hides_source_id sourceId)
          (sort (fun a b => createdTimestamp a - createdTimestamp b)
                (filter (fun m => authorId m = botUserId) history))
      with
      | Throw e => Some ([EvFetch sourceId 10], Throw e)
      | Ret oldEmbedsMessage =>
          if bool_decide (is_Some oldEmbedsMessage) || (maxRetries =? 0)
          then Some ([EvFetch sourceId 10], Ret oldEmbedsMessage)
          else
            match retrieveOldEmbedsMessage fuel' fetch (S attempt) botUserId
                    message (maxRetries - 1) with
            | Some (evs, r) => Some (EvFetch sourceId 10 :: EvSleep 1000 :: evs, r)
            | None => None
            end
      end
  end.

(** A string that is neither [undefined] nor empty. *)
Definition truthy (s : option jsstring) : bool :=
  match s with
  | Some (_ :: _) => true
  | _ => false
  end.

(** One lookup of [createEmbedsMessage], with its [catch] handler: a
    [GaxiosError] that lists the reason [notFound] becomes [undefined]. *)
Definition getFile (drive : jsstring -> DriveResponse) (fileId : jsstring)
  : outcome (option File) :=
  match drive fileId with
  | Found data => Ret (Some data)
  | Failed (DriveError true (Some (Some errors))) =>
      if existsb (fun reason => bool_decide (reason = lit "notFound")) errors
      then Ret None
      else Throw (DriveError true (Some (Some errors)))
  | Failed (DriveError true (Some None)) => Throw TypeError
  | Failed e => Throw e
  end.

(** [fileTypes] of [src/gdrive.ts], in the order of [Object.values]. *)
Definition fileTypes_others : FileType := {| mime := None; color := 0xe3e5e8 |}.

Definition fileTypes : list FileType :=
  [ {| mime := Some (lit "application/vnd.google-apps.document"); color := 0x4285f4 |};
    {| mime := Some (lit "application/vnd.google-apps.spreadsheet"); color := 0x0f9d58 |};
    {| mime := Some (lit "application/vnd.google-apps.presentation"); color := 0xf4b400 |};
    {| mime := Some (lit "application/vnd.google-apps.form"); color := 0x7627bb |};
    fileTypes_others ].

(** The setters of [EmbedBuilder], each with the validation of its
    argument: a title has 1 to 256 code units, a URL parses and has one
    of the protocols [http:], [https:] and [attachment:], a color is an
    integer from 0 to 0xFFFFFF; [setTimestamp] renders the date with
    [toISOString], which throws on an invalid date ([None]). *)
Definition setTitle (title : jsstring) (data : APIEmbed) : outcome APIEmbed :=
  if (1 <=? length title)%nat && (length title <=? 256)%nat
  then Ret (<["title"%string := VStr title]> data)
  else Throw (ValidationError "setTitle").

Definition setURL (url : jsstring) (data : APIEmbed) : outcome APIEmbed :=
  match URL_protocol url with
  | Some protocol =>
      if bool_decide (protocol ∈ [lit "http:"; lit "https:"; lit "attachment:"])
      then Ret (<["url"%string := VStr url]> data)
      else Throw (ValidationError "setURL")
  | None => Throw (ValidationError "setURL")
  end.

Definition setColor (color : Z) (data : APIEmbed) : outcome APIEmbed :=
  if (0 <=? color) && (color <=? 0xFFFFFF)
  then Ret (<["color"%string := VNum color]> data)
  else Throw (ValidationError "setColor").

Definition setTimestamp (timestamp : option Z) (data : APIEmbed) : outcome APIEmbed :=
  match timestamp with
  | None => Throw InvalidTimeValue
  | Some instant => Ret (<["timestamp"%string := VStr (Date_toISOString instant)]> data)
  end.

(** The callback of [files.map] in [createEmbedsMessage]. *)
Definition buildEmbed (sourceId : jsstring) (i : nat) (file : File) : outcome APIEmbed :=
  if truthy (name file) && truthy (webViewLink file)
     && truthy (mimeType file) && truthy (modifiedTime file)
  then
    let name := default [] (name file) in
    let title := if (0 <? i)%nat then name else appendInvisible name sourceId in
    let fileType :=
      default fileTypes_others
        (find (fun t => bool_decide (mime t = mimeType file)) fileTypes) in
    data <-! setTitle title ∅;
    data <-! setURL (default [] (webViewLink file)) data;
    data <-! setColor (color fileType) data;
    setTimestamp (Date_parse (default [] (modifiedTime file))) data
  else Throw MissingRequiredFields.

(** The lookups of [createEmbedsMessage]: one request per id, all awaited
    by [Promise.all], then the [undefined] results filtered out.  When
    several requests fail the model reports the failure of the first id in
    the list; the code reports the one that settles first. *)
Definition resolveFiles (drive : jsstring -> DriveResponse) (fileIds : list jsstring)
  : outcome (list File) :=
  responses <-! mapM (getFile drive) fileIds;
  Ret (omap (fun file => file) responses).

(** [files.map((file, i) => ...)] of [createEmbedsMessage]. *)
Definition buildEmbeds (sourceId : jsstring) (files : list File) : outcome (list APIEmbed) :=
  mapM (fun '(i, file) => buildEmbed sourceId i file)
       (imap (fun i file => (i, file)) files).

(** [createEmbedsMessage(fileIds, sourceId)] *)
Definition createEmbedsMessage (drive : jsstring -> DriveResponse)
    (fileIds : list jsstring) (sourceId : jsstring)
  : outcome (option MessagePayload) :=
  files <-! resolveFiles drive fileIds;
  if (length files =? 0)%nat then Ret None
  else
    embeds <-! buildEmbeds sourceId files;
    Ret (Some {| payload_embeds := embeds;
                 payload_flags := SuppressNotifications |}).

Definition normalizeOptions : NormalizeUrlOptions :=
  {| defaultProtocol := "https"; normalizeProtocol := true; forceHttps := true;
     removeExplicitPort := true; stripHash := true;
     removeQueryParameters := true |}.

(** [shouldSuppress] of [suppressEmbeds]. *)
Definition shouldSuppress (message : Message) (fileUrls : list jsstring) : bool :=
  let embedsUrls := map embed_url (embeds message) in
  (0 <? length embedsUrls)%nat &&
  forallb (fun embedUrl =>
             if truthy embedUrl then
               let normalizedEmbedUrl :=
                 normalizeUrl (default [] embedUrl) normalizeOptions in
               existsb (fun fileUrl =>
                          bool_decide (normalizedEmbedUrl
                                       = normalizeUrl fileUrl normalizeOptions))
                       fileUrls
             else false)
          embedsUrls.

(** [suppressEmbeds(message, fileUrls)]: the requests it issues. *)
Definition suppressEmbeds (message : Message) (fileUrls : list jsstring) : list event :=
  let shouldSuppress := shouldSuppress message fileUrls in
  if Bool.eqb (flags_has (flags message) SuppressEmbeds) shouldSuppress then []
  else [EvSuppressEmbeds (id message) shouldSuppress].

End Embeds.

Section Orchestrator.
Context `{Platform}.

(** [new Date(timestamp ?? 0).getTime()]; [None] is [NaN]. *)
Definition getTime (timestamp : option jsval) : option Z :=
  match timestamp with
  | None => Some 0
  | Some (VStr s) => Date_parse s
  | Some (VNum n) => Some n
  end.

(** [a !== b] on numbers: [NaN] differs from everything. *)
Definition number_ne (a b : option Z) : bool :=
  match a, b with
  | Some x, Some y => negb (x =? y)
  | _, _ => true
  end.

(** [deepMatch(subset, object)]: every field of [subset] is a field of
    [object], with the same value. *)
Definition deepMatch (subset object : APIEmbed) : bool :=
  bool_decide (subset ⊆ object).

(** The callback of [some] in [updateEmbedsMessage]. *)
Definition embedChanged (newEmbeds : list APIEmbed) (i : nat) (oldEmbedData : APIEmbed)
  : bool :=
  match newEmbeds !! i with
  | None => true
  | Some newEmbedData =>
      number_ne (getTime (oldEmbedData !! "timestamp"%string))
                (getTime (newEmbedData !! "timestamp"%string))
      || negb (deepMatch (delete "timestamp"%string newEmbedData) oldEmbedData)
  end.

(** The condition under which [updateEmbedsMessage] edits the old embeds
    message. *)
Definition embedsChanged (oldEmbeds newEmbeds : list APIEmbed) : bool :=
  negb (length oldEmbeds =? length newEmbeds)%nat
  || existsb (fun changed => changed) (imap (embedChanged newEmbeds) oldEmbeds).

Inductive UpdateOptions : Type :=
  | NoOptions
  | IsNewlyCreated (isNewlyCreated : bool)
  | IsEmbedsSuppressed (isEmbedsSuppressed : bool).

(** [updateEmbedsMessage(sourceMessage, options)]: the requests issued and
    how the call settles.  [Promise.all] rejects as soon as one of its
    two promises does: when both the lookup and the building fail, the
    error is the one of the two that comes first. *)
Definition updateEmbedsMessage (fuel : nat) (w : World) (sourceMessage : Message)
    (options : UpdateOptions) : option (list event * outcome unit) :=
  let isNewlyCreated :=
    match options with IsNewlyCreated b => b | _ => false end in
  let isEmbedsSuppressed :=
    match options with IsEmbedsSuppressed b => b | _ => false end in
  let fileIds := extractFileIds (content sourceMessage) in
  '(evs, old) ←
    (if isNewlyCreated then Some ([], Ret None)
     else retrieveOldEmbedsMessage fuel (fun _ => fetch_after w) 0
            (botUserId w) sourceMessage 2);
  Some
    match old, createEmbedsMessage (drive w) (map fileId fileIds) (id sourceMessage) with
    | Throw e, Throw e' => (evs, Throw (if lookup_rejects_first then e else e'))
    | Throw e, Ret _ | Ret _, Throw e => (evs, Throw e)
    | Ret oldEmbedsMessage, Ret newEmbedsMessage =>
        let suppress :=
          if isEmbedsSuppressed then []
          else suppressEmbeds sourceMessage (map url fileIds) in
        let awaited requests :=
          let '(issued, r) := await_each w requests in (evs ++ issued, r) in
        match oldEmbedsMessage, newEmbedsMessage with
        | None, None => (evs, Ret ())
        | None, Some new => awaited (EvSend new :: suppress)
        | Some old, None => awaited (EvDelete (id old) :: suppress)
        | Some old, Some new =>
            awaited ((if embedsChanged (embeds old) (payload_embeds new)
                      then [EvEdit (id old) new] else []) ++ suppress)
        end
    end.

(** [deleteEmbedsMessage(sourceMessage)] *)
Definition deleteEmbedsMessage (fuel : nat) (w : World) (sourceMessage : Message)
  : option (list event * outcome unit) :=
  '(evs, old) ← retrieveOldEmbedsMessage fuel (fun _ => fetch_after w) 0
                  (botUserId w) sourceMessage 0;
  Some match old with
       | Throw e => (evs, Throw e)
       | Ret None => (evs, Ret ())
       | Ret (Some oldEmbedsMessage) =>
           let '(issued, r) := await_each w [EvDelete (id oldEmbedsMessage)] in
           (evs ++ issued, r)
       end.

(** The world after the requests of a call. *)
Definition after_events (w : World) (evs : list event) : World :=
  fold_left apply_event evs w.

Definition is_send (ev : event) : bool :=
  match ev with EvSend _ => true | _ => false end.
Definition is_edit (ev : event) : bool :=
  match ev with EvEdit _ _ => true | _ => false end.
Definition is_fetch (ev : event) : bool :=
  match ev with EvFetch _ _ => true | _ => false end.
Definition is_sleep (ev : event) : bool :=
  match ev with EvSleep _ => true | _ => false end.

Definition count (p : event -> bool) (evs : list event) : nat :=
  length (List.filter p evs).

(** Successive calls of [updateEmbedsMessage] on the same source message,
    one per element of [options]: the requests of each call. *)
Fixpoint resync (fuel : nat) (options : list UpdateOptions) (w : World)
    (sourceMessage : Message) : option (list (list event)) :=
  match options with
  | [] => Some []
  | o :: options' =>
      '(evs, _) ← updateEmbedsMessage fuel w sourceMessage o;
      rest ← resync fuel options' (after_events w evs) sourceMessage;
      Some (evs :: rest)
  end.

End Orchestrator.


(** ** src/main.ts: the listeners of the message events *)

(** The environment variables, [env]. *)
Abbreviation Env := (gmap string jsstring).

(** A message as the gateway hands it to a listener
    ([Message | PartialMessage]): whether it is partial, the id of its
    author when the object has one ([message.author?.id]), the id of its
    guild ([null] outside a guild), and the fields that the engine
    reads. *)
Record Received : Type := {
  partial : bool;
  author : option jsstring;
  guildId : option jsstring;
  received : Message;
}.

(** What a listener writes to the console, with the values it puts into
    the text. *)
Inductive log : Type :=
  | WarnMessageOutside (inGuild : bool)
  | WarnCommandOutside (commandName : jsstring) (inGuild : bool)
  | ErrorCommandNotFound (name : jsstring).

(** What a listener does: console output, the requests of the engine,
    [message.fetch()], and the two replies to an interaction. *)
Inductive action : Type :=
  | Log (l : log)
  | Do (ev : event)
  | FetchMessage (target : jsstring)
  | DeferReply (ephemeral : bool)
  | DeleteReply.

(** How the promise of a listener settles.  [UnknownMessage] is the
    error of the chat service for a message that no longer exists. *)
Inductive settlement : Type :=
  | Fulfilled
  | Rejected (e : exn)
  | UnknownMessage (target : jsstring).

Definition settle (r : outcome unit) : settlement :=
  match r with
  | Ret _ => Fulfilled
  | Throw e => Rejected e
  end.

(** [a !== b] for [a : string | null] and [b : string | undefined]:
    [null] and [undefined] differ from each other and from every
    string. *)
Definition strict_ne (a b : option jsstring) : bool :=
  match a, b with
  | Some x, Some y => negb (bool_decide (x = y))
  | _, _ => true
  end.

Section Listeners.
Context `{Platform}.

(** [isValidRequest(message)], with what it logs; [message.inGuild()] is
    [Boolean(message.guildId)]. *)
Definition isValidRequest (env : Env) (w : World) (message : Received) : list log * bool :=
  if bool_decide (author message = Some (botUserId w)) then ([], false)
  else if strict_ne (guildId message) (env !! "DISCORD_GUILD_ID"%string)
  then ([WarnMessageOutside (truthy (guildId message))], false)
  else ([], true).

(** The listener of [Events.MessageCreate]. *)
Definition on_MessageCreate (fuel : nat) (env : Env) (w : World) (message : Received)
  : option (list action * settlement) :=
  let '(logs, valid) := isValidRequest env w message in
  if negb valid then Some (map Log logs, Fulfilled)
  else
    '(evs, r) ← updateEmbedsMessage fuel w (received message) (IsNewlyCreated true);
    Some (map Log logs ++ map Do evs, settle r).

(** [message.fetch()]: the message as the channel holds it. *)
Definition fetch_message (w : World) (target : jsstring) : option Message :=
  List.find (fun m => bool_decide (id m = target)) (channel w).

(** The listener of [Events.MessageUpdate]. *)
Definition on_MessageUpdate (fuel : nat) (env : Env) (w : World)
    (oldMessage newMessage : Received) : option (list action * settlement) :=
  let '(logs, valid) := isValidRequest env w newMessage in
  if negb valid then Some (map Log logs, Fulfilled)
  else
    let target := id (received newMessage) in
    let fetched :=
      if partial newMessage then ([FetchMessage target], fetch_message w target)
      else ([], Some (received newMessage)) in
    match fetched with
    | (fetches, None) => Some (map Log logs ++ fetches, UnknownMessage target)
    | (fetches, Some fullNewMessage) =>
        let isEmbedsSuppressed :=
          negb (partial oldMessage
                || flags_has (flags (received oldMessage)) SuppressEmbeds)
          && flags_has (flags fullNewMessage) SuppressEmbeds in
        '(evs, r) ← updateEmbedsMessage fuel w fullNewMessage
                      (IsEmbedsSuppressed isEmbedsSuppressed);
        Some (map Log logs ++ fetches ++ map Do evs, settle r)
    end.

(** The listener of [Events.MessageDelete]. *)
Definition on_MessageDelete (fuel : nat) (env : Env) (w : World) (message : Received)
  : option (list action * settlement) :=
  let '(logs, valid) := isValidRequest env w message in
  if negb valid then Some (map Log logs, Fulfilled)
  else
    '(evs, r) ← deleteEmbedsMessage fuel w (received message);
    Some (map Log logs ++ map Do evs, settle r).

(** The listener of [Events.MessageBulkDelete]: the messages are handled
    one after the other, each in the channel as the ones before left it;
    an exception ends the loop. *)
Fixpoint on_MessageBulkDelete (fuel : nat) (env : Env) (w : World)
    (messages : list Received) : option (list action * settlement) :=
  match messages with
  | [] => Some ([], Fulfilled)
  | message :: messages' =>
      let '(logs, valid) := isValidRequest env w message in
      if negb valid then
        '(acts, s) ← on_MessageBulkDelete fuel env w messages';
        Some (map Log logs ++ acts, s)
      else
        '(evs, r) ← deleteEmbedsMessage fuel w (received message);
        match r with
        | Throw e => Some (map Log logs ++ map Do evs, Rejected e)
        | Ret _ =>
            '(acts, s) ← on_MessageBulkDelete fuel env (after_events w evs) messages';
            Some (map Log logs ++ map Do evs ++ acts, s)
        end
  end.

End Listeners.

(** ** src/commands.ts *)

(** [ApplicationCommandType] *)
Inductive ApplicationCommandType : Type :=
  | ChatInput
  | UserCommand
  | MessageCommand.

#[global] Instance ApplicationCommandType_eq_dec : EqDecision ApplicationCommandType.
Proof. solve_decision. Defined.

(** An interaction: the type of its command when it is one
    ([isCommand()]), its guild, the name of the command and, for a message
    context menu command, the message it was used on. *)
Record Interaction : Type := {
  command : option ApplicationCommandType;
  interaction_guildId : option jsstring;
  commandName : jsstring;
  targetMessage : Message;
}.

Record ExecutableCommand : Type := {
  command_type : ApplicationCommandType;
  data_name : jsstring;
  execute : nat -> World -> Interaction -> option (list action * settlement);
}.

Section Commands.
Context `{Platform}.

(** The command [Update Embeds].  Neither reply is awaited; when the
    update throws, [deleteReply] is not reached. *)
Definition updateEmbedsCommand : ExecutableCommand :=
  {| command_type := MessageCommand;
     data_name := lit "Update Embeds";
     execute := fun fuel w interaction =>
       '(evs, r) ← updateEmbedsMessage fuel w (targetMessage interaction) NoOptions;
       Some (DeferReply true :: map Do evs
             ++ match r with Ret _ => [DeleteReply] | Throw _ => [] end,
             settle r) |}.

Definition commands : list ExecutableCommand := [updateEmbedsCommand].

(** The loop of [commandsListener] over the registered commands: a
    command of the right name runs when the interaction is of its type;
    otherwise an error is logged and the loop goes on. *)
Fixpoint dispatch (fuel : nat) (w : World) (interaction : Interaction)
    (type : ApplicationCommandType) (commands : list ExecutableCommand)
  : option (list action * settlement) :=
  match commands with
  | [] => Some ([], Fulfilled)
  | command :: commands' =>
      if negb (bool_decide (data_name command = commandName interaction))
      then dispatch fuel w interaction type commands'
      else if bool_decide (command_type command = type)
      then execute command fuel w interaction
      else
        '(acts, s) ← dispatch fuel w interaction type commands';
        Some (Log (ErrorCommandNotFound (data_name command)) :: acts, s)
  end.

(** [commandsListener(interaction)] *)
Definition commandsListener (fuel : nat) (env : Env) (w : World) (interaction : Interaction)
  : option (list action * settlement) :=
  match command interaction with
  | None => Some ([], Fulfilled)
  | Some type =>
      if strict_ne (interaction_guildId interaction) (env !! "DISCORD_GUILD_ID"%string)
      then Some ([Log (WarnCommandOutside (commandName interaction)
                         (truthy (interaction_guildId interaction)))], Fulfilled)
      else dispatch fuel w interaction type commands
  end.

End Commands.

(** ** src/checks.ts *)

(** Whether a check returns or ends the process ([process.exit(code)]). *)
Inductive ending : Type :=
  | Returned
  | Exited (code : Z).

(** A guild of [client.guilds.cache], with what [members.fetchMe()] and
    [permissions.missing(requiredPermissions)] report for the bot in
    it. *)
Record Guild : Type := {
  guild_id : jsstring;
  guild_name : jsstring;
  missing : list string;
}.

(** [client.application.fetch()] *)
Record Application : Type := {
  application_id : jsstring;
  botPublic : bool;
  botRequireCodeGrant : bool;
}.

(** The query of the authorization URL; [permissions] stands for
    [PermissionsBitField.resolve(requiredPermissions)]. *)
Record AuthorizationUrl : Type := {
  client_id : jsstring;
  scope : list string;
  permissions : list string;
}.

(** What the checks write to the console, with the values they put into
    the text. *)
Inductive report : Type :=
  | ErrorEnvsNotSet (missingEnv : list string)
  | WarnBotPublic
  | ErrorMissingPermissions (missingPermissions : option (list string))
  | ErrorNotInTargetGuild
  | ErrorNoAuthorizationUrl
  | WarnCodeGrant
  | ErrorNotInTargetGuildFollow (authorizationUrl : option AuthorizationUrl)
  | ErrorCodeGrant
  | ErrorMissingPermissionsFollow (missingPermissions : option (list string))
      (authorizationUrl : option AuthorizationUrl)
  | WarnLeft (name id : jsstring).

Inductive check_action : Type :=
  | Report (r : report)
  | Leave (guild : jsstring).

Definition requiredEnvs : list string :=
  ["DISCORD_BOT_TOKEN"; "DISCORD_GUILD_ID"; "GOOGLE_SERVICE_ACCOUNT_EMAIL";
   "GOOGLE_SERVICE_ACCOUNT_KEY"]%string.

(** [checkEnvs()]: [!env[name]] holds for a variable that is not set and
    for one that is empty. *)
Definition checkEnvs (env : Env) : list check_action * ending :=
  let missingEnv := filter (fun name => truthy (env !! name) = false) requiredEnvs in
  if (length missingEnv =? 0)%nat then ([], Returned)
  else ([Report (ErrorEnvsNotSet missingEnv)], Exited 1).

Definition requiredPermissions : list string :=
  ["ViewChannel"; "SendMessages"; "SendMessagesInThreads"; "EmbedLinks";
   "ReadMessageHistory"; "ManageMessages"]%string.

(** [guilds.has(id)] and [guilds.get(id)] *)
Definition guilds_has (guilds : list Guild) (target : option jsstring) : bool :=
  match target with
  | Some target => existsb (fun g => bool_decide (guild_id g = target)) guilds
  | None => false
  end.

Definition guilds_get (guilds : list Guild) (target : option jsstring) : option Guild :=
  target ← target; List.find (fun g => bool_decide (guild_id g = target)) guilds.

(** The truth value of [missingPermissions.length]. *)
Definition has_length (missingPermissions : option (list string)) : bool :=
  match missingPermissions with
  | Some (_ :: _) => true
  | _ => false
  end.

(** The last loop of [checkBotStatus]. *)
Definition leave_others (guilds : list Guild) (target : option jsstring)
  : list check_action :=
  concat (map (fun g => if bool_decide (Some (guild_id g) = target) then []
                        else [Leave (guild_id g);
                              Report (WarnLeft (guild_name g) (guild_id g))])
              guilds).

(** [checkBotStatus(client)]: [guilds] is [client.guilds.cache] and
    [userId] is [client.user.id]. *)
Definition checkBotStatus (env : Env) (guilds : list Guild) (application : Application)
    (userId : jsstring) : list check_action * ending :=
  let target := env !! "DISCORD_GUILD_ID"%string in
  let isInTargetGuild := guilds_has guilds target in
  let missingPermissions := missing <$> guilds_get guilds target in
  let public := if botPublic application then [Report WarnBotPublic] else [] in
  if botRequireCodeGrant application
     && (negb (isInTargetGuild && bool_decide (is_Some missingPermissions))
         || has_length missingPermissions)
  then
    (public
     ++ [Report (if isInTargetGuild then ErrorMissingPermissions missingPermissions
                 else ErrorNotInTargetGuild);
         Report ErrorNoAuthorizationUrl], Exited 1)
  else
    let grant := if botRequireCodeGrant application then [Report WarnCodeGrant] else [] in
    let authorizationUrl :=
      if botRequireCodeGrant application then None
      else Some {| client_id := userId;
                   scope := ["bot"; "applications.commands"]%string;
                   permissions := requiredPermissions |} in
    if negb isInTargetGuild then
      (public ++ grant
       ++ [Report (ErrorNotInTargetGuildFollow authorizationUrl); Report ErrorCodeGrant],
       Exited 1)
    else if negb (bool_decide (is_Some missingPermissions)) || has_length missingPermissions
    then
      (public ++ grant
       ++ [Report (ErrorMissingPermissionsFollow missingPermissions authorizationUrl)],
       Exited 1)
    else (public ++ grant ++ leave_others guilds target, Returned).

(** ** A concrete platform, for the examples

    Dates in the ISO forms the two services produce; URLs of the form
    [scheme://host:port/path?query#hash], without user information and
    without percent escapes; a normalizer for them that follows the
    options it is given; and a chat service that adds the field [type] to
    a stored embed, renders its timestamp with a numeric offset, refuses
    a message with more than 10 embeds and refuses to change a message
    that the channel does not hold. *)

Module Sample.

Definition digit (u : Z) : option Z :=
  if (48 <=? u) && (u <=? 57) then Some (u - 48) else None.

Fixpoint number (n : nat) (s : jsstring) (acc : Z) : option (Z * jsstring) :=
  match n with
  | O => Some (acc, s)
  | S n' =>
      match s with
      | u :: s' => d ← digit u; number n' s' (acc * 10 + d)
      | [] => None
      end
  end.

Definition expect (c : Z) (s : jsstring) : option jsstring :=
  match s with
  | u :: s' => if u =? c then Some s' else None
  | [] => None
  end.

Fixpoint skip_digits (s : jsstring) : jsstring :=
  match s with
  | u :: s' => if (48 <=? u) && (u <=? 57) then skip_digits s' else s
  | [] => []
  end.

Definition days_from_civil (y m d : Z) : Z :=
  let y := if m <=? 2 then y - 1 else y in
  let era := y / 400 in
  let yoe := y - era * 400 in
  let doy := (153 * (if 2 <? m then m - 3 else m + 9) + 2) / 5 + d - 1 in
  let doe := yoe * 365 + yoe / 4 - yoe / 100 + doy in
  era * 146097 + doe - 719468.

Definition civil_from_days (z : Z) : Z * Z * Z :=
  let z := z + 719468 in
  let era := z / 146097 in
  let doe := z - era * 146097 in
  let yoe := (doe - doe / 1460 + doe / 36524 - doe / 146096) / 365 in
  let doy := doe - (365 * yoe + yoe / 4 - yoe / 100) in
  let mp := (5 * doy + 2) / 153 in
  let d := doy - (153 * mp + 2) / 5 + 1 in
  let m := if mp <? 10 then mp + 3 else mp - 9 in
  (yoe + era * 400 + (if m <=? 2 then 1 else 0), m, d).

Definition parse (s : jsstring) : option Z :=
  '(y, s) ← number 4 s 0; s ← expect (chr "-") s;
  '(m, s) ← number 2 s 0; s ← expect (chr "-") s;
  '(d, s) ← number 2 s 0; s ← expect (chr "T") s;
  '(hh, s) ← number 2 s 0; s ← expect (chr ":") s;
  '(mm, s) ← number 2 s 0; s ← expect (chr ":") s;
  '(ss, s) ← number 2 s 0;
  '(ms, s) ← match s with
             | 46 :: s' => '(ms, s') ← number 3 s' 0; Some (ms, skip_digits s')
             | _ => Some (0, s)
             end;
  offset ← match s with
           | [90] => Some 0
           | sign :: s' =>
               if (sign =? chr "+") || (sign =? chr "-") then
                 '(oh, s') ← number 2 s' 0; s' ← expect (chr ":") s';
                 '(om, s') ← number 2 s' 0;
                 match s' with
                 | [] => Some ((if sign =? chr "-" then -1 else 1) * (oh * 60 + om))
                 | _ => None
                 end
               else None
           | [] => None
           end;
  Some ((((days_from_civil y m d * 24 + hh) * 60 + mm - offset) * 60 + ss) * 1000 + ms).

Fixpoint pad (n : nat) (z : Z) (acc : jsstring) : jsstring :=
  match n with
  | O => acc
  | S n' => pad n' (z / 10) ((48 + z `mod` 10) :: acc)
  end.

Definition render (t : Z) (zone : jsstring) : jsstring :=
  let secs := t / 1000 in
  let sod := secs `mod` 86400 in
  let '(y, m, d) := civil_from_days (secs / 86400) in
  pad 4 y [] ++ [chr "-"] ++ pad 2 m [] ++ [chr "-"] ++ pad 2 d [] ++ [chr "T"]
  ++ pad 2 (sod / 3600) [] ++ [chr ":"] ++ pad 2 (sod `mod` 3600 / 60) []
  ++ [chr ":"] ++ pad 2 (sod `mod` 60) [] ++ [chr "."] ++ pad 3 (t `mod` 1000) []
  ++ zone.

Definition toISOString (t : Z) : jsstring := render t (lit "Z").

Fixpoint take_until (stop : Z -> bool) (s : jsstring) : jsstring :=
  match s with
  | [] => []
  | u :: s' => if stop u then [] else u :: take_until stop s'
  end.

Definition lower (u : Z) : Z := if (65 <=? u) && (u <=? 90) then u + 32 else u.

Definition is_alpha (u : Z) : bool :=
  ((65 <=? u) && (u <=? 90)) || ((97 <=? u) && (u <=? 122)).

Definition is_scheme_char (u : Z) : bool :=
  is_alpha u || ((48 <=? u) && (u <=? 57)) || (u =? chr "+") || (u =? chr "-")
  || (u =? chr ".").

Fixpoint drop_while (p : Z -> bool) (s : jsstring) : jsstring :=
  match s with
  | u :: s' => if p u then drop_while p s' else s
  | [] => []
  end.

(** The scheme of [s], in lower case, and what follows its colon. *)
Definition split_scheme (s : jsstring) : option (jsstring * jsstring) :=
  match s with
  | u :: _ =>
      if is_alpha u then
        let scheme := take_until (fun u => negb (is_scheme_char u)) s in
        match drop (length scheme) s with
        | 58 :: rest => Some (map lower scheme, rest)
        | _ => None
        end
      else None
  | [] => None
  end.

Definition is_slash (u : Z) : bool := (u =? chr "/") || (u =? 92).

Definition ends_authority (u : Z) : bool :=
  is_slash u || (u =? chr "?") || (u =? chr "#").

(** [new URL(s).protocol]: a URL has a scheme and, when the scheme is
    one of the web, a host. *)
Definition protocol (s : jsstring) : option jsstring :=
  '(scheme, rest) ← split_scheme s;
  if bool_decide (scheme ∈ [lit "http"; lit "https"; lit "ws"; lit "wss"; lit "ftp"])
  then match take_until ends_authority (drop_while is_slash rest) with
       | [] => None
       | _ => Some (scheme ++ lit ":")
       end
  else Some (scheme ++ lit ":").

Definition default_port (scheme : jsstring) : jsstring :=
  if bool_decide (scheme = lit "https") then lit "443"
  else if bool_decide (scheme = lit "http") then lit "80" else [].

(** The host without a trailing dot and without a leading [www.]. *)
Definition strip_www (host : jsstring) : jsstring :=
  let host := match reverse host with
              | 46 :: h => reverse h
              | _ => host
              end in
  if startsWith host (lit "www.") && negb (startsWith host (lit "www.www."))
     && existsb (fun u => u =? chr ".") (drop 4 host)
  then drop 4 host else host.

(** [normalizeUrl(u, options)] with the defaults of the package for the
    options the record does not have: a URL of another scheme than
    [http] and [https] is returned as it is; the scheme is added when it
    is missing; the host is put in lower case and loses [www.]; the
    default port, the trailing slash of the path and, as the options say,
    an explicit port, the query and the hash are removed.  The
    parameters of a query that is kept are not sorted. *)
Definition normalize (u : jsstring) (options : NormalizeUrlOptions) : jsstring :=
  let custom :=
    match protocol u with
    | Some p =>
        negb (existsb (fun u => u =? chr ".") p)
        && negb (bool_decide (p ∈ [lit "http:"; lit "https:"; lit "file:"]))
    | None => false
    end in
  if custom then u
  else
    let '(scheme, rest) :=
      match split_scheme u with
      | Some (scheme, rest) =>
          if startsWith rest (lit "//") then (scheme, drop 2 rest)
          else (Js.lit (defaultProtocol options), u)
      | None =>
          (Js.lit (defaultProtocol options),
           if startsWith u (lit "//") then drop 2 u else u)
      end in
    let scheme :=
      if forceHttps options && bool_decide (scheme = lit "http") then lit "https"
      else scheme in
    let authority := take_until ends_authority rest in
    let rest := drop (length authority) rest in
    let host := strip_www (map lower (take_until (fun u => u =? chr ":") authority)) in
    let port := drop 1 (drop_while (fun u => negb (u =? chr ":")) authority) in
    let port :=
      if removeExplicitPort options || bool_decide (port = default_port scheme)
      then [] else port in
    let path := take_until (fun u => (u =? chr "?") || (u =? chr "#")) rest in
    let rest := drop (length path) rest in
    let path := match reverse path with
                | 47 :: p => reverse p
                | _ => path
                end in
    let query := take_until (fun u => u =? chr "#") rest in
    let hash := drop (length query) rest in
    scheme ++ lit "://" ++ host
    ++ match port with [] => [] | _ => chr ":" :: port end
    ++ path
    ++ (if removeQueryParameters options then []
        else match query with [_] => [] | _ => query end)
    ++ (if stripHash options then []
        else match hash with [_] => [] | _ => hash end).

Definition stored (e : APIEmbed) : APIEmbed :=
  let e := <["type"%string := VStr (lit "rich")]> e in
  match e !! "timestamp"%string with
  | Some (VStr s) =>
      match parse s with
      | Some t => <["timestamp"%string := VStr (render t (lit "000+00:00"))]> e
      | None => e
      end
  | _ => e
  end.

Fixpoint decimal (fuel : nat) (n : Z) (acc : jsstring) : jsstring :=
  match fuel with
  | O => acc
  | S fuel' =>
      let acc := (48 + n `mod` 10) :: acc in
      if n <? 10 then acc else decimal fuel' (n / 10) acc
  end.

Definition fresh (channel : list Message) : jsstring * Z :=
  let next := 1 + foldr Z.max 0 (map (fun m => snowflake_value (id m)) channel) in
  (decimal (Z.to_nat (Z.log2 next) + 1) next [],
   1 + foldr Z.max 0 (map createdTimestamp channel)).

(** The chat service refuses a message with more than 10 embeds
    (error 50035, invalid form body) and a change of a message that the
    channel does not hold (error 10008, unknown message). *)
Definition refuses (channel : list Message) (ev : event) : option exn :=
  let unknown target := negb (existsb (fun m => bool_decide (id m = target)) channel) in
  match ev with
  | EvSend payload =>
      if (10 <? length (payload_embeds payload))%nat then Some (DiscordAPIError 50035)
      else None
  | EvEdit target payload =>
      if unknown target then Some (DiscordAPIError 10008)
      else if (10 <? length (payload_embeds payload))%nat then Some (DiscordAPIError 50035)
      else None
  | EvDelete target | EvSuppressEmbeds target _ =>
      if unknown target then Some (DiscordAPIError 10008) else None
  | EvFetch _ _ | EvSleep _ => None
  end.

#[global] Instance platform : Platform := {|
  Date_parse := parse;
  Date_toISOString := toISOString;
  URL_protocol := protocol;
  normalizeUrl := normalize;
  stored_embed := stored;
  fresh_message := fresh;
  refused := refuses;
  lookup_rejects_first := true;
|}.

(** A chat service that keeps the timestamp of an embed to the second
    only. *)
Definition stored_to_the_second (e : APIEmbed) : APIEmbed :=
  let e := <["type"%string := VStr (lit "rich")]> e in
  match e !! "timestamp"%string with
  | Some (VStr s) =>
      match parse s with
      | Some t =>
          <["timestamp"%string := VStr (render (t / 1000 * 1000) (lit "000+00:00"))]> e
      | None => e
      end
  | _ => e
  end.

Definition to_the_second : Platform := {|
  Date_parse := parse;
  Date_toISOString := toISOString;
  URL_protocol := protocol;
  normalizeUrl := normalize;
  stored_embed := stored_to_the_second;
  fresh_message := fresh;
  refused := refuses;
  lookup_rejects_first := true;
|}.

(** The same platform, on which the building of the new embeds fails
    before the lookup does. *)
Definition building_fails_first : Platform := {|
  Date_parse := parse;
  Date_toISOString := toISOString;
  URL_protocol := protocol;
  normalizeUrl := normalize;
  stored_embed := stored;
  fresh_message := fresh;
  refused := refuses;
  lookup_rejects_first := false;
|}.

End Sample.

(** ** A sample channel, for the examples *)

Module Scenario.
Import Sample.

Definition fileId1 : jsstring := lit "1aBcDeFgHiJkLmNoPqRsTuVwXyZ012".
Definition link1 : jsstring :=
  lit "https://drive.google.com/file/d/1aBcDeFgHiJkLmNoPqRsTuVwXyZ012/view".

Definition file1 (fileName : jsstring) : File :=
  {| name := Some fileName;
     webViewLink := Some link1;
     mimeType := Some (lit "application/pdf");
     modifiedTime := Some (lit "2024-03-01T12:34:56.789Z") |}.

(** The file service knows one file, named [fileName]. *)
Definition drive1 (fileName : jsstring) (fileId : jsstring) : DriveResponse :=
  if bool_decide (fileId = fileId1) then Found (file1 fileName)
  else Failed (DriveError true (Some (Some [lit "notFound"]))).

Definition source : Message :=
  {| id := lit "1000"; authorId := lit "7"; createdTimestamp := 1709300000000;
     content := lit "Check this: " ++ link1; embeds := []; flags := 0 |}.

(** A message of another user, with the snowflake [1000 + n]. *)
Definition chatter (n : Z) : Message :=
  {| id := decimal 4 (1000 + n) []; authorId := lit "8";
     createdTimestamp := 1709300000000 + n; content := lit "hello";
     embeds := []; flags := 0 |}.

(** The channel holds the source message and [n] later messages. *)
Definition world (fileName : jsstring) (n : nat) : World :=
  {| channel := source :: map (fun i => chatter (1 + Z.of_nat i)) (seq 0 n);
     drive := drive1 fileName;
     botUserId := lit "42" |}.

(** An embeds message of the bot for [source], showing [report.pdf]. *)
Definition shadow : Message :=
  {| id := lit "1001"; authorId := lit "42"; createdTimestamp := 1709300001000;
     content := [];
     embeds := [ <["title"%string := VStr (appendInvisible (lit "report.pdf") (lit "1000"))]>
                 (<["url"%string := VStr link1]> ∅) ];
     flags := SuppressNotifications |}.

(** A history in which the embeds message shows up at the second request. *)
Definition late_history (attempt : nat) (after : jsstring) (limit : nat) : list Message :=
  if (attempt <? 1)%nat then [chatter 2] else [chatter 2; shadow].

(** The source message with a native preview of the link. *)
Definition previewed : Message :=
  {| id := lit "1000"; authorId := lit "7"; createdTimestamp := 1709300000000;
     content := lit "Check this: " ++ link1;
     embeds := [ <["url"%string := VStr (lit "http://drive.google.com/file/d/1aBcDeFgHiJkLmNoPqRsTuVwXyZ012/view?usp=sharing")]> ∅ ];
     flags := 0 |}.

(** The source message is created, then edited twice without a change of
    its links, then the command [Update Embeds] is used on it. *)
Definition history : list UpdateOptions :=
  [IsNewlyCreated true; IsEmbedsSuppressed false; IsEmbedsSuppressed true; NoOptions].

(** The numbers of messages sent and of edits of each of the calls. *)
Definition tally {platform : Platform} (options : list UpdateOptions) (w : World)
    (sourceMessage : Message) : option (list (nat * nat)) :=
  map (fun evs => (count is_send evs, count is_edit evs))
    <$> resync 3 options w sourceMessage.

Definition sends_and_edits (w : World) : option (list (nat * nat)) :=
  tally history w source.

(** A source message with 11 links to the file, alone in its channel. *)
Definition crowded : Message :=
  {| id := lit "1000"; authorId := lit "7"; createdTimestamp := 1709300000000;
     content := concat (replicate 11 (link1 ++ lit " ")); embeds := []; flags := 0 |}.

Definition crowded_world : World :=
  {| channel := [crowded]; drive := drive1 (lit "report.pdf"); botUserId := lit "42" |}.

End Scenario.


(** ** Sample events, for the examples *)

Module Events.

Definition env : Env :=
  <["DISCORD_BOT_TOKEN"%string := lit "token"]>
    (<["DISCORD_GUILD_ID"%string := lit "900"]>
       (<["GOOGLE_SERVICE_ACCOUNT_EMAIL"%string := lit "bot@example.org"]>
          (<["GOOGLE_SERVICE_ACCOUNT_KEY"%string := lit "key"]> ∅))).

(** A full message of the configured guild, as the gateway delivers
    it. *)
Definition delivered (m : Message) : Received :=
  {| partial := false; author := Some (authorId m); guildId := Some (lit "900");
     received := m |}.

(** The source message with its native preview, once the preview is
    suppressed. *)
Definition suppressed : Message :=
  {| id := id Scenario.previewed; authorId := authorId Scenario.previewed;
     createdTimestamp := createdTimestamp Scenario.previewed;
     content := content Scenario.previewed; embeds := embeds Scenario.previewed;
     flags := Z.lor (flags Scenario.previewed) SuppressEmbeds |}.

(** The channel holds the source message and its embeds message. *)
Definition shadowed : World :=
  {| channel := [Scenario.source; Scenario.shadow];
     drive := Scenario.drive1 (lit "report.pdf");
     botUserId := lit "42" |}.

(** The command [Update Embeds], used on [m] in the configured guild. *)
Definition menu (m : Message) : Interaction :=
  {| command := Some MessageCommand; interaction_guildId := Some (lit "900");
     commandName := lit "Update Embeds"; targetMessage := m |}.

(** The answers of [Scenario.late_history], oldest message last. *)
Definition late_history_reversed (attempt : nat) (after : jsstring) (limit : nat)
  : list Message :=
  reverse (Scenario.late_history attempt after limit).

(** A file whose name is the empty string. *)
Definition nameless : File :=
  {| name := Some [];
     webViewLink := Some Scenario.link1;
     mimeType := Some (lit "application/pdf");
     modifiedTime := Some (lit "2024-03-01T12:34:56.789Z") |}.

(** An embeds message of the bot for [Scenario.source], showing a file
    whose name holds U+2060. *)
Definition unreadable : Message :=
  {| id := lit "1001"; authorId := lit "42"; createdTimestamp := 1709300001000;
     content := [];
     embeds := [ <["title"%string :=
                     VStr (appendInvisible (lit "draft" ++ 0x2060 :: lit "v2.pdf")
                                           (lit "1000"))]>
                 (<["url"%string := VStr Scenario.link1]> ∅) ];
     flags := SuppressNotifications |}.

(** The channel holds the source message and that embeds message. *)
Definition stuck : World :=
  {| channel := [Scenario.source; unreadable];
     drive := Scenario.drive1 (lit "draft" ++ 0x2060 :: lit "v2.pdf");
     botUserId := lit "42" |}.

End Events.

(** * The vocabulary of the properties *)

Section Vocabulary.
Context `{Platform}.

Definition is_byte (b : Z) : Prop := 0 <= b < 256.
Definition is_nibble (n : Z) : Prop := 0 <= n < 16.

(** One of the 16 reserved invisible code points. *)
Definition reserved (u : Z) : bool := (0x2060 <=? u) && (u <=? 0x206F).

(** The nibbles of a byte array, upper nibble first. *)
Definition nibbles_of (bytes : list Z) : list Z :=
  concat (map (fun byte => [byte ≫ 4; Z.land byte 0xf]) bytes).

(** Nibbles written as invisible characters. *)
Definition write_nibbles (ns : list Z) : jsstring := map (fun n => 0x2060 + n) ns.

(** The indices that [decodeAppendedInvisible] takes the minimum of. *)
Definition indices (text : jsstring) : list Z :=
  filter (fun i => i ≠ -1)
         (map (fun char => indexOf text (fromCodePoint [char])) invisibleChars).

(** A Unicode scalar value. *)
Definition scalar (c : Z) : Prop := 0 <= c <= 0x10FFFF /\ ~ (0xD800 <= c <= 0xDFFF).

(** The normalization of URLs that the suppressor is to use: https is
    forced (and is the protocol of a URL without one), and the explicit
    port, the hash and the query are removed. *)
Definition https_without_port_hash_query : NormalizeUrlOptions :=
  {| defaultProtocol := "https"; normalizeProtocol := true; forceHttps := true;
     removeExplicitPort := true; stripHash := true; removeQueryParameters := true |}.

(** A native preview whose URL, once normalized, is the normalized form of
    one of the extracted file URLs. *)
Definition preview_matches (fileUrls : list jsstring) (e : APIEmbed) : Prop :=
  exists u, embed_url e = Some u /\ u <> [] /\
    exists f, f ∈ fileUrls /\
      normalizeUrl u https_without_port_hash_query
      = normalizeUrl f https_without_port_hash_query.

(** The suppression flag of a message: bit 2 of its flags. *)
Definition suppression_flag (message : Message) : bool := Z.testbit (flags message) 2.

(** The answers of the file service that the resolver swallows: a
    [GaxiosError] whose response lists the reason [notFound]. *)
Definition is_notFound (r : DriveResponse) : bool :=
  match r with
  | Failed (DriveError true (Some (Some errors))) =>
      existsb (fun reason => bool_decide (reason = lit "notFound")) errors
  | _ => false
  end.

(** The file an answer resolves to, if any. *)
Definition resolved (r : DriveResponse) : option File :=
  match r with
  | Found data => Some data
  | Failed _ => None
  end.

(** Any other failure. *)
Definition is_fatal (r : DriveResponse) : bool :=
  match r with
  | Found _ => false
  | Failed _ => negb (is_notFound r)
  end.

(** A resolved file with the four requested fields, whose last-modified
    time is a date. *)
Definition complete (file : File) : bool :=
  truthy (name file) && truthy (webViewLink file) && truthy (mimeType file)
  && truthy (modifiedTime file)
  && bool_decide (is_Some (Date_parse (default [] (modifiedTime file)))).

(** The instant that a field [timestamp] stands for: the epoch when the
    field is missing, the number when it is one, and the date that the
    string parses to; a string that is not a date stands for none. *)
Inductive denotes : option jsval -> Z -> Prop :=
  | denotes_missing : denotes None 0
  | denotes_number (n : Z) : denotes (Some (VNum n)) n
  | denotes_date (s : jsstring) (t : Z) : Date_parse s = Some t -> denotes (Some (VStr s)) t.

(** The two embeds carry the same instant, whatever its rendering. *)
Definition same_instant (oldEmbedData newEmbedData : APIEmbed) : Prop :=
  exists t, denotes (oldEmbedData !! "timestamp"%string) t
            /\ denotes (newEmbedData !! "timestamp"%string) t.

(** Every field of the new embed other than [timestamp] is a field of the
    old one, with the same value. *)
Definition fields_kept (oldEmbedData newEmbedData : APIEmbed) : Prop :=
  forall (k : string) (v : jsval),
    k <> "timestamp"%string -> newEmbedData !! k = Some v -> oldEmbedData !! k = Some v.

(** The scan of one history answer: the bot's messages, oldest first,
    searched for the first one that hides the source id. *)
Definition scan (botUserId sourceId : jsstring) (history : list Message)
  : outcome (option Message) :=
  find_outcome (hides_source_id sourceId)
    (sort (fun a b => createdTimestamp a - createdTimestamp b)
          (filter (fun m => authorId m = botUserId) history)).

(** No message of the bot in [history] hides the source id. *)
Definition no_match (botUserId sourceId : jsstring) (history : list Message) : Prop :=
  forall m, m ∈ history -> authorId m = botUserId ->
    hides_source_id sourceId m = Ret false.

(** [m] is a message of the bot in [history] that hides the source id, and
    no older message of the bot in [history] does. *)
Definition first_match (botUserId sourceId : jsstring) (history : list Message)
    (m : Message) : Prop :=
  m ∈ history /\ authorId m = botUserId
  /\ hides_source_id sourceId m = Ret true
  /\ forall m', m' ∈ history -> authorId m' = botUserId ->
       createdTimestamp m' < createdTimestamp m ->
       hides_source_id sourceId m' = Ret false.

(** [title] is the title of the first embed of [m], and is not empty. *)
Definition first_title (m : Message) (title : jsstring) : Prop :=
  exists firstEmbed others,
    embeds m = firstEmbed :: others /\ embed_title firstEmbed = Some title /\ title <> [].

(** The first title of [m] decodes to [sourceId]. *)
Definition title_decodes_to (sourceId : jsstring) (m : Message) : Prop :=
  exists title, first_title m title /\ decodeAppendedInvisible title = Ret sourceId.

(** [m] has no first title, or one that decodes to another string than
    [sourceId]. *)
Definition title_decodes_elsewhere (sourceId : jsstring) (m : Message) : Prop :=
  (forall title, ~ first_title m title)
  \/ exists title decoded,
       first_title m title /\ decodeAppendedInvisible title = Ret decoded
       /\ decoded <> sourceId.

(** The first title of [m] does not decode: the codec throws [e]. *)
Definition title_fails_with (e : exn) (m : Message) : Prop :=
  exists title, first_title m title /\ decodeAppendedInvisible title = Throw e.

(** [sorted] lists the messages of the bot in [history], oldest first. *)
Definition oldest_first (botUserId : jsstring) (history sorted : list Message) : Prop :=
  sorted ≡ₚ filter (fun m => authorId m = botUserId) history
  /\ StronglySorted (fun a b => createdTimestamp a <= createdTimestamp b) sorted.

(** No message of the bot in [history] has a first title that decodes to
    the source id, and every title there decodes. *)
Definition nothing_found (botUserId sourceId : jsstring) (history : list Message) : Prop :=
  forall m, m ∈ history -> authorId m = botUserId -> title_decodes_elsewhere sourceId m.

(** Among the messages of the bot in [history], taken oldest first, [m]
    is the first whose first title decodes to the source id; the titles
    before it decode to something else. *)
Definition found_first (botUserId sourceId : jsstring) (history : list Message)
    (m : Message) : Prop :=
  exists before after,
    oldest_first botUserId history (before ++ m :: after)
    /\ Forall (title_decodes_elsewhere sourceId) before
    /\ title_decodes_to sourceId m.

(** Among the messages of the bot in [history], taken oldest first, a
    message whose first title fails to decode, with [e], comes before any
    whose first title decodes to the source id: the titles before it
    decode to something else. *)
Definition fails_first (botUserId sourceId : jsstring) (history : list Message)
    (e : exn) : Prop :=
  exists before m after,
    oldest_first botUserId history (before ++ m :: after)
    /\ Forall (title_decodes_elsewhere sourceId) before
    /\ title_fails_with e m.

(** The requests of a lookup that needed [k] retries. *)
Definition lookup_requests (sourceId : jsstring) (k : nat) : list event :=
  concat (replicate k [EvFetch sourceId 10; EvSleep 1000]) ++ [EvFetch sourceId 10].

(** [matches r m cap cap']: the text [m] is in the language of [r]; the
    capture of group 1 is [cap] before and [cap'] after. *)
Fixpoint matches (r : regex) (m : jsstring) (cap cap' : option jsstring) : Prop :=
  match r with
  | Chr c => m = [c] /\ cap' = cap
  | Class p => exists u, m = [u] /\ p u = true /\ cap' = cap
  | Seq r1 r2 =>
      exists m1 m2 cap1, m = m1 ++ m2 /\ matches r1 m1 cap cap1 /\ matches r2 m2 cap1 cap'
  | Alt r1 r2 => matches r1 m cap cap' \/ matches r2 m cap cap'
  | Opt r => matches r m cap cap' \/ (m = [] /\ cap' = cap)
  | Repeat min p => (min <= length m)%nat /\ Forall (fun u => p u = true) m /\ cap' = cap
  | Capture r => exists cap1, matches r m cap cap1 /\ cap' = Some m
  end.

(** A text with the property [P] starts [s]. *)
Definition starts_with (P : jsstring -> Prop) (s : jsstring) : Prop :=
  exists m post, s = m ++ post /\ P m.

(** [ms] are the leftmost occurrences of [P] in [s], one after the other:
    no text with the property [P] starts before the first of them, nor in
    the gap before each next one, nor after the last. *)
Fixpoint leftmost (P : jsstring -> Prop) (ms : list jsstring) (s : jsstring) : Prop :=
  match ms with
  | [] => forall s1 s2, s = s1 ++ s2 -> ~ starts_with P s2
  | m :: ms' =>
      exists pre post,
        s = pre ++ m ++ post
        /\ (forall pre1 pre2, pre = pre1 ++ pre2 -> pre2 <> [] ->
              ~ starts_with P (pre2 ++ m ++ post))
        /\ leftmost P ms' post
  end.

(** A sharing link with its file id: scheme, host [drive] or [docs], a
    non-empty directory part, one of the segments [d], [e] and [folders],
    an id of at least 25 characters of [[-\w]], and possibly a further
    path. *)
Definition is_link (url fileId : jsstring) : Prop :=
  exists scheme host dir segment rest,
    url = scheme ++ lit "://" ++ host ++ lit ".google.com/" ++ dir ++ lit "/"
          ++ segment ++ lit "/" ++ fileId ++ rest
    /\ (scheme = lit "http" \/ scheme = lit "https")
    /\ (host = lit "drive" \/ host = lit "docs")
    /\ dir <> [] /\ Forall (fun u => url_char u = true) dir
    /\ (segment = lit "d" \/ segment = lit "e" \/ segment = lit "folders")
    /\ (25 <= length fileId)%nat /\ Forall (fun u => id_char u = true) fileId
    /\ (rest = [] \/
        exists middle last,
          rest = lit "/" ++ middle ++ [last]
          /\ Forall (fun u => url_char u = true) middle
          /\ url_last_char last = true).

(** No reserved code point. *)
Definition plain (s : jsstring) : bool := forallb (fun u => negb (reserved u)) s.

(** The chat service returns an embed as it was sent: every field with
    its value, and the timestamp as the same instant, in whatever
    rendering; it may add fields of its own. *)
Definition stores_faithfully (e : APIEmbed) : Prop :=
  fields_kept (stored_embed e) e /\ same_instant (stored_embed e) e.

(** [served w requests issued r]: asked [requests] one after the other
    from the world [w], the chat service has accepted all of [issued] but
    possibly the last; [r] is the error of the request it refused, and
    [Ret ()] when it has accepted all of [requests]. *)
Inductive served : World -> list event -> list event -> outcome unit -> Prop :=
  | served_all (w : World) : served w [] [] (Ret ())
  | served_refused (w : World) (ev : event) (requests : list event) (e : exn) :
      refused (channel w) ev = Some e -> served w (ev :: requests) [ev] (Throw e)
  | served_next (w : World) (ev : event) (requests issued : list event)
        (r : outcome unit) :
      refused (channel w) ev = None -> served (effect w ev) requests issued r ->
      served w (ev :: requests) (ev :: issued) r.

(** The title of the embed at position [i], for a file named
    [fileName]. *)
Definition title_at (sourceId : jsstring) (i : nat) (fileName : jsstring) : jsstring :=
  match i with
  | O => fileName ++ encode sourceId
  | S _ => fileName
  end.

(** The chat library accepts the title and the link of the file at
    position [i]: the title has at most 256 code units, and the link is a
    URL with one of the protocols [http:], [https:] and [attachment:]. *)
Definition presentable (sourceId : jsstring) (i : nat) (file : File) : Prop :=
  (length (title_at sourceId i (default [] (name file))) <= 256)%nat
  /\ exists protocol,
       URL_protocol (default [] (webViewLink file)) = Some protocol
       /\ protocol ∈ [lit "http:"; lit "https:"; lit "attachment:"].

(** [edit] on one message. *)
Definition with_embeds (target : jsstring) (storedEmbeds : list APIEmbed) (m : Message)
  : Message :=
  if bool_decide (id m = target)
  then {| id := id m; authorId := authorId m;
          createdTimestamp := createdTimestamp m; content := content m;
          embeds := storedEmbeds; flags := flags m |}
  else m.

(** No message sent, no message edited. *)
Definition quiet (evs : list event) : Prop :=
  count is_send evs = O /\ count is_edit evs = O.

Section Source.
Variable sourceMessage : Message.

(** The old embeds message a call finds in [w], and the new embeds it
    builds. *)
Definition old_in (w : World) : outcome (option Message) :=
  scan (botUserId w) (id sourceMessage) (fetch_after w (id sourceMessage) 10).

Definition new_in (w : World) : outcome (option MessagePayload) :=
  createEmbedsMessage (drive w) (map fileId (extractFileIds (content sourceMessage)))
    (id sourceMessage).

(** [w'] descends from [w] and a call in [w'] has nothing to send or
    edit. *)
Definition settled (w w' : World) : Prop :=
  drive w' = drive w /\ botUserId w' = botUserId w
  /\ match new_in w with
     | Ret (Some payload) =>
         match old_in w' with
         | Ret (Some old) => embedsChanged (embeds old) (payload_embeds payload) = false
         | Ret None => False
         | Throw _ => True
         end
     | _ => True
     end.

(** The name of the first resolved file has no reserved code point. *)
Definition first_name_plain (w : World) : bool :=
  match resolveFiles (drive w) (map fileId (extractFileIds (content sourceMessage))) with
  | Ret (file :: _) => plain (default [] (name file))
  | _ => true
  end.

(** The chat service stores the new embeds faithfully. *)
Definition stored_as_sent (w : World) : Prop :=
  forall payload, new_in w = Ret (Some payload) ->
    Forall stores_faithfully (payload_embeds payload).

(** The chat service accepts the new embeds: as a message of their own
    when no embeds message exists, as an edit of the embeds message
    otherwise. *)
Definition write_accepted (w : World) : Prop :=
  forall payload, new_in w = Ret (Some payload) ->
    match old_in w with
    | Ret None => refused (channel w) (EvSend payload) = None
    | Ret (Some old) => refused (channel w) (EvEdit (id old) payload) = None
    | Throw _ => True
    end.

(** The source message is said to be newly created. *)
Definition is_created (options : UpdateOptions) : bool :=
  match options with
  | IsNewlyCreated b => b
  | _ => false
  end.

(** The requests of the last step of [updateEmbedsMessage]. *)
Definition suppress_step (options : UpdateOptions) : list event :=
  match options with
  | IsEmbedsSuppressed true => []
  | _ => suppressEmbeds sourceMessage (map url (extractFileIds (content sourceMessage)))
  end.

(** A source message said to be newly created has no embeds message
    yet. *)
Definition created_without_shadow (options : UpdateOptions) (w : World) : bool :=
  match old_in w with
  | Ret None => true
  | _ => negb (is_created options)
  end.

(** When the lookup finds no embeds message: the next message of the
    channel gets an id after the source id, and fewer than 10 messages
    follow the source message. *)
Definition room_for_shadow (w : World) : bool :=
  match old_in w with
  | Ret None =>
      bool_decide (snowflake_value (id sourceMessage)
                   < snowflake_value (fresh_message (channel w)).1)
      && (length (filter (fun m => (snowflake_value (id sourceMessage)
                                    < snowflake_value (id m))%Z) (channel w)) <? 10)%nat
  | _ => true
  end.

End Source.

End Vocabulary.


(** * The vocabulary of the further properties *)

Section FurtherVocabulary.
Context `{Platform}.

(** A sequence of code points without its leading U+FEFF, if any. *)
Definition without_bom (cps : list Z) : list Z :=
  match cps with
  | c :: cps' => if c =? 0xFEFF then cps' else cps
  | [] => []
  end.

(** The callback of the second [map] of [decode]. *)
Definition nibble_of (codepoint : Z) : outcome Z :=
  let index := arrayIndexOf invisibleChars codepoint in
  if index =? -1 then Throw (InvalidInvisibleCharacter codepoint) else Ret index.

(** [r] has no way to read the code unit [c]. *)
Fixpoint never_reads (r : regex) (c : Z) : Prop :=
  match r with
  | Chr x => x <> c
  | Class p | Repeat _ p => p c = false
  | Seq r1 r2 | Alt r1 r2 => never_reads r1 c /\ never_reads r2 c
  | Opt r | Capture r => never_reads r c
  end.

(** A regular expression without a capture group. *)
Fixpoint no_capture (r : regex) : Prop :=
  match r with
  | Chr _ | Class _ | Repeat _ _ => True
  | Seq r1 r2 | Alt r1 r2 => no_capture r1 /\ no_capture r2
  | Opt r => no_capture r
  | Capture _ => False
  end.

(** The length of the longest prefix of [s] in the class [p]. *)
Fixpoint run_length (p : Z -> bool) (s : jsstring) : nat :=
  match s with
  | c :: s' => if p c then S (run_length p s') else O
  | [] => O
  end.

(** The part of [fileIdRegex] before the capture group, and the part
    after it. *)
Definition beforeId : regex :=
  Seq (Str (lit "http")) (Seq (Opt (Chr (chr "s"))) (Seq (Str (lit "://"))
    (Seq (Alt (Str (lit "drive")) (Str (lit "docs"))) (Seq (Str (lit ".google.com/"))
      (Seq (Repeat 1 url_char) (Seq (Chr (chr "/"))
        (Seq (Alt (Chr (chr "d")) (Alt (Chr (chr "e")) (Str (lit "folders"))))
          (Chr (chr "/"))))))))).

Definition afterId : regex :=
  Opt (Seq (Chr (chr "/")) (Seq (Repeat 0 url_char) (Class url_last_char))).

(** The four requested fields are there, none of them empty. *)
Definition has_fields (file : File) : bool :=
  truthy (name file) && truthy (webViewLink file)
  && truthy (mimeType file) && truthy (modifiedTime file).

(** The old embeds message as a call with [options] sees it: none when
    the source message is said to be newly created, else what the lookup
    finds. *)
Definition old_seen (sourceMessage : Message) (options : UpdateOptions) (w : World)
  : outcome (option Message) :=
  if is_created options then Ret None else old_in sourceMessage w.

(** The requests of the lookup of a call with [options]: none when the
    source message is said to be newly created; else one history request
    when the first answer settles the lookup, and three of them, one
    second apart, when no embeds message is found. *)
Definition lookup_step (sourceMessage : Message) (options : UpdateOptions) (w : World)
  : list event :=
  if is_created options then []
  else match old_in sourceMessage w with
       | Ret None => lookup_requests (id sourceMessage) 2
       | _ => lookup_requests (id sourceMessage) 0
       end.

(** The request that brings the embeds message up to date. *)
Definition write_step (old : option Message) (new : option MessagePayload) : list event :=
  match old, new with
  | None, None => []
  | None, Some new => [EvSend new]
  | Some old, None => [EvDelete (id old)]
  | Some old, Some new =>
      if embedsChanged (embeds old) (payload_embeds new) then [EvEdit (id old) new] else []
  end.

(** The requests that a call awaits once the lookup and the building
    have succeeded: none when there is neither an old embeds message nor
    new embeds; else the request that brings the embeds message up to
    date, when one is needed, and then the change of the suppression
    flag, when one is needed. *)
Definition awaited_requests (sourceMessage : Message) (options : UpdateOptions)
    (old : option Message) (new : option MessagePayload) : list event :=
  match old, new with
  | None, None => []
  | _, _ => write_step old new ++ suppress_step sourceMessage options
  end.

Definition is_delete (ev : event) : bool :=
  match ev with EvDelete _ => true | _ => false end.
Definition is_suppress (ev : event) : bool :=
  match ev with EvSuppressEmbeds _ _ => true | _ => false end.
Definition is_write (ev : event) : bool := is_send ev || is_edit ev || is_delete ev.

(** [target] is the id of a message of the bot in the channel that hides
    the id of the source message and comes after it. *)
Definition own_shadow (sourceMessage : Message) (w : World) (target : jsstring) : Prop :=
  exists m, m ∈ channel w /\ id m = target /\ authorId m = botUserId w
    /\ hides_source_id (id sourceMessage) m = Ret true
    /\ snowflake_value (id sourceMessage) < snowflake_value (id m).

(** What a request of a call on [sourceMessage] in [w] may be. *)
Definition allowed (sourceMessage : Message) (w : World) (ev : event) : Prop :=
  match ev with
  | EvFetch after limit => after = id sourceMessage /\ limit = 10%nat
  | EvSleep ms => ms = 1000
  | EvSend payload =>
      payload_embeds payload <> [] /\ payload_flags payload = SuppressNotifications
  | EvEdit target payload =>
      own_shadow sourceMessage w target
      /\ payload_embeds payload <> [] /\ payload_flags payload = SuppressNotifications
  | EvDelete target => own_shadow sourceMessage w target
  | EvSuppressEmbeds target _ => target = id sourceMessage
  end.

(** The message is not the bot's own, as far as its author is known, and
    comes from the configured guild. *)
Definition addressed (env : Env) (w : World) (message : Received) : Prop :=
  author message <> Some (botUserId w)
  /\ exists guild, guildId message = Some guild
                   /\ env !! "DISCORD_GUILD_ID"%string = Some guild.

Definition is_log (a : action) : bool :=
  match a with Log _ => true | _ => false end.

(** The requests of the engine among the actions of a listener. *)
Definition requests (acts : list action) : list event :=
  omap (fun a => match a with Do ev => Some ev | _ => None end) acts.

(** The interaction is the command [Update Embeds], used on a message in
    the configured guild. *)
Definition asks_for_update (env : Env) (interaction : Interaction) : Prop :=
  command interaction = Some MessageCommand
  /\ commandName interaction = lit "Update Embeds"
  /\ exists guild, interaction_guildId interaction = Some guild
                   /\ env !! "DISCORD_GUILD_ID"%string = Some guild.



End FurtherVocabulary.

(** * Properties *)

(** ** Generic facts *)

Lemma mapM_Ret {A B} (f : A -> outcome B) (l : list A) (bs : list B) :
  mapM f l = Ret bs <-> Forall2 (fun a b => f a = Ret b) l bs.
Proof.
  revert bs. induction l as [|a l IH]; intros bs; simpl.
  - split.
    + intros [= <-]. constructor.
    + intros Hf. inversion Hf. reflexivity.
  - destruct (f a) as [b|e] eqn:Hfa; simpl.
    + destruct (mapM f l) as [bs'|e] eqn:Hm; simpl.
      * split.
        -- intros [= <-]. constructor; [assumption|]. by apply IH.
        -- intros Hf. inversion Hf as [|? b' ? bs'' Hb Hrest]; subst.
           rewrite Hfa in Hb. injection Hb as <-.
           apply IH in Hrest. by injection Hrest as <-.
      * split; [discriminate|].
        intros Hf. inversion Hf as [|? b' ? bs'' Hb Hrest]; subst.
        apply IH in Hrest. discriminate.
    + split; [discriminate|].
      intros Hf. inversion Hf as [|? b' ? bs'' Hb Hrest]; subst. congruence.
Qed.

Lemma mapM_Throw {A B} (f : A -> outcome B) (l : list A) :
  Exists (fun a => exists e, f a = Throw e) l -> exists e, mapM f l = Throw e.
Proof.
  induction 1 as [a l [e He]|a l _ [e IH]]; simpl.
  - rewrite He. by exists e.
  - destruct (f a) as [b|e']; simpl; [rewrite IH; by exists e|by exists e'].
Qed.

Lemma mapM_total {A B} (f : A -> outcome B) (l : list A) :
  Forall (fun a => exists b, f a = Ret b) l -> exists bs, mapM f l = Ret bs.
Proof.
  induction 1 as [|a l [b Hb] _ [bs IH]]; simpl.
  - by exists [].
  - rewrite Hb, IH. by exists (b :: bs).
Qed.

(** ** The correlation codec *)

Section Codec.

Ltac arith := Z.div_mod_to_equations; lia.

Lemma invisibleChars_nibble (n : Z) : is_nibble n ->
  invisibleChars !!! Z.to_nat n = 0x2060 + n
  /\ arrayIndexOf invisibleChars (0x2060 + n) = n.
Proof.
  unfold is_nibble. intros Hn.
  remember (Z.to_nat n) as k eqn:Hk.
  assert (n = Z.of_nat k) as -> by lia.
  assert (Hlt : (k < 16)%nat) by lia. clear Hk Hn.
  do 16 (destruct k as [|k]; [by vm_compute|]). lia.
Qed.

Lemma arrayIndexOf_reserved (u : Z) :
  arrayIndexOf invisibleChars u <> -1 <-> reserved u = true.
Proof.
  unfold reserved. rewrite andb_true_iff, Z.leb_le, Z.leb_le.
  split.
  - intros Hne.
    destruct (decide (0x2060 <= u <= 0x206F)) as [|Hout]; [done|].
    destruct Hne. unfold arrayIndexOf.
    let l := eval vm_compute in invisibleChars in change invisibleChars with l.
    cbn [arrayIndexOf_from].
    repeat match goal with
           | |- context [?a =? u] => destruct (Z.eqb_spec a u); [lia|]
           end.
    done.
  - intros Hu. assert (Hn : is_nibble (u - 0x2060)) by (unfold is_nibble; lia).
    destruct (invisibleChars_nibble _ Hn) as [_ Hi].
    replace (0x2060 + (u - 0x2060)) with u in Hi by lia.
    rewrite Hi. unfold is_nibble in Hn. lia.
Qed.

Lemma nibbles_of_byte (b : Z) : is_byte b ->
  is_nibble (b ≫ 4) /\ is_nibble (Z.land b 0xf)
  /\ (Z.lor ((b ≫ 4) ≪ 4) (Z.land b 0xf)) `mod` 256 = b.
Proof.
  unfold is_byte, is_nibble. intros Hb.
  rewrite Z.shiftr_div_pow2, Z.shiftl_mul_pow2 by lia.
  change 0xf with (Z.ones 4). rewrite Z.land_ones by lia.
  change (2 ^ 4) with 16.
  assert (Hlor : Z.lor (b / 16 * 16) (b `mod` 16) = b / 16 * 16 + b `mod` 16).
  { rewrite <- Z.lxor_lor.
    - symmetry. apply Z.add_nocarry_lxor.
      apply Z.bits_inj'. intros i Hi. rewrite Z.land_spec, Z.bits_0.
      change 16 with (2 ^ 4). destruct (Z.lt_ge_cases i 4).
      + by rewrite Z.mul_pow2_bits_low by lia.
      + rewrite Z.mod_pow2_bits_high by lia. apply andb_false_r.
    - apply Z.bits_inj'. intros i Hi. rewrite Z.land_spec, Z.bits_0.
      change 16 with (2 ^ 4). destruct (Z.lt_ge_cases i 4).
      + by rewrite Z.mul_pow2_bits_low by lia.
      + rewrite Z.mod_pow2_bits_high by lia. apply andb_false_r. }
  rewrite Hlor. repeat split; arith.
Qed.

Lemma nibbles_of_app (l1 l2 : list Z) :
  nibbles_of (l1 ++ l2) = nibbles_of l1 ++ nibbles_of l2.
Proof. unfold nibbles_of. by rewrite map_app, concat_app. Qed.

Lemma length_nibbles_of (l : list Z) : length (nibbles_of l) = (2 * length l)%nat.
Proof. unfold nibbles_of. induction l as [|b l IH]; simpl; [done|]. rewrite IH. lia. Qed.

Lemma decode_loop_inv (rest : list Z) :
  forall (done : list Z) (fuel : nat),
    Forall is_byte rest ->
    (length rest <= fuel)%nat ->
    decode_loop fuel (nibbles_of (done ++ rest)) (2 * Z.of_nat (length done))
      (done ++ replicate (length rest) 0)
    = done ++ rest.
Proof.
  induction rest as [|b rest IH]; intros done fuel Hbytes Hfuel.
  - destruct fuel as [|fuel]; simpl; [done|].
    rewrite length_nibbles_of, !app_nil_r.
    destruct (Z.ltb_spec (2 * Z.of_nat (length done)) (Z.of_nat (2 * length done) - 1));
      [lia|done].
  - destruct fuel as [|fuel]; [simpl in Hfuel; lia|].
    apply Forall_cons in Hbytes as [Hb Hbytes].
    destruct (nibbles_of_byte b Hb) as (_ & _ & Hval).
    cbn [decode_loop].
    rewrite length_nibbles_of, length_app. cbn [length].
    destruct (Z.ltb_spec (2 * Z.of_nat (length done))
                (Z.of_nat (2 * (length done + S (length rest))) - 1)); [|lia].
    assert (Hhi : nibbles_of (done ++ b :: rest)
                    !!! Z.to_nat (2 * Z.of_nat (length done)) = b ≫ 4).
    { rewrite nibbles_of_app. apply list_lookup_total_middle.
      rewrite length_nibbles_of. lia. }
    assert (Hlo : nibbles_of (done ++ b :: rest)
                    !!! Z.to_nat (2 * Z.of_nat (length done) + 1) = Z.land b 0xf).
    { rewrite nibbles_of_app.
      change (nibbles_of (b :: rest)) with ([b ≫ 4] ++ Z.land b 0xf :: nibbles_of rest).
      rewrite app_assoc. apply list_lookup_total_middle.
      rewrite length_app, length_nibbles_of. simpl. lia. }
    rewrite Hhi, Hlo, Hval.
    replace (Z.to_nat (2 * Z.of_nat (length done) / 2)) with (length done + 0)%nat
      by (rewrite Z.mul_comm, Z.div_mul by lia; lia).
    cbn [replicate length].
    rewrite insert_app_r. cbn [insert list_insert].
    specialize (IH (done ++ [b]) fuel Hbytes).
    rewrite <- !app_assoc, length_app in IH. cbn [app length] in IH.
    replace (2 * Z.of_nat (length done) + 2) with (2 * Z.of_nat (length done + 1)) by lia.
    apply IH. simpl in Hfuel. lia.
Qed.

Lemma decode_loop_bytes (bytes : list Z) :
  Forall is_byte bytes ->
  decode_loop (length (nibbles_of bytes)) (nibbles_of bytes) 0
    (replicate (length (nibbles_of bytes) / 2) 0) = bytes.
Proof.
  intros Hb. rewrite length_nibbles_of.
  replace (2 * length bytes / 2)%nat with (length bytes)
    by (rewrite Nat.mul_comm, Nat.div_mul; lia).
  apply (decode_loop_inv bytes [] _ Hb). lia.
Qed.

Lemma codePoints_bmp (s : jsstring) :
  Forall (fun u => is_high_surrogate u = false) s -> codePoints s = s.
Proof.
  induction 1 as [|u s Hu Hs IH]; [done|].
  cbn [codePoints]. rewrite Hu. cbn [andb]. destruct s; [done|]. by rewrite IH.
Qed.

Lemma fromCodePoint_nibbles (ns : list Z) :
  Forall is_nibble ns ->
  fromCodePoint (map (fun i => invisibleChars !!! Z.to_nat i) ns) = write_nibbles ns.
Proof.
  unfold fromCodePoint, write_nibbles.
  induction 1 as [|n ns Hn _ IH]; [done|]. cbn [map concat]. rewrite IH.
  destruct (invisibleChars_nibble n Hn) as [-> _].
  unfold codeUnits. unfold is_nibble in Hn.
  destruct (Z.leb_spec (0x2060 + n) 0xFFFF); [done|lia].
Qed.

Lemma read_nibbles (ns : list Z) :
  Forall is_nibble ns ->
  mapM (fun codepoint =>
          let index := arrayIndexOf invisibleChars codepoint in
          if index =? -1 then Throw (InvalidInvisibleCharacter codepoint)
          else Ret index)
       (codePoints (write_nibbles ns)) = Ret ns.
Proof.
  intros Hns. rewrite codePoints_bmp.
  - apply mapM_Ret. unfold write_nibbles.
    induction Hns as [|n ns Hn _ IH]; constructor; [|done].
    destruct (invisibleChars_nibble n Hn) as [_ ->]. simpl.
    unfold is_nibble in Hn. destruct (Z.eqb_spec n (-1)); [lia|done].
  - unfold write_nibbles. apply Forall_fmap.
    eapply Forall_impl; [exact Hns|]. intros n Hn. simpl.
    unfold is_high_surrogate, is_nibble in *.
    destruct (Z.leb_spec 0xD800 (0x2060 + n)); [lia|done].
Qed.

Lemma nibbles_of_bytes (bytes : list Z) :
  Forall is_byte bytes -> Forall is_nibble (nibbles_of bytes).
Proof.
  unfold nibbles_of. induction 1 as [|b bytes Hb _ IH]; [constructor|].
  destruct (nibbles_of_byte b Hb) as (Hhi & Hlo & _).
  cbn [map concat app]. constructor; [done|]. constructor; [done|exact IH].
Qed.

Lemma decode_write_nibbles (bytes : list Z) :
  Forall is_byte bytes ->
  decode (write_nibbles (nibbles_of bytes)) = Ret (Utf8.TextDecoder_decode bytes).
Proof.
  intros Hb. unfold decode.
  rewrite read_nibbles; [|by apply nibbles_of_bytes].
  simpl. by rewrite decode_loop_bytes.
Qed.

Lemma indexOf_from_skip (pre s : jsstring) (c i : Z) :
  c ∉ pre ->
  indexOf_from (pre ++ s) [c] i = indexOf_from s [c] (i + Z.of_nat (length pre)).
Proof.
  revert i. induction pre as [|u pre IH]; intros i Hc.
  - simpl. f_equal. lia.
  - apply not_elem_of_cons in Hc as [Hne Hc].
    cbn [app indexOf_from startsWith length].
    destruct (Z.eqb_spec u c); [congruence|]. cbn [andb].
    rewrite IH by done. f_equal. lia.
Qed.

Lemma indexOf_from_range (s : jsstring) (c i : Z) :
  indexOf_from s [c] i = -1 \/ i <= indexOf_from s [c] i.
Proof.
  revert i. induction s as [|u s IH]; intros i; [by left|].
  cbn [indexOf_from startsWith].
  destruct (u =? c); cbn [andb]; [right; lia|].
  destruct (IH (i + 1)) as [->|Hle]; [by left|right; lia].
Qed.

Lemma indexOf_from_absent (s : jsstring) (c i : Z) :
  c ∉ s -> indexOf_from s [c] i = -1.
Proof.
  intros Hc. rewrite <- (app_nil_r s), indexOf_from_skip by done. done.
Qed.

Lemma indexOf_from_here (s : jsstring) (c i : Z) :
  indexOf_from (c :: s) [c] i = i.
Proof. cbn [indexOf_from startsWith]. by rewrite Z.eqb_refl. Qed.

Lemma invisibleChars_elem (c : Z) : c ∈ invisibleChars <-> reserved c = true.
Proof.
  unfold invisibleChars, reserved.
  rewrite list_elem_of_fmap, andb_true_iff, !Z.leb_le. split.
  - intros (i & -> & Hi). apply elem_of_seq in Hi. lia.
  - intros Hc. exists (Z.to_nat (c - 0x2060)). split; [lia|].
    apply elem_of_seq. lia.
Qed.

Lemma fromCodePoint_reserved (c : Z) : c ∈ invisibleChars -> fromCodePoint [c] = [c].
Proof.
  intros Hc. apply invisibleChars_elem in Hc. unfold reserved in Hc.
  apply andb_true_iff in Hc as [_ Hc]. apply Z.leb_le in Hc.
  unfold fromCodePoint, codeUnits. simpl.
  destruct (Z.leb_spec c 0xFFFF); [done|lia].
Qed.

Lemma indices_elem (text : jsstring) (i : Z) :
  i ∈ indices text <-> i <> -1 /\ exists c, c ∈ invisibleChars /\ i = indexOf text [c].
Proof.
  unfold indices. rewrite list_elem_of_filter, list_elem_of_fmap.
  apply and_iff_compat_l. split.
  - intros (c & -> & Hc). exists c. by rewrite fromCodePoint_reserved.
  - intros (c & Hc & ->). exists c. by rewrite fromCodePoint_reserved.
Qed.

Lemma indices_none (text : jsstring) :
  (forall c, c ∈ invisibleChars -> c ∉ text) -> indices text = [].
Proof.
  intros Hnone. apply elem_of_nil_inv. intros i Hi.
  apply indices_elem in Hi as (Hne & c & Hc & ->).
  apply Hne. unfold indexOf. apply indexOf_from_absent. by apply Hnone.
Qed.

Lemma Math_min_least (l : list Z) (m : Z) :
  m ∈ l -> (forall x, x ∈ l -> m <= x) -> Math_min l = Num m.
Proof.
  destruct l as [|z l]; [by intros ?%elem_of_nil|].
  intros Hm Hle. unfold Math_min. f_equal.
  revert z Hm Hle. induction l as [|y l IH]; intros z Hm Hle; simpl.
  - apply list_elem_of_singleton in Hm. done.
  - assert (Hy : m <= y) by (apply Hle; right; left).
    assert (Hz : m <= z) by (apply Hle; left).
    destruct (decide (m = y)) as [<-|Hne].
    + assert (m <= foldr Z.min z l); [|lia].
      clear -Hle Hz. induction l as [|x l IH]; simpl; [done|].
      assert (m <= x) by (apply Hle; right; right; left).
      assert (m <= foldr Z.min z l); [|lia].
      apply IH. intros x' Hx'. apply Hle.
      apply elem_of_cons in Hx' as [->|Hx']; [left|].
      apply elem_of_cons in Hx' as [->|Hx']; [right; left|by do 3 right].
    + rewrite (IH z).
      * lia.
      * apply elem_of_cons in Hm as [->|Hm]; [left|].
        apply elem_of_cons in Hm as [->|Hm]; [done|by right].
      * intros x Hx. apply Hle.
        apply elem_of_cons in Hx as [->|Hx]; [left|by do 2 right].
Qed.

Lemma first_invisible (visible rest : jsstring) (c : Z) :
  (forall c, c ∈ invisibleChars -> c ∉ visible) ->
  c ∈ invisibleChars ->
  Math_min (indices (visible ++ c :: rest)) = Num (Z.of_nat (length visible)).
Proof.
  intros Hvis Hc. apply Math_min_least.
  - apply indices_elem. split; [lia|]. exists c. split; [done|].
    unfold indexOf. rewrite indexOf_from_skip by by apply Hvis.
    by rewrite indexOf_from_here.
  - intros i Hi. apply indices_elem in Hi as (Hne & c' & Hc' & ->).
    unfold indexOf in *. rewrite indexOf_from_skip in * by by apply Hvis.
    destruct (indexOf_from_range (c :: rest) c' (0 + Z.of_nat (length visible)));
      [done|lia].
Qed.

Lemma decodeAppendedInvisible_plain (text : jsstring) :
  (forall c, c ∈ invisibleChars -> c ∉ text) -> decodeAppendedInvisible text = Ret [].
Proof.
  intros Hnone. unfold decodeAppendedInvisible.
  fold (indices text). by rewrite indices_none.
Qed.

Lemma decodeAppendedInvisible_suffix (visible : jsstring) (ns : list Z) :
  (forall c, c ∈ invisibleChars -> c ∉ visible) ->
  Forall is_nibble ns ->
  decodeAppendedInvisible (visible ++ write_nibbles ns) = decode (write_nibbles ns).
Proof.
  intros Hvis Hns. destruct ns as [|n ns].
  - simpl. rewrite app_nil_r. by rewrite decodeAppendedInvisible_plain.
  - unfold decodeAppendedInvisible. fold (indices (visible ++ write_nibbles (n :: ns))).
    cbn [write_nibbles map]. rewrite first_invisible; [|done|].
    + cbn [substring]. by rewrite Nat2Z.id, drop_app_length.
    + apply Forall_cons in Hns as [Hn _]. apply invisibleChars_elem.
      unfold reserved, is_nibble in *.
      apply andb_true_iff. rewrite !Z.leb_le. lia.
Qed.

Lemma land_low (x y n : Z) : 0 <= n -> 0 <= y < 2 ^ n -> Z.land (x * 2 ^ n) y = 0.
Proof.
  intros Hn Hy. apply Z.bits_inj'. intros i Hi.
  rewrite Z.land_spec, Z.bits_0.
  destruct (Z.lt_ge_cases i n) as [Hlt|Hge].
  - rewrite Z.mul_pow2_bits_low by lia. done.
  - assert (Z.testbit y i = false) as ->.
    { destruct (Z.eq_dec y 0) as [->|Hy0]; [apply Z.bits_0|].
      apply Z.bits_above_log2; [lia|].
      apply Z.log2_lt_pow2; [lia|].
      eapply Z.lt_le_trans; [apply Hy|]. apply Z.pow_le_mono_r; lia. }
    apply andb_false_r.
Qed.

Lemma lor_low (x y n : Z) : 0 <= n -> 0 <= y < 2 ^ n -> Z.lor (x * 2 ^ n) y = x * 2 ^ n + y.
Proof.
  intros Hn Hy. pose proof (land_low x y n Hn Hy) as Hl.
  rewrite <- Z.lxor_lor by done. symmetry. by apply Z.add_nocarry_lxor.
Qed.

Lemma shiftr_div (a n : Z) : 0 <= n -> a ≫ n = a / 2 ^ n.
Proof. intros. by apply Z.shiftr_div_pow2. Qed.

Lemma land_mod (a : Z) (n : Z) : 0 <= n -> Z.land a (Z.ones n) = a mod 2 ^ n.
Proof. intros. by apply Z.land_ones. Qed.

Lemma cont_byte (x : Z) : Z.lor 0x80 (Z.land x 0x3F) = 128 + x mod 64.
Proof.
  change 0x3F with (Z.ones 6). rewrite Z.land_ones by lia.
  change 0x80 with (2 * 2 ^ 6). rewrite lor_low; [done|lia|].
  change (2^6) with 64. arith.
Qed.

Lemma cont_value (cp b : Z) : Z.lor (cp ≪ 6) (Z.land b 0x3F) = cp * 64 + b mod 64.
Proof.
  change 0x3F with (Z.ones 6). rewrite Z.land_ones by lia.
  rewrite Z.shiftl_mul_pow2 by lia. rewrite lor_low; [done|lia|].
  change (2^6) with 64. arith.
Qed.

Lemma lead_mask (b : Z) (n : Z) : 0 <= n -> Z.land b (Z.ones n) = b mod 2 ^ n.
Proof. intros. by apply Z.land_ones. Qed.

Ltac split_tests :=
  repeat match goal with
    | |- context [?a <=? ?b] => destruct (Z.leb_spec a b); try arith
    | |- context [?a <? ?b] => destruct (Z.ltb_spec a b); try arith
    | |- context [?a =? ?b] => destruct (Z.eqb_spec a b); try arith
    end.

Ltac decoder_step :=
  cbn [app Utf8.run]; unfold Utf8.step at 1; unfold Utf8.lead;
  cbn [Utf8.bytes_needed Utf8.lower_boundary Utf8.upper_boundary Utf8.code_point Utf8.init];
  split_tests; cbn [andb orb app];
  cbn [Utf8.bytes_needed Utf8.lower_boundary Utf8.upper_boundary Utf8.code_point Utf8.init].

Lemma run_encode_cp c rest : scalar c ->
  Utf8.run Utf8.init (Utf8.encode_cp c ++ rest) = c :: Utf8.run Utf8.init rest.
Proof.
  intros [Hc Hs]. unfold Utf8.encode_cp.
  rewrite !cont_byte, !Z.shiftr_div_pow2 by lia.
  change (2^6) with 64. change (2^12) with 4096. change (2^18) with 262144.
  destruct (Z.leb_spec c 0x7F); [|destruct (Z.leb_spec c 0x7FF); [|destruct (Z.leb_spec c 0xFFFF)]].
  - decoder_step. done.
  - decoder_step. decoder_step. rewrite cont_value.
    change 31 with (Z.ones 5). rewrite Z.land_ones by lia. change (2^5) with 32.
    f_equal. arith.
  - decoder_step; decoder_step; decoder_step; rewrite !cont_value;
    change 15 with (Z.ones 4); rewrite Z.land_ones by lia; change (2^4) with 16;
    f_equal; arith.
  - decoder_step; decoder_step; decoder_step; decoder_step; rewrite !cont_value;
    change 7 with (Z.ones 3); rewrite Z.land_ones by lia; change (2^3) with 8;
    f_equal; arith.
Qed.

Lemma encode_cp_bytes (c : Z) : scalar c -> Forall is_byte (Utf8.encode_cp c).
Proof.
  intros [Hc Hs]. unfold Utf8.encode_cp, is_byte.
  rewrite !cont_byte, !Z.shiftr_div_pow2 by lia.
  change (2^6) with 64. change (2^12) with 4096. change (2^18) with 262144.
  destruct (Z.leb_spec c 0x7F); [|destruct (Z.leb_spec c 0x7FF); [|destruct (Z.leb_spec c 0xFFFF)]];
    repeat constructor; arith.
Qed.

Lemma run_encode (cps : list Z) :
  Forall scalar cps -> Utf8.run Utf8.init (concat (map Utf8.encode_cp cps)) = cps.
Proof.
  induction 1 as [|c cps Hc _ IH]; [done|].
  cbn [map concat]. by rewrite run_encode_cp, IH.
Qed.

Lemma encode_bytes (cps : list Z) :
  Forall scalar cps -> Forall is_byte (concat (map Utf8.encode_cp cps)).
Proof.
  induction 1 as [|c cps Hc _ IH]; [constructor|].
  cbn [map concat]. apply Forall_app. split; [by apply encode_cp_bytes|done].
Qed.

Lemma codePoints_cons2 (u l : Z) (x : jsstring) :
  codePoints (u :: l :: x) =
    if is_high_surrogate u && is_low_surrogate l
    then (0x10000 + (u - 0xD800) * 0x400 + (l - 0xDC00)) :: codePoints x
    else u :: codePoints (l :: x).
Proof. reflexivity. Qed.

Lemma well_formed_cons2 (u l : Z) (x : jsstring) :
  well_formed (u :: l :: x) =
    if is_high_surrogate u && is_low_surrogate l then well_formed x
    else negb (is_surrogate u) && well_formed (l :: x).
Proof. reflexivity. Qed.

Lemma codePoints_well_formed (n : nat) (x : jsstring) :
  (length x <= n)%nat -> is_string x = true -> well_formed x = true ->
  Forall scalar (codePoints x)
  /\ fromCodePoint (codePoints x) = x
  /\ (head (codePoints x) = Some 0xFEFF -> head x = Some 0xFEFF).
Proof.
  revert x. induction n as [|n IH]; intros x Hlen Hstr Hwf.
  { destruct x; [by repeat split; try constructor|simpl in Hlen; lia]. }
  destruct x as [|u x]; [by repeat split; try constructor|].
  cbn [is_string forallb] in Hstr. apply andb_true_iff in Hstr as [Hu Hstr].
  apply andb_true_iff in Hu as [Hu0 Hu1]. apply Z.leb_le in Hu0, Hu1.
  destruct x as [|l x].
  { cbn [well_formed] in Hwf. apply negb_true_iff in Hwf.
    unfold is_surrogate in Hwf. apply andb_false_iff in Hwf.
    rewrite !Z.leb_gt in Hwf.
    cbn [codePoints]. unfold fromCodePoint, codeUnits. cbn [map concat app].
    destruct (Z.leb_spec u 0xFFFF); [|lia].
    split; [|done]. repeat constructor; lia. }
  cbn [forallb] in Hstr. apply andb_true_iff in Hstr as [Hl Hstr].
  apply andb_true_iff in Hl as [Hl0 Hl1]. apply Z.leb_le in Hl0, Hl1.
  rewrite well_formed_cons2 in Hwf. rewrite codePoints_cons2.
  destruct (is_high_surrogate u && is_low_surrogate l) eqn:Hpair.
  - apply andb_true_iff in Hpair as [Hh Hlo].
    unfold is_high_surrogate, is_low_surrogate in Hh, Hlo.
    apply andb_true_iff in Hh as [Hh0 Hh1], Hlo as [Hlo0 Hlo1].
    apply Z.leb_le in Hh0, Hh1, Hlo0, Hlo1.
    destruct (IH x) as (Hs & Hx & _); [simpl in Hlen; lia|done|done|].
    split; [|split].
    + constructor; [|done]. split; lia.
    + unfold fromCodePoint in *. cbn [map concat]. rewrite Hx.
      unfold codeUnits.
      destruct (Z.leb_spec (0x10000 + (u - 0xD800) * 0x400 + (l - 0xDC00)) 0xFFFF); [lia|].
      cbn [app]. f_equal; [arith|]. f_equal. arith.
    + cbn [head]. intros [= Heq]. lia.
  - apply andb_true_iff in Hwf as [Hns Hwf].
    apply negb_true_iff in Hns. unfold is_surrogate in Hns.
    apply andb_false_iff in Hns. rewrite !Z.leb_gt in Hns.
    destruct (IH (l :: x)) as (Hs & Hx & _);
      [simpl in *; lia|cbn [is_string forallb]; by rewrite Hstr, !andb_true_r, andb_true_iff, !Z.leb_le|done|].
    split; [|split].
    + constructor; [|done]. split; lia.
    + unfold fromCodePoint in *. cbn [map concat]. rewrite Hx.
      unfold codeUnits. by destruct (Z.leb_spec u 0xFFFF); [|lia].
    + done.
Qed.

Lemma toUSV_scalar (cps : list Z) :
  Forall scalar cps -> map (fun c => if is_surrogate c then 0xFFFD else c) cps = cps.
Proof.
  induction 1 as [|c cps [Hc Hs] _ IH]; [done|]. cbn [map]. rewrite IH.
  unfold is_surrogate.
  destruct (Z.leb_spec 0xD800 c), (Z.leb_spec c 0xDFFF); simpl; try done. lia.
Qed.

Lemma TextDecoder_TextEncoder (x : jsstring) :
  is_string x = true -> well_formed x = true -> head x <> Some 0xFEFF ->
  Forall is_byte (Utf8.TextEncoder_encode x)
  /\ Utf8.TextDecoder_decode (Utf8.TextEncoder_encode x) = x.
Proof.
  intros Hstr Hwf Hbom.
  destruct (codePoints_well_formed (length x) x) as (Hs & Hx & Hhead); [done..|].
  unfold Utf8.TextEncoder_encode, Utf8.toUSV. rewrite toUSV_scalar by done.
  split; [by apply encode_bytes|].
  unfold Utf8.TextDecoder_decode. rewrite run_encode by done.
  destruct (codePoints x) as [|c cps] eqn:Hcps; [done|].
  destruct (Z.eqb_spec c 0xFEFF) as [->|_]; [|done].
  destruct Hbom. by apply Hhead.
Qed.

Lemma encode_write_nibbles (x : jsstring) :
  Forall is_byte (Utf8.TextEncoder_encode x) ->
  encode x = write_nibbles (nibbles_of (Utf8.TextEncoder_encode x)).
Proof.
  intros Hb. unfold encode. fold (nibbles_of (Utf8.TextEncoder_encode x)).
  apply fromCodePoint_nibbles. by apply nibbles_of_bytes.
Qed.

End Codec.

Lemma decode_encode (x : jsstring) :
  is_string x = true -> well_formed x = true -> head x <> Some 0xFEFF ->
  Forall is_byte (Utf8.TextEncoder_encode x) /\ decode (encode x) = Ret x.
Proof.
  intros Hstr Hwf Hbom.
  destruct (TextDecoder_TextEncoder x Hstr Hwf Hbom) as [Hb Hx].
  split; [done|].
  rewrite encode_write_nibbles by done. rewrite decode_write_nibbles by done.
  by rewrite Hx.
Qed.

(** C1, as it holds: for every string [x] without an unpaired surrogate
    that does not begin with U+FEFF, and every visible text that contains
    none of the 16 reserved code points, decoding [appendInvisible(visible,
    x)] from the first reserved code point returns [x]; in particular
    [decode(encode(x)) = x]. *)
Theorem codec_roundtrip (visible x : jsstring) :
  (forall c, c ∈ invisibleChars -> c ∉ visible) ->
  is_string x = true -> well_formed x = true -> head x <> Some 0xFEFF ->
  decodeAppendedInvisible (appendInvisible visible x) = Ret x
  /\ decode (encode x) = Ret x.
Proof.
  intros Hvis Hstr Hwf Hbom.
  destruct (decode_encode x Hstr Hwf Hbom) as [Hbytes Hdecode].
  split; [|exact Hdecode].
  unfold appendInvisible.
  (* the payload is the run of nibbles of the UTF-8 form of [x] *)
  rewrite encode_write_nibbles by done.
  (* the visible text holds no reserved code point: the first one is the
     first character of the payload *)
  rewrite decodeAppendedInvisible_suffix; [|done|by apply nibbles_of_bytes].
  rewrite <- encode_write_nibbles by done.
  exact Hdecode.
Qed.

(** C1, as stated, fails: [TextEncoder] writes an unpaired surrogate as
    U+FFFD, so the string made of the lone surrogate U+D800 does not come
    back; a reserved code point in the visible text is taken for the start
    of the payload (here the file name ends in two U+2060 WORD JOINER and
    the id [1] comes back with U+0000 in front); and [TextDecoder] drops a
    leading U+FEFF as a byte order mark. *)
Lemma codec_roundtrip_fails :
  is_string [0xD800] = true
  /\ decode (encode [0xD800]) = Ret [0xFFFD]
  /\ decodeAppendedInvisible (appendInvisible (lit "a.txt") [0xD800]) = Ret [0xFFFD]
  /\ decodeAppendedInvisible (appendInvisible (lit "a" ++ [0x2060; 0x2060]) (lit "1"))
     = Ret (0 :: lit "1")
  /\ well_formed (0xFEFF :: lit "1") = true
  /\ decode (encode (0xFEFF :: lit "1")) = Ret (lit "1").
Proof. repeat split; by vm_compute. Qed.

Lemma not_reserved_lit_id : forall c, c ∈ invisibleChars -> c ∉ lit "report.pdf".
Proof.
  intros c Hc Hin. apply invisibleChars_elem in Hc. unfold reserved in Hc.
  apply andb_true_iff in Hc as [Hc _]. apply Z.leb_le in Hc.
  revert Hin. simpl. rewrite !elem_of_cons, elem_of_nil. lia.
Qed.

Lemma codec_roundtrip_witness :
  decodeAppendedInvisible (appendInvisible (lit "report.pdf") (lit "1234567890123456789"))
    = Ret (lit "1234567890123456789")
  /\ decode (encode (lit "1234567890123456789")) = Ret (lit "1234567890123456789").
Proof.
  apply (codec_roundtrip (lit "report.pdf") (lit "1234567890123456789")).
  - exact not_reserved_lit_id.
  - reflexivity.
  - reflexivity.
  - simpl. discriminate.
Defined.

(** C9: a text that contains none of the 16 reserved code points decodes
    to the empty string, without an error; hence a message whose first
    embed's title carries no payload is not taken for the embeds message
    of a source message (whose id is not empty), and the lookup does not
    fail on it. *)
Theorem plain_text_decodes_to_empty :
  (forall text : jsstring,
     (forall c, c ∈ invisibleChars -> c ∉ text) ->
     decodeAppendedInvisible text = Ret [])
  /\ (forall (sourceId : jsstring) (m : Message) (firstEmbed : APIEmbed) (title : jsstring),
        sourceId <> [] ->
        head (embeds m) = Some firstEmbed ->
        embed_title firstEmbed = Some title ->
        (forall c, c ∈ invisibleChars -> c ∉ title) ->
        hides_source_id sourceId m = Ret false).
Proof.
  split; [exact decodeAppendedInvisible_plain|].
  intros sourceId m firstEmbed title Hid Hhead Htitle Hplain.
  unfold hides_source_id.
  destruct (embeds m) as [|e es]; [done|]. injection Hhead as ->.
  rewrite Htitle. destruct title as [|u title]; [done|].
  rewrite decodeAppendedInvisible_plain by done. simpl.
  f_equal. by apply bool_decide_eq_false.
Qed.

(** ** The native embed suppressor *)

Section Suppressor.
Context `{Platform}.

Lemma truthy_Some (o : option jsstring) :
  truthy o = true <-> exists u, o = Some u /\ u <> [].
Proof.
  destruct o as [[|c s]|]; simpl; split; try discriminate; try done.
  - intros (u & [= <-] & Hu). by destruct Hu.
  - intros _. by exists (c :: s).
  - by intros (u & ? & _).
Qed.

Lemma shouldSuppress_true (message : Message) (fileUrls : list jsstring) :
  shouldSuppress message fileUrls = true <->
  embeds message <> [] /\ Forall (preview_matches fileUrls) (embeds message).
Proof.
  unfold shouldSuppress. rewrite andb_true_iff, forallb_forall, length_map.
  rewrite Nat.ltb_lt, Forall_forall.
  assert (Hlen : (0 < length (embeds message))%nat <-> embeds message <> []).
  { destruct (embeds message); simpl; split; try lia; try congruence. }
  rewrite Hlen. apply and_iff_compat_l. split.
  - intros Hall e He.
    specialize (Hall (embed_url e)).
    rewrite <- list_elem_of_In in Hall.
    specialize (Hall (list_elem_of_fmap_2 embed_url _ _ He)).
    destruct (truthy (embed_url e)) eqn:Ht; [|discriminate].
    apply truthy_Some in Ht as (u & Hu & Hne).
    exists u. split; [assumption|]. split; [assumption|].
    rewrite Hu in Hall. simpl in Hall.
    apply existsb_exists in Hall as (f & Hf & Heq).
    exists f. split; [by apply list_elem_of_In|].
    by apply bool_decide_eq_true in Heq.
  - intros Hall o Ho.
    apply list_elem_of_In, list_elem_of_fmap in Ho as (e & -> & He).
    destruct (Hall e He) as (u & Hu & Hne & f & Hf & Heq).
    rewrite Hu. destruct u as [|c u]; [done|]. simpl.
    apply existsb_exists. exists f. split; [by apply list_elem_of_In|].
    by apply bool_decide_eq_true.
Qed.

Lemma flags_has_SuppressEmbeds (message : Message) :
  flags_has (flags message) SuppressEmbeds = suppression_flag message.
Proof.
  unfold flags_has, suppression_flag, SuppressEmbeds.
  assert (Hland : Z.land (flags message) (1 ≪ 2)
                  = if Z.testbit (flags message) 2 then 1 ≪ 2 else 0).
  { apply Z.bits_inj'. intros n Hn. rewrite Z.land_spec.
    change (1 ≪ 2) with (2 ^ 2). rewrite Z.pow2_bits_eqb by lia.
    destruct (Z.eqb_spec 2 n) as [<-|Hne].
    - rewrite andb_true_r. destruct (Z.testbit (flags message) 2); [|done].
      by rewrite Z.pow2_bits_eqb, Z.eqb_refl by lia.
    - rewrite andb_false_r. destruct (Z.testbit (flags message) 2).
      + rewrite Z.pow2_bits_eqb by lia. symmetry. by apply Z.eqb_neq.
      + by rewrite Z.bits_0.
  }
  rewrite Hland. by destruct (Z.testbit (flags message) 2).
Qed.

(** C8: [suppressEmbeds] decides to suppress exactly when the message has
    a native preview and every native preview has a URL whose normalized
    form (https forced, query, hash and explicit port removed) is the
    normalized form of an extracted file URL; one preview without a URL or
    without a match makes the decision [false].  It issues no request when
    the suppression flag of the message, bit 2 of its flags, already is
    what it has decided, and otherwise the one request that sets the flag
    of this message to the decision. *)
Theorem suppressor_decision (message : Message) (fileUrls : list jsstring) :
  (shouldSuppress message fileUrls = true <->
     embeds message <> [] /\ Forall (preview_matches fileUrls) (embeds message))
  /\ (forall e, e ∈ embeds message -> ~ preview_matches fileUrls e ->
        shouldSuppress message fileUrls = false)
  /\ (forall e, e ∈ embeds message -> embed_url e = None ->
        shouldSuppress message fileUrls = false)
  /\ match suppressEmbeds message fileUrls with
     | [] =>
         suppression_flag message = true <->
         embeds message <> [] /\ Forall (preview_matches fileUrls) (embeds message)
     | [EvSuppressEmbeds target suppress] =>
         target = id message
         /\ suppression_flag message = negb suppress
         /\ (suppress = true <->
             embeds message <> [] /\ Forall (preview_matches fileUrls) (embeds message))
     | _ => False
     end.
Proof.
  assert (Hno : forall e, e ∈ embeds message -> ~ preview_matches fileUrls e ->
                  shouldSuppress message fileUrls = false).
  { intros e He Hn. apply not_true_is_false. intros Ht.
    apply shouldSuppress_true in Ht as [_ Hall].
    rewrite Forall_forall in Hall. by apply Hn, Hall. }
  split; [apply shouldSuppress_true|].
  split; [exact Hno|].
  split.
  { intros e He Hnone. apply (Hno e He).
    intros (u & Hu & _). congruence. }
  unfold suppressEmbeds. rewrite flags_has_SuppressEmbeds.
  pose proof (shouldSuppress_true message fileUrls) as Hiff.
  destruct (suppression_flag message), (shouldSuppress message fileUrls);
    cbn [Bool.eqb negb].
  - done.
  - split; [done|]. split; [done|]. rewrite <- Hiff. done.
  - split; [done|]. split; [done|]. rewrite <- Hiff. done.
  - rewrite <- Hiff. done.
Qed.

End Suppressor.

(** ** The file metadata resolver *)

Section Resolver.
Context `{Platform}.

Lemma getFile_cases (drive : jsstring -> DriveResponse) (fileId : jsstring) :
  (is_fatal (drive fileId) = false /\ getFile drive fileId = Ret (resolved (drive fileId)))
  \/ (is_fatal (drive fileId) = true /\ exists e, getFile drive fileId = Throw e).
Proof.
  unfold getFile, is_fatal, is_notFound, resolved.
  destruct (drive fileId) as [data|e]; [by left|].
  destruct e as [| | |[] [[errors|]|]| | |]; simpl; eauto.
  destruct (existsb _ errors); simpl; eauto.
Qed.

Lemma resolveFiles_ok (drive : jsstring -> DriveResponse) (fileIds : list jsstring) :
  Forall (fun fileId => is_fatal (drive fileId) = false) fileIds ->
  resolveFiles drive fileIds = Ret (omap (fun fileId => resolved (drive fileId)) fileIds).
Proof.
  intros Hall. unfold resolveFiles.
  assert (Hm : mapM (getFile drive) fileIds
               = Ret (map (fun fileId => resolved (drive fileId)) fileIds)).
  { apply mapM_Ret. induction Hall as [|fileId l Hok _ IH]; simpl; constructor; [|done].
    destruct (getFile_cases drive fileId) as [[_ ->]|[Hf _]]; [done|congruence]. }
  rewrite Hm. simpl. f_equal.
  clear. induction fileIds as [|fileId l IH]; [done|].
  cbn. destruct (resolved (drive fileId)); cbn; by rewrite <- IH.
Qed.

Lemma resolveFiles_fatal (drive : jsstring -> DriveResponse) (fileIds : list jsstring) :
  Exists (fun fileId => is_fatal (drive fileId) = true) fileIds ->
  exists e, resolveFiles drive fileIds = Throw e.
Proof.
  intros Hex. unfold resolveFiles.
  destruct (mapM_Throw (getFile drive) fileIds) as [e He].
  - eapply Exists_impl; [exact Hex|]. intros fileId Hf. simpl.
    destruct (getFile_cases drive fileId) as [[Hn _]|[_ He]]; [congruence|done].
  - exists e. by rewrite He.
Qed.

(** C7: when no lookup fails with an error other than not-found, the
    resolver returns the files of the ids that resolved, in the order of
    the input (a sublist of the answers, never longer than the input); a
    lookup that fails with any other error makes the resolution, and with
    it [createEmbedsMessage], fail as a whole. *)
Theorem resolver_keeps_order (drive : jsstring -> DriveResponse)
    (fileIds : list jsstring) (sourceId : jsstring) :
  (Forall (fun fileId => is_fatal (drive fileId) = false) fileIds ->
     let files := omap (fun fileId => resolved (drive fileId)) fileIds in
     resolveFiles drive fileIds = Ret files
     /\ Some <$> files `sublist_of` (fun fileId => resolved (drive fileId)) <$> fileIds
     /\ (length files <= length fileIds)%nat
     /\ (forall fileId, is_notFound (drive fileId) = true ->
           getFile drive fileId = Ret None /\ resolved (drive fileId) = None))
  /\ (Exists (fun fileId => is_fatal (drive fileId) = true) fileIds ->
        exists e, resolveFiles drive fileIds = Throw e
                  /\ createEmbedsMessage drive fileIds sourceId = Throw e).
Proof.
  split.
  - intros Hall files. split; [by apply resolveFiles_ok|].
    split; [|split].
    + subst files. clear. induction fileIds as [|fileId l IH]; [done|].
      cbn. destruct (resolved (drive fileId)) as [file|]; cbn.
      * by apply sublist_skip.
      * by apply sublist_cons.
    + subst files. clear. induction fileIds as [|fileId l IH]; [done|].
      cbn. destruct (resolved (drive fileId)); cbn; lia.
    + intros fileId Hnf.
      destruct (getFile_cases drive fileId) as [[_ ->]|[Hf _]].
      * destruct (drive fileId) as [data|e]; [discriminate|done].
      * unfold is_fatal in Hf. destruct (drive fileId); [done|].
        rewrite Hnf in Hf. discriminate.
  - intros Hex. destruct (resolveFiles_fatal drive fileIds Hex) as [e He].
    exists e. split; [done|]. unfold createEmbedsMessage. by rewrite He.
Qed.

End Resolver.

(** ** The embed set builder *)

Section Builder.
Context `{Platform}.

Lemma fileType_color (mimeType : option jsstring) :
  0 <= color (default fileTypes_others
                (find (fun t => bool_decide (mime t = mimeType)) fileTypes)) <= 0xFFFFFF.
Proof.
  unfold fileTypes. cbn [find mime].
  repeat (destruct (bool_decide _); [cbn; lia|]). cbn. lia.
Qed.

Lemma buildEmbed_Ret (sourceId : jsstring) (i : nat) (file : File) (e : APIEmbed) :
  buildEmbed sourceId i file = Ret e ->
  complete file = true /\ presentable sourceId i file
  /\ embed_title e = Some (title_at sourceId i (default [] (name file))).
Proof.
  unfold buildEmbed, complete, presentable.
  destruct (truthy (name file) && truthy (webViewLink file)
            && truthy (mimeType file) && truthy (modifiedTime file)); [|done].
  unfold setTitle.
  set (title := if (0 <? i)%nat then _ else _).
  assert (Htitle : title = title_at sourceId i (default [] (name file))).
  { subst title. by destruct i. }
  destruct ((1 <=? length title)%nat && (length title <=? 256)%nat) eqn:Hlen; [|done].
  apply andb_true_iff in Hlen as [_ Hlen]. apply Nat.leb_le in Hlen.
  cbn [obind]. unfold setURL.
  destruct (URL_protocol _) as [protocol|] eqn:Hurl; [|done].
  destruct (bool_decide (protocol ∈ _)) eqn:Hp; [|done].
  apply bool_decide_eq_true in Hp. cbn [obind]. unfold setColor.
  destruct ((0 <=? _) && (_ <=? 0xFFFFFF)); [|done]. cbn [obind]. unfold setTimestamp.
  destruct (Date_parse _) as [instant|] eqn:Hdate; [|done]. intros [= <-].
  split; [by apply bool_decide_eq_true|]. rewrite <- Htitle.
  split; [split; [done|by exists protocol]|].
  unfold embed_title. by rewrite !lookup_insert_ne, lookup_insert_eq by done.
Qed.

Lemma buildEmbed_title (sourceId : jsstring) (i : nat) (file : File) :
  complete file = true -> presentable sourceId i file ->
  exists e, buildEmbed sourceId i file = Ret e
    /\ embed_title e = Some (title_at sourceId i (default [] (name file))).
Proof.
  unfold complete, buildEmbed, presentable.
  intros Hc (Hlen & protocol & Hurl & Hp).
  apply andb_true_iff in Hc as [Hfields Hdate]. rewrite Hfields.
  apply bool_decide_eq_true in Hdate as [instant Hdate]. rewrite Hdate.
  set (title := if (0 <? i)%nat then _ else _).
  assert (Htitle : title = title_at sourceId i (default [] (name file))).
  { subst title. by destruct i. }
  assert (Hname : default [] (name file) <> []).
  { apply andb_true_iff in Hfields as [Hfields _].
    apply andb_true_iff in Hfields as [Hfields _].
    apply andb_true_iff in Hfields as [Hname _].
    by destruct (name file) as [[|]|]. }
  unfold setTitle.
  assert (((1 <=? length title)%nat && (length title <=? 256)%nat) = true) as ->.
  { rewrite Htitle. apply andb_true_iff. rewrite !Nat.leb_le. split; [|done].
    destruct (default [] (name file)) as [|u fileName]; [done|].
    destruct i; cbn; lia. }
  cbn [obind]. unfold setURL. rewrite Hurl, bool_decide_eq_true_2 by done.
  cbn [obind]. unfold setColor.
  pose proof (fileType_color (mimeType file)) as Hcolor.
  assert (((0 <=? color (default fileTypes_others
                           (find (fun t => bool_decide (mime t = mimeType file)) fileTypes)))
           && (color (default fileTypes_others
                        (find (fun t => bool_decide (mime t = mimeType file)) fileTypes))
               <=? 0xFFFFFF)) = true) as ->.
  { apply andb_true_iff. rewrite !Z.leb_le. lia. }
  cbn [obind setTimestamp]. eexists. split; [reflexivity|].
  unfold embed_title. rewrite !lookup_insert_ne, lookup_insert_eq by done.
  by rewrite Htitle.
Qed.

Lemma buildEmbeds_Ret (sourceId : jsstring) (files : list File) (embeds : list APIEmbed) :
  buildEmbeds sourceId files = Ret embeds <->
  Forall2 (fun '(i, file) e => buildEmbed sourceId i file = Ret e)
          (imap (fun i file => (i, file)) files) embeds.
Proof.
  unfold buildEmbeds. rewrite mapM_Ret. split; intros Hall.
  - eapply Forall2_impl; [exact Hall|]. by intros [i file] e.
  - eapply Forall2_impl; [exact Hall|]. by intros [i file] e.
Qed.

(** C5, as it holds: for a non-empty list of resolved files,
    [createEmbedsMessage] returns a message exactly when every file has
    its four fields and a last-modified time that is a date, and the chat
    library accepts every title (at most 256 code units) and every link;
    otherwise it throws.  The message it returns carries one embed per
    file, in order; the title of the embed at position 0 is the file name
    followed by the encoded source message id, and the title of every
    later embed is the file name alone. *)
Theorem builder_hides_id_in_first_title (drive : jsstring -> DriveResponse)
    (fileIds : list jsstring) (sourceId : jsstring) (files : list File) :
  resolveFiles drive fileIds = Ret files ->
  files <> [] ->
  ((exists payload, createEmbedsMessage drive fileIds sourceId = Ret (Some payload))
   <-> forall i file, files !! i = Some file ->
         complete file = true /\ presentable sourceId i file)
  /\ ((forall payload, createEmbedsMessage drive fileIds sourceId <> Ret (Some payload))
      -> exists e, createEmbedsMessage drive fileIds sourceId = Throw e)
  /\ forall payload,
       createEmbedsMessage drive fileIds sourceId = Ret (Some payload) ->
       payload_flags payload = SuppressNotifications
       /\ length (payload_embeds payload) = length files
       /\ forall i file, files !! i = Some file ->
            exists e fileName,
              payload_embeds payload !! i = Some e /\ name file = Some fileName
              /\ embed_title e =
                   Some (if decide (i = O) then fileName ++ encode sourceId else fileName).
Proof.
  intros Hres Hne.
  assert (Hcreate : createEmbedsMessage drive fileIds sourceId
                    = (embeds <-! buildEmbeds sourceId files;
                       Ret (Some {| payload_embeds := embeds;
                                    payload_flags := SuppressNotifications |}))).
  { unfold createEmbedsMessage. rewrite Hres. cbn [obind].
    by destruct files as [|file0 files']. }
  rewrite Hcreate. clear Hcreate.
  assert (Hlookup : forall embeds i file,
            Forall2 (fun '(i, file) e => buildEmbed sourceId i file = Ret e)
                    (imap (fun i file => (i, file)) files) embeds ->
            files !! i = Some file ->
            exists e, embeds !! i = Some e /\ buildEmbed sourceId i file = Ret e).
  { intros embeds i file Hall Hf.
    assert (Hi : imap (fun i file => (i, file)) files !! i = Some (i, file)).
    { by rewrite list_lookup_imap, Hf. }
    destruct (Forall2_lookup_l _ _ _ _ _ Hall Hi) as (e & He & Hb). by exists e. }
  split; [split|split].
  - intros [payload Hp].
    destruct (buildEmbeds sourceId files) as [embeds|e] eqn:Hb; [|done].
    apply buildEmbeds_Ret in Hb. intros i file Hf.
    destruct (Hlookup embeds i file Hb Hf) as (e & _ & He).
    by apply buildEmbed_Ret in He as (? & ? & _).
  - intros Hall.
    destruct (mapM_total (fun '(i, file) => buildEmbed sourceId i file)
                (imap (fun i file => (i, file)) files)) as [embeds Hm].
    { apply Forall_forall. intros [i file] Hin.
      apply elem_of_lookup_imap in Hin as (j & file' & [= -> ->] & Hj).
      destruct (Hall j file' Hj) as [Hc Hp].
      destruct (buildEmbed_title sourceId j file' Hc Hp) as (e & He & _). by exists e. }
    unfold buildEmbeds. rewrite Hm. by eexists.
  - intros Hnone.
    destruct (buildEmbeds sourceId files) as [embeds|e]; [|by exists e].
    exfalso. by eapply Hnone.
  - intros payload Hp.
    destruct (buildEmbeds sourceId files) as [embeds|e] eqn:Hb; [|done].
    injection Hp as <-. cbn [payload_flags payload_embeds].
    apply buildEmbeds_Ret in Hb.
    split; [done|]. split.
    { apply Forall2_length in Hb. by rewrite length_imap in Hb. }
    intros i file Hf.
    destruct (Hlookup embeds i file Hb Hf) as (e & He & Hbuild).
    apply buildEmbed_Ret in Hbuild as (Hc & _ & Ht).
    assert (Hn : exists fileName, name file = Some fileName).
    { unfold complete in Hc. destruct (name file) as [n|]; [by exists n|discriminate]. }
    destruct Hn as [fileName Hn].
    exists e, fileName. split; [done|]. split; [done|].
    rewrite Ht, Hn. by destruct i.
Qed.

End Builder.

(** ** The diff engine *)

Section Diff.
Context `{Platform}.

Lemma number_ne_false (a b : option Z) :
  number_ne a b = false <-> exists t, a = Some t /\ b = Some t.
Proof.
  destruct a as [x|], b as [y|]; simpl; split; try discriminate;
    try (by intros (t & ? & ?)).
  - intros Hxy. apply negb_false_iff, Z.eqb_eq in Hxy. subst. by exists y.
  - intros (t & [= ->] & [= ->]). apply negb_false_iff, Z.eqb_refl.
Qed.

Lemma deepMatch_fields (oldEmbedData newEmbedData : APIEmbed) :
  deepMatch (delete "timestamp"%string newEmbedData) oldEmbedData = true
  <-> fields_kept oldEmbedData newEmbedData.
Proof.
  unfold deepMatch, fields_kept. rewrite bool_decide_eq_true, map_subseteq_spec.
  split.
  - intros Hsub k v Hk Hn. apply Hsub. by rewrite lookup_delete_ne.
  - intros Hkept k v Hd.
    destruct (decide (k = "timestamp"%string)) as [->|Hk].
    + by rewrite lookup_delete_eq in Hd.
    + rewrite lookup_delete_ne in Hd by done. by apply Hkept.
Qed.

Lemma getTime_denotes (timestamp : option jsval) (t : Z) :
  getTime timestamp = Some t <-> denotes timestamp t.
Proof.
  split.
  - destruct timestamp as [[s|n]|]; cbn; intros Ht.
    + by constructor.
    + injection Ht as <-. constructor.
    + injection Ht as <-. constructor.
  - by intros [|n|s t' Hs].
Qed.

Lemma denotes_functional (timestamp : option jsval) (t t' : Z) :
  denotes timestamp t -> denotes timestamp t' -> t = t'.
Proof. rewrite <- !getTime_denotes. congruence. Qed.

Lemma embedChanged_false (newEmbeds : list APIEmbed) (i : nat) (oldEmbedData : APIEmbed) :
  embedChanged newEmbeds i oldEmbedData = false <->
  exists newEmbedData, newEmbeds !! i = Some newEmbedData
    /\ same_instant oldEmbedData newEmbedData
    /\ fields_kept oldEmbedData newEmbedData.
Proof.
  unfold embedChanged, same_instant.
  destruct (newEmbeds !! i) as [newEmbedData|]; [|split; [done|by intros (? & ? & _)]].
  rewrite orb_false_iff, number_ne_false, negb_false_iff, deepMatch_fields.
  setoid_rewrite getTime_denotes.
  split.
  - intros [Hs Hk]. by exists newEmbedData.
  - by intros (? & [= <-] & Hs & Hk).
Qed.

Lemma existsb_imap_false {A} (f : nat -> A -> bool) (l : list A) :
  existsb (fun b => b) (imap f l) = false <->
  forall i a, l !! i = Some a -> f i a = false.
Proof.
  revert f. induction l as [|a l IH]; intros f; simpl.
  - split; [by intros _ i a|done].
  - rewrite orb_false_iff, IH. split.
    + intros [H0 Hrest] [|i] b; simpl; [by intros [= <-]|apply Hrest].
    + intros Hall. split; [by apply (Hall O)|].
      intros i b Hb. by apply (Hall (S i)).
Qed.

Lemma embedsChanged_false (oldEmbeds newEmbeds : list APIEmbed) :
  embedsChanged oldEmbeds newEmbeds = false <->
  length oldEmbeds = length newEmbeds
  /\ forall i oldEmbedData newEmbedData,
       oldEmbeds !! i = Some oldEmbedData -> newEmbeds !! i = Some newEmbedData ->
       same_instant oldEmbedData newEmbedData
       /\ fields_kept oldEmbedData newEmbedData.
Proof.
  unfold embedsChanged.
  rewrite orb_false_iff, negb_false_iff, Nat.eqb_eq, existsb_imap_false.
  split; intros [Hlen Hall]; (split; [exact Hlen|]).
  - intros i o n Ho Hn.
    apply Hall, embedChanged_false in Ho as (n' & Hn' & Hs & Hk).
    rewrite Hn in Hn'. by injection Hn' as <-.
  - intros i o Ho. apply embedChanged_false.
    destruct (newEmbeds !! i) as [n|] eqn:Hn.
    + exists n. split; [done|]. by apply Hall with i.
    + apply lookup_ge_None in Hn. apply lookup_lt_Some in Ho. lia.
Qed.

(** C3: the old embeds message is left alone exactly when both lists have
    the same length and, position by position, the two timestamps stand
    for the same instant (a missing one for the epoch, a string for the
    date it parses to; their renderings may differ) and every other field
    of the new embed has the same value in the old one; fields that only
    the old embed has play no part.  So two renderings of one instant
    compare as equal, whereas a different length, two different instants,
    a timestamp that is not a date, or a different value in another field
    make the lists compare as different. *)
Theorem diff_compares_instants_and_fields (oldEmbeds newEmbeds : list APIEmbed) :
  (embedsChanged oldEmbeds newEmbeds = false <->
     length oldEmbeds = length newEmbeds
     /\ forall i oldEmbedData newEmbedData,
          oldEmbeds !! i = Some oldEmbedData -> newEmbeds !! i = Some newEmbedData ->
          same_instant oldEmbedData newEmbedData
          /\ fields_kept oldEmbedData newEmbedData)
  /\ (forall e s s' t (extra : APIEmbed),
        Date_parse s = Some t -> Date_parse s' = Some t ->
        embedsChanged [<["timestamp"%string := VStr s']> (e ∪ extra)]
                      [<["timestamp"%string := VStr s]> e] = false)
  /\ (length oldEmbeds <> length newEmbeds -> embedsChanged oldEmbeds newEmbeds = true)
  /\ (forall i oldEmbedData newEmbedData,
        oldEmbeds !! i = Some oldEmbedData -> newEmbeds !! i = Some newEmbedData ->
        (forall t t', denotes (oldEmbedData !! "timestamp"%string) t ->
           denotes (newEmbedData !! "timestamp"%string) t' -> t <> t' ->
           embedsChanged oldEmbeds newEmbeds = true)
        /\ (forall s, (oldEmbedData !! "timestamp"%string = Some (VStr s)
                       \/ newEmbedData !! "timestamp"%string = Some (VStr s)) ->
              Date_parse s = None -> embedsChanged oldEmbeds newEmbeds = true)
        /\ (forall k v, k <> "timestamp"%string -> newEmbedData !! k = Some v ->
              oldEmbedData !! k <> Some v -> embedsChanged oldEmbeds newEmbeds = true)).
Proof.
  split; [apply embedsChanged_false|].
  split.
  { intros e s s' t extra Hs Hs'. apply embedsChanged_false. split; [done|].
    intros [|i] o n; cbn; [|done]. intros [= <-] [= <-]. split.
    - exists t. rewrite !lookup_insert_eq. split; by constructor.
    - intros k v Hk Hn.
      rewrite lookup_insert_ne in Hn by done. rewrite lookup_insert_ne by done.
      by apply lookup_union_Some_l. }
  split.
  { intros Hlen. apply not_false_iff_true. intros Hsame.
    by apply embedsChanged_false in Hsame as [? _]. }
  intros i o n Ho Hn. split; [|split].
  - intros t t' Ht Ht' Hne. apply not_false_iff_true. intros Hsame.
    apply embedsChanged_false in Hsame as [_ Hall].
    destruct (Hall i o n Ho Hn) as [(t0 & Ht0 & Ht0') _].
    apply Hne. rewrite (denotes_functional _ _ _ Ht Ht0).
    by apply (denotes_functional (n !! "timestamp"%string)).
  - intros s Hs Hnone. apply not_false_iff_true. intros Hsame.
    apply embedsChanged_false in Hsame as [_ Hall].
    destruct (Hall i o n Ho Hn) as [(t0 & Ht0 & Ht0') _].
    destruct Hs as [Hs|Hs]; rewrite Hs in *.
    + inversion Ht0. congruence.
    + inversion Ht0'. congruence.
  - intros k v Hk Hv Hdiff. apply not_false_iff_true. intros Hsame.
    apply embedsChanged_false in Hsame as [_ Hall].
    destruct (Hall i o n Ho Hn) as [_ Hkept]. by apply Hdiff, Hkept.
Qed.

End Diff.

(** ** The shadow message locator *)

Section Locator.
Context `{Platform}.

Lemma find_outcome_Some {A} (p : A -> outcome bool) (l : list A) (a : A) :
  find_outcome p l = Ret (Some a) ->
  exists l1 l2, l = l1 ++ a :: l2 /\ Forall (fun x => p x = Ret false) l1 /\ p a = Ret true.
Proof.
  induction l as [|x l IH]; simpl; [discriminate|].
  destruct (p x) as [[]|e] eqn:Hx; simpl; [| |discriminate].
  - intros [= <-]. by exists [], l.
  - intros Hf. destruct (IH Hf) as (l1 & l2 & -> & Hl1 & Ha).
    exists (x :: l1), l2. split; [done|]. split; [by constructor|done].
Qed.

Lemma find_outcome_None {A} (p : A -> outcome bool) (l : list A) :
  find_outcome p l = Ret None <-> Forall (fun x => p x = Ret false) l.
Proof.
  induction l as [|x l IH]; simpl; [split; [constructor|done]|].
  destruct (p x) as [[]|e] eqn:Hx; simpl.
  - split; [discriminate|]. intros Hf. inversion Hf. congruence.
  - rewrite IH. split; [by constructor|]. intros Hf. by inversion Hf.
  - split; [discriminate|]. intros Hf. inversion Hf. congruence.
Qed.

Lemma find_outcome_Throw {A} (p : A -> outcome bool) (l : list A) (e : exn) :
  find_outcome p l = Throw e -> exists a, a ∈ l /\ p a = Throw e.
Proof.
  induction l as [|x l IH]; simpl; [discriminate|].
  destruct (p x) as [[]|e'] eqn:Hx; simpl; [discriminate| |].
  - intros Hf. destruct (IH Hf) as (a & Ha & Hp). exists a. split; [by right|done].
  - intros [= <-]. exists x. split; [by left|done].
Qed.

Lemma insert_sorted_Permutation {A} (compare : A -> A -> Z) (a : A) (l : list A) :
  insert_sorted compare a l ≡ₚ a :: l.
Proof.
  induction l as [|b l IH]; simpl; [done|].
  destruct (compare a b <=? 0); [done|].
  rewrite IH. apply Permutation_swap.
Qed.

Lemma sort_Permutation {A} (compare : A -> A -> Z) (l : list A) :
  sort compare l ≡ₚ l.
Proof.
  induction l as [|a l IH]; simpl; [done|].
  by rewrite insert_sorted_Permutation, IH.
Qed.

Lemma insert_sorted_by_key {A} (key : A -> Z) (a : A) (l : list A) :
  StronglySorted (fun x y => key x <= key y) l ->
  StronglySorted (fun x y => key x <= key y)
    (insert_sorted (fun x y => key x - key y) a l).
Proof.
  induction 1 as [|b l Hs IH Hb]; simpl.
  - repeat constructor.
  - destruct (Z.leb_spec (key a - key b) 0) as [Hle|Hgt].
    + constructor; [by constructor|].
      constructor; [lia|].
      eapply Forall_impl; [exact Hb|]. simpl. intros; lia.
    + constructor; [done|].
      rewrite insert_sorted_Permutation. constructor; [lia|done].
Qed.

Lemma sort_by_key {A} (key : A -> Z) (l : list A) :
  StronglySorted (fun x y => key x <= key y) (sort (fun x y => key x - key y) l).
Proof.
  induction l as [|a l IH]; simpl; [constructor|].
  by apply insert_sorted_by_key.
Qed.

Lemma scan_None (botUserId sourceId : jsstring) (history : list Message) :
  scan botUserId sourceId history = Ret None <-> no_match botUserId sourceId history.
Proof.
  unfold scan, no_match. rewrite find_outcome_None, Forall_forall.
  split.
  - intros Hall m Hm Ha. apply Hall.
    rewrite sort_Permutation. by apply list_elem_of_filter.
  - intros Hall m Hm. rewrite sort_Permutation in Hm.
    apply list_elem_of_filter in Hm as [Ha Hm]. by apply Hall.
Qed.

Lemma scan_Some (botUserId sourceId : jsstring) (history : list Message) (m : Message) :
  scan botUserId sourceId history = Ret (Some m) ->
  first_match botUserId sourceId history m.
Proof.
  unfold scan, first_match. intros Hf.
  apply find_outcome_Some in Hf as (l1 & l2 & Heq & Hl1 & Hm).
  pose proof (sort_Permutation (fun a b => createdTimestamp a - createdTimestamp b)
                (filter (fun m => authorId m = botUserId) history)) as Hperm.
  pose proof (sort_by_key createdTimestamp
                (filter (fun m => authorId m = botUserId) history)) as Hsorted.
  rewrite Heq in Hperm, Hsorted.
  assert (Hin : m ∈ filter (fun m => authorId m = botUserId) history).
  { rewrite <- Hperm. apply elem_of_app. right. by left. }
  apply list_elem_of_filter in Hin as [Ha Hin].
  split; [done|]. split; [done|]. split; [done|].
  intros m' Hm' Ha' Hlt.
  assert (Hin' : m' ∈ l1 ++ m :: l2).
  { rewrite Hperm. by apply list_elem_of_filter. }
  apply elem_of_app in Hin' as [Hin'|Hin'].
  - rewrite Forall_forall in Hl1. by apply Hl1.
  - apply StronglySorted_app_1_r in Hsorted.
    apply StronglySorted_inv in Hsorted as [_ Hall].
    apply elem_of_cons in Hin' as [->|Hin']; [lia|].
    rewrite Forall_forall in Hall. specialize (Hall m' Hin'). simpl in Hall. lia.
Qed.

Lemma scan_Throw (botUserId sourceId : jsstring) (history : list Message) (e : exn) :
  scan botUserId sourceId history = Throw e ->
  exists m, m ∈ history /\ authorId m = botUserId /\ hides_source_id sourceId m = Throw e.
Proof.
  unfold scan. intros Hf. apply find_outcome_Throw in Hf as (m & Hm & He).
  rewrite sort_Permutation in Hm. apply list_elem_of_filter in Hm as [Ha Hm].
  by exists m.
Qed.

Lemma find_outcome_Throw_at {A} (p : A -> outcome bool) (l : list A) (e : exn) :
  find_outcome p l = Throw e ->
  exists l1 a l2, l = l1 ++ a :: l2 /\ Forall (fun x => p x = Ret false) l1 /\ p a = Throw e.
Proof.
  induction l as [|x l IH]; simpl; [discriminate|].
  destruct (p x) as [[]|e'] eqn:Hx; simpl; [discriminate| |].
  - intros Hf. destruct (IH Hf) as (l1 & a & l2 & -> & Hl1 & Ha).
    exists (x :: l1), a, l2. split; [done|]. split; [by constructor|done].
  - intros [= <-]. by exists [], x, l.
Qed.

(** The callback of [find] against the titles. *)
Lemma hides_source_id_cases (sourceId : jsstring) (m : Message) :
  match hides_source_id sourceId m with
  | Ret true => title_decodes_to sourceId m
  | Ret false => title_decodes_elsewhere sourceId m
  | Throw e => title_fails_with e m
  end.
Proof.
  unfold hides_source_id, title_decodes_to, title_decodes_elsewhere, title_fails_with,
    first_title.
  destruct (embeds m) as [|firstEmbed others] eqn:Hembeds.
  { left. by intros title (? & ? & ? & _). }
  destruct (embed_title firstEmbed) as [[|u title]|] eqn:Htitle.
  - left. intros title (? & ? & [= <- <-] & Ht & Hne). congruence.
  - destruct (decodeAppendedInvisible (u :: title)) as [decoded|e] eqn:Hd; cbn [obind].
    + destruct (bool_decide (sourceId = decoded)) eqn:Heq.
      * apply bool_decide_eq_true in Heq as <-.
        exists (u :: title). split; [|done]. by exists firstEmbed, others.
      * apply bool_decide_eq_false in Heq.
        right. exists (u :: title), decoded.
        split; [by exists firstEmbed, others|]. split; [done|congruence].
    + exists (u :: title). split; [|done]. by exists firstEmbed, others.
  - left. intros title (? & ? & [= <- <-] & Ht & _). congruence.
Qed.

Lemma oldest_first_sort (botUserId : jsstring) (history : list Message) :
  oldest_first botUserId history
    (sort (fun a b => createdTimestamp a - createdTimestamp b)
          (filter (fun m => authorId m = botUserId) history)).
Proof. split; [apply sort_Permutation|apply sort_by_key]. Qed.

Lemma scan_nothing_found (botUserId sourceId : jsstring) (history : list Message) :
  scan botUserId sourceId history = Ret None -> nothing_found botUserId sourceId history.
Proof.
  intros Hscan m Hm Ha. apply scan_None in Hscan.
  pose proof (hides_source_id_cases sourceId m) as Hcases.
  by rewrite (Hscan m Hm Ha) in Hcases.
Qed.

Lemma Forall_elsewhere (sourceId : jsstring) (l : list Message) :
  Forall (fun x => hides_source_id sourceId x = Ret false) l ->
  Forall (title_decodes_elsewhere sourceId) l.
Proof.
  intros Hall. eapply Forall_impl; [exact Hall|]. intros m Hm. cbn in Hm.
  pose proof (hides_source_id_cases sourceId m) as Hcases. by rewrite Hm in Hcases.
Qed.

Lemma first_title_functional (m : Message) (title title' : jsstring) :
  first_title m title -> first_title m title' -> title = title'.
Proof. intros (? & ? & ? & ? & _) (? & ? & ? & ? & _). congruence. Qed.

Lemma title_decodes_elsewhere_hides (sourceId : jsstring) (m : Message) :
  title_decodes_elsewhere sourceId m -> hides_source_id sourceId m = Ret false.
Proof.
  intros Helse. pose proof (hides_source_id_cases sourceId m) as Hcases.
  destruct (hides_source_id sourceId m) as [[]|e]; [|done|].
  - destruct Hcases as (title & Ht & Hd).
    destruct Helse as [Hno|(title' & decoded & Ht' & Hd' & Hne)]; [by destruct (Hno title)|].
    rewrite (first_title_functional m title title' Ht Ht') in Hd. congruence.
  - destruct Hcases as (title & Ht & Hd).
    destruct Helse as [Hno|(title' & decoded & Ht' & Hd' & Hne)]; [by destruct (Hno title)|].
    rewrite (first_title_functional m title title' Ht Ht') in Hd. congruence.
Qed.

Lemma scan_found_first (botUserId sourceId : jsstring) (history : list Message)
    (m : Message) :
  scan botUserId sourceId history = Ret (Some m) -> found_first botUserId sourceId history m.
Proof.
  unfold scan. intros Hf.
  apply find_outcome_Some in Hf as (l1 & l2 & Heq & Hl1 & Hm).
  exists l1, l2. rewrite <- Heq. split; [apply oldest_first_sort|].
  split; [by apply Forall_elsewhere|].
  pose proof (hides_source_id_cases sourceId m) as Hcases. by rewrite Hm in Hcases.
Qed.

Lemma scan_fails_first (botUserId sourceId : jsstring) (history : list Message) (e : exn) :
  scan botUserId sourceId history = Throw e -> fails_first botUserId sourceId history e.
Proof.
  unfold scan. intros Hf.
  apply find_outcome_Throw_at in Hf as (l1 & m & l2 & Heq & Hl1 & Hm).
  exists l1, m, l2. rewrite <- Heq. split; [apply oldest_first_sort|].
  split; [by apply Forall_elsewhere|].
  pose proof (hides_source_id_cases sourceId m) as Hcases. by rewrite Hm in Hcases.
Qed.

Lemma retrieve_core (fetch : nat -> jsstring -> nat -> list Message)
    (botUserId : jsstring) (message : Message) (n fuel attempt : nat) :
  (n < fuel)%nat ->
  exists evs r k,
    retrieveOldEmbedsMessage fuel fetch attempt botUserId message (Z.of_nat n)
      = Some (evs, r)
    /\ (k <= n)%nat
    /\ evs = lookup_requests (id message) k
    /\ (forall j, (j < k)%nat ->
          scan botUserId (id message) (fetch (attempt + j)%nat (id message) 10%nat)
          = Ret None)
    /\ r = scan botUserId (id message) (fetch (attempt + k)%nat (id message) 10%nat)
    /\ (r = Ret None -> k = n).
Proof.
  revert fuel attempt. induction n as [|n IH]; intros fuel attempt Hfuel.
  - destruct fuel as [|fuel]; [lia|]. simpl.
    fold (scan botUserId (id message) (fetch attempt (id message) 10%nat)).
    destruct (scan _ _ _) as [old|e] eqn:Hscan.
    + rewrite orb_true_r.
      exists [EvFetch (id message) 10], (Ret old), O.
      rewrite Nat.add_0_r. repeat split; first [done | lia | intros; lia].
    + exists [EvFetch (id message) 10], (Throw e), O.
      rewrite Nat.add_0_r. repeat split; first [done | lia | intros; lia].
  - destruct fuel as [|fuel]; [lia|].
    cbn [retrieveOldEmbedsMessage].
    fold (scan botUserId (id message) (fetch attempt (id message) 10%nat)).
    destruct (scan _ _ _) as [[old|]|e] eqn:Hscan.
    + exists [EvFetch (id message) 10], (Ret (Some old)), O.
      rewrite Nat.add_0_r. simpl. repeat split; first [done | lia | intros; lia].
    + assert ((Z.of_nat (S n) =? 0) = false) as -> by (apply Z.eqb_neq; lia).
      simpl bool_decide. cbv iota. simpl orb. cbv iota.
      replace (Z.of_nat (S n) - 1) with (Z.of_nat n) by lia.
      destruct (IH fuel (S attempt)) as (evs & r & k & Hr & Hk & Hevs & Hnone & Hres & Hlast);
        [lia|].
      rewrite Hr.
      exists (EvFetch (id message) 10 :: EvSleep 1000 :: evs), r, (S k).
      split; [done|]. split; [lia|]. split; [by rewrite Hevs|].
      split; [|split].
      * intros [|j] Hj; [by rewrite Nat.add_0_r|].
        replace (attempt + S j)%nat with (S attempt + j)%nat by lia.
        apply Hnone. lia.
      * by replace (attempt + S k)%nat with (S attempt + k)%nat by lia.
      * intros Hn. f_equal. by apply Hlast.
    + exists [EvFetch (id message) 10], (Throw e), O.
      rewrite Nat.add_0_r. repeat split; first [done | lia | intros; lia].
Qed.

End Locator.

Section LocatorTheorems.
Context `{Platform}.

Lemma count_lookup_requests (sourceId : jsstring) (k : nat) :
  count is_fetch (lookup_requests sourceId k) = S k
  /\ count is_sleep (lookup_requests sourceId k) = k.
Proof.
  unfold lookup_requests, count.
  induction k as [|k [IHf IHs]]; simpl; [done|].
  simpl in IHf, IHs. by rewrite IHf, IHs.
Qed.

Lemma lookup_requests_kinds (sourceId : jsstring) (k : nat) :
  Forall (fun ev => ev = EvFetch sourceId 10 \/ ev = EvSleep 1000)
         (lookup_requests sourceId k).
Proof.
  unfold lookup_requests.
  induction k as [|k IH]; simpl; repeat constructor; by eauto.
Qed.

(** C4: a lookup with a retry budget [maxRetries >= 0] returns.  Each of
    its attempts asks for the 10 messages after the source id; an attempt
    keeps the bot's messages, takes them oldest first and stops at the
    first one whose first embed's title decodes to the source id, every
    title before it decoding to something else.  The lookup returns that
    message from the first attempt that finds one; between two attempts
    it waits 1000 ms; it returns [undefined] only after [maxRetries + 1]
    attempts in which no title decoded to the source id; and it fails
    when, oldest first, a title that does not decode comes before any
    that decodes to the source id. *)
Theorem locator_returns_first_match
    (fetch : nat -> jsstring -> nat -> list Message)
    (botUserId : jsstring) (message : Message) (maxRetries : Z)
    (fuel attempt : nat) :
  0 <= maxRetries ->
  (Z.to_nat maxRetries < fuel)%nat ->
  exists evs r k,
    retrieveOldEmbedsMessage fuel fetch attempt botUserId message maxRetries
      = Some (evs, r)
    /\ (Z.of_nat k <= maxRetries)
    /\ evs = lookup_requests (id message) k
    /\ (forall j, (j < k)%nat ->
          nothing_found botUserId (id message)
            (fetch (attempt + j)%nat (id message) 10%nat))
    /\ match r with
       | Ret (Some m) =>
           found_first botUserId (id message)
             (fetch (attempt + k)%nat (id message) 10%nat) m
       | Ret None =>
           Z.of_nat k = maxRetries
           /\ nothing_found botUserId (id message)
                (fetch (attempt + k)%nat (id message) 10%nat)
       | Throw e =>
           fails_first botUserId (id message)
             (fetch (attempt + k)%nat (id message) 10%nat) e
       end.
Proof.
  intros Hnonneg Hfuel.
  destruct (retrieve_core fetch botUserId message (Z.to_nat maxRetries) fuel attempt Hfuel)
    as (evs & r & k & Hr & Hk & Hevs & Hnone & Hres & Hlast).
  rewrite Z2Nat.id in Hr by done.
  exists evs, r, k. split; [done|]. split; [lia|]. split; [done|].
  split.
  - intros j Hj. apply scan_nothing_found. by apply Hnone.
  - destruct r as [[m|]|e].
    + by apply scan_found_first.
    + split; [rewrite (Hlast eq_refl); lia|]. by apply scan_nothing_found.
    + by apply scan_fails_first.
Qed.

(** C10: for every retry budget [maxRetries >= 0] the lookup returns; it
    issues at most [maxRetries + 1] history requests and waits at most
    [maxRetries] times, one second each, and issues nothing else. *)
Theorem locator_terminates
    (fetch : nat -> jsstring -> nat -> list Message)
    (botUserId : jsstring) (message : Message) (maxRetries : Z)
    (fuel attempt : nat) :
  0 <= maxRetries ->
  (Z.to_nat maxRetries < fuel)%nat ->
  exists evs r,
    retrieveOldEmbedsMessage fuel fetch attempt botUserId message maxRetries
      = Some (evs, r)
    /\ (count is_fetch evs <= Z.to_nat maxRetries + 1)%nat
    /\ (count is_sleep evs <= Z.to_nat maxRetries)%nat
    /\ Forall (fun ev => ev = EvFetch (id message) 10 \/ ev = EvSleep 1000) evs.
Proof.
  intros Hnonneg Hfuel.
  destruct (retrieve_core fetch botUserId message (Z.to_nat maxRetries) fuel attempt Hfuel)
    as (evs & r & k & Hr & Hk & -> & _).
  rewrite Z2Nat.id in Hr by done.
  exists (lookup_requests (id message) k), r. split; [done|].
  destruct (count_lookup_requests (id message) k) as [-> ->].
  split; [lia|]. split; [lia|]. apply lookup_requests_kinds.
Qed.

(** The budget has to be non-negative: with a negative budget a lookup
    that finds nothing recurses for ever. *)
Lemma locator_negative_budget
    (fetch : nat -> jsstring -> nat -> list Message)
    (botUserId : jsstring) (message : Message) (maxRetries : Z)
    (fuel attempt : nat) :
  maxRetries < 0 ->
  (forall k, scan botUserId (id message) (fetch k (id message) 10%nat) = Ret None) ->
  retrieveOldEmbedsMessage fuel fetch attempt botUserId message maxRetries = None.
Proof.
  intros Hneg Hnone. revert attempt maxRetries Hneg.
  induction fuel as [|fuel IH]; intros attempt maxRetries Hneg; [done|].
  cbn [retrieveOldEmbedsMessage].
  fold (scan botUserId (id message) (fetch attempt (id message) 10%nat)).
  rewrite Hnone.
  assert ((maxRetries =? 0) = false) as -> by (apply Z.eqb_neq; lia).
  simpl. rewrite IH by lia. done.
Qed.

End LocatorTheorems.

(** ** The link extractor *)

Section Extractor.
Context `{Platform}.

Lemma repeat_class_sound {R} (p : Z -> bool) (min : nat) (s : jsstring)
    (k : jsstring -> option R) (res : R) :
  repeat_class p min s k = Some res ->
  exists m s', s = m ++ s' /\ (min <= length m)%nat
    /\ Forall (fun u => p u = true) m /\ k s' = Some res.
Proof.
  revert min. induction s as [|c s IH]; intros min; cbn [repeat_class].
  - destruct min; [|done]. intros Hk. by exists [], [].
  - assert (Hstop : match min with O => k (c :: s) | S _ => None end = Some res ->
              exists m s', c :: s = m ++ s' /\ (min <= length m)%nat
                /\ Forall (fun u => p u = true) m /\ k s' = Some res).
    { destruct min; [|done]. intros Hk. by exists [], (c :: s). }
    destruct (p c) eqn:Hc; [|exact Hstop].
    destruct (repeat_class p (pred min) s k) as [r|] eqn:Hr; [|exact Hstop].
    intros [= <-]. destruct (IH _ Hr) as (m & s' & -> & Hmin & Hall & Hk).
    exists (c :: m), s'. split; [done|]. split; [simpl; lia|]. split; [by constructor|done].
Qed.

Lemma bt_sound {R} (r : regex) :
  forall (s : jsstring) (cap : option jsstring)
         (k : jsstring -> option jsstring -> option R) (res : R),
    bt r s cap k = Some res ->
    exists m s' cap', s = m ++ s' /\ matches r m cap cap' /\ k s' cap' = Some res.
Proof.
  induction r as [c|p|r1 IH1 r2 IH2|r1 IH1 r2 IH2|r IH|min p|r IH];
    intros s cap k res; cbn [bt matches].
  - destruct s as [|u s]; [done|]. destruct (Z.eqb_spec u c) as [->|]; [|done].
    intros Hk. by exists [c], s, cap.
  - destruct s as [|u s]; [done|]. destruct (p u) eqn:Hu; [|done].
    intros Hk. exists [u], s, cap. split; [done|]. split; [by exists u|done].
  - intros Hbt. apply IH1 in Hbt as (m1 & s1 & cap1 & -> & Hm1 & Hbt).
    apply IH2 in Hbt as (m2 & s2 & cap2 & -> & Hm2 & Hk).
    exists (m1 ++ m2), s2, cap2. split; [by rewrite app_assoc|].
    split; [by exists m1, m2, cap1|done].
  - destruct (bt r1 s cap k) as [x|] eqn:H1.
    + intros [= <-]. apply IH1 in H1 as (m & s' & cap' & -> & Hm & Hk).
      exists m, s', cap'. split; [done|]. split; [by left|done].
    + intros H2. apply IH2 in H2 as (m & s' & cap' & -> & Hm & Hk).
      exists m, s', cap'. split; [done|]. split; [by right|done].
  - destruct (bt r s cap k) as [x|] eqn:H1.
    + intros [= <-]. apply IH in H1 as (m & s' & cap' & -> & Hm & Hk).
      exists m, s', cap'. split; [done|]. split; [by left|done].
    + intros Hk. exists [], s, cap. split; [done|]. split; [by right|done].
  - intros Hr. apply repeat_class_sound in Hr as (m & s' & -> & Hmin & Hall & Hk).
    by exists m, s', cap.
  - intros Hbt. apply IH in Hbt as (m & s' & cap' & -> & Hm & Hk).
    rewrite length_app in Hk.
    replace (length m + length s' - length s')%nat with (length m) in Hk by lia.
    rewrite take_app_length in Hk.
    exists m, s', (Some m). split; [done|]. split; [by exists cap'|done].
Qed.

Lemma exec_sound (r : regex) (s m : jsstring) (cap : option jsstring) :
  exec r s = Some (m, cap) ->
  exists s', s = m ++ s' /\ matches r m None cap.
Proof.
  unfold exec. intros Hbt.
  apply bt_sound in Hbt as (m' & s' & cap' & -> & Hm & Hk).
  rewrite length_app in Hk.
  replace (length m' + length s' - length s')%nat with (length m') in Hk by lia.
  rewrite take_app_length in Hk. injection Hk as <- <-. by exists s'.
Qed.

Lemma matchAll_from_matches (r : regex) (s : jsstring) :
  forall skip, Forall (fun '(m, cap) => matches r m None cap) (matchAll_from r s skip).
Proof.
  induction s as [|u s IH]; intros skip.
  - destruct skip as [|skip]; cbn [matchAll_from]; [|done].
    destruct (exec r []) as [[m cap]|] eqn:He; [|done].
    apply exec_sound in He as (s' & Hs & Hm). by repeat constructor.
  - destruct skip as [|skip]; cbn [matchAll_from]; [|apply IH].
    destruct (exec r (u :: s)) as [[m cap]|] eqn:He; [|apply IH].
    apply exec_sound in He as (s' & Hs & Hm). by constructor.
Qed.

Lemma repeat_class_complete {R} (p : Z -> bool) (m : jsstring) :
  forall (min : nat) (s' : jsstring) (k : jsstring -> option R),
    (min <= length m)%nat -> Forall (fun u => p u = true) m ->
    is_Some (k s') -> is_Some (repeat_class p min (m ++ s') k).
Proof.
  induction m as [|c m IH]; intros min s' k Hmin Hall Hk.
  - simpl in Hmin. assert (min = O) as -> by lia. cbn [app].
    destruct s' as [|c s']; cbn [repeat_class]; [done|].
    destruct (p c); [|done]. by destruct (repeat_class p _ s' k).
  - apply Forall_cons in Hall as [Hc Hall]. cbn [app repeat_class]. rewrite Hc.
    destruct (IH (pred min) s' k) as [r ->]; [simpl in Hmin; lia|done|done|done].
Qed.

Lemma bt_complete {R} (r : regex) :
  forall (m s' : jsstring) (cap cap' : option jsstring)
         (k : jsstring -> option jsstring -> option R),
    matches r m cap cap' -> is_Some (k s' cap') -> is_Some (bt r (m ++ s') cap k).
Proof.
  induction r as [c|p|r1 IH1 r2 IH2|r1 IH1 r2 IH2|r IH|min p|r IH];
    intros m s' cap cap' k; cbn [bt matches].
  - intros [-> ->] Hk. cbn [app]. by rewrite Z.eqb_refl.
  - intros (u & -> & Hu & ->) Hk. cbn [app]. by rewrite Hu.
  - intros (m1 & m2 & cap1 & -> & H1 & H2) Hk. rewrite <- app_assoc.
    apply (IH1 _ _ _ cap1); [done|]. by apply (IH2 _ _ _ cap').
  - intros [H1|H2] Hk.
    + destruct (IH1 _ s' _ _ k H1 Hk) as [x ->]. done.
    + destruct (bt r1 (m ++ s') cap k); [done|]. by apply (IH2 _ _ _ cap').
  - intros [H1|[-> ->]] Hk.
    + destruct (IH _ s' _ _ k H1 Hk) as [x ->]. done.
    + cbn [app]. by destruct (bt r s' cap k).
  - intros (Hmin & Hall & ->) Hk. by apply repeat_class_complete.
  - intros (cap1 & Hm & ->) Hk. apply (IH _ _ _ cap1); [done|].
    rewrite length_app.
    replace (length m + length s' - length s')%nat with (length m) by lia.
    by rewrite take_app_length.
Qed.

Lemma exec_complete (r : regex) (s : jsstring) :
  starts_with (fun m => exists cap, matches r m None cap) s -> is_Some (exec r s).
Proof.
  intros (m & post & -> & cap & Hm). unfold exec.
  by apply (bt_complete r m post None cap).
Qed.

Lemma leftmost_cons (P : jsstring -> Prop) (ms : list jsstring) (u : Z) (s : jsstring) :
  ~ starts_with P (u :: s) -> leftmost P ms s -> leftmost P ms (u :: s).
Proof.
  intros Hno. destruct ms as [|m ms]; cbn [leftmost].
  - intros Hfree s1 s2 Hs. destruct s1 as [|c s1].
    + cbn in Hs. by subst.
    + injection Hs as -> ->. by apply (Hfree s1).
  - intros (pre & post & -> & Hfree & Hrest).
    exists (u :: pre), post. split; [done|]. split; [|done].
    intros pre1 pre2 Hpre Hne. destruct pre1 as [|c pre1].
    + cbn in Hpre. by subst.
    + injection Hpre as -> ->. by apply (Hfree pre1).
Qed.

Lemma leftmost_ext (P Q : jsstring -> Prop) (ms : list jsstring) :
  (forall m, P m <-> Q m) -> forall s, leftmost P ms s -> leftmost Q ms s.
Proof.
  intros HPQ.
  assert (Hs : forall s, starts_with Q s -> starts_with P s).
  { intros s (m & post & -> & Hm). exists m, post. split; [done|]. by apply HPQ. }
  induction ms as [|m ms IH]; intros s; cbn [leftmost].
  - intros Hfree s1 s2 Hs12 Hq. by apply (Hfree s1 s2 Hs12), Hs.
  - intros (pre & post & -> & Hfree & Hrest). exists pre, post.
    split; [done|]. split; [|by apply IH].
    intros pre1 pre2 Hpre Hne Hq. by apply (Hfree pre1 pre2 Hpre Hne), Hs.
Qed.

Lemma matchAll_from_leftmost (r : regex) (s : jsstring) :
  (forall m cap, matches r m None cap -> m <> []) ->
  forall skip,
    leftmost (fun m => exists cap, matches r m None cap)
             (matchAll_from r s skip).*1 (drop skip s).
Proof.
  intros Hnonempty.
  assert (Hnil : ~ starts_with (fun m => exists cap, matches r m None cap) []).
  { intros (m & post & Hs & cap & Hm). symmetry in Hs.
    apply app_eq_nil in Hs as [-> _]. by apply (Hnonempty [] cap). }
  induction s as [|u s IH]; intros skip.
  - assert (matchAll_from r [] skip = []) as ->.
    { destruct skip; cbn [matchAll_from]; [|done].
      destruct (exec r []) as [[m cap]|] eqn:He; [|done].
      destruct Hnil. apply exec_sound in He as (s' & Hs & Hm). by exists m, s'; eauto. }
    rewrite drop_nil. cbn. intros s1 s2 Hs. symmetry in Hs.
    apply app_eq_nil in Hs as [_ ->]. exact Hnil.
  - destruct skip as [|skip]; cbn [matchAll_from]; [|apply IH].
    destruct (exec r (u :: s)) as [[m cap]|] eqn:He.
    + apply exec_sound in He as (s' & Hs & Hm).
      destruct m as [|c m]; [by destruct (Hnonempty [] cap)|].
      cbn [app] in Hs. injection Hs as -> ->.
      specialize (IH (length m)). rewrite drop_app_length in IH.
      cbn [fmap list_fmap fst length pred leftmost drop].
      exists [], s'. split; [done|]. split; [|done].
      intros pre1 pre2 Hpre Hne. symmetry in Hpre. by apply app_eq_nil in Hpre as [_ ->].
    + apply leftmost_cons; [|apply (IH O)].
      intros Hstart. apply exec_complete in Hstart as [x Hx]. congruence.
Qed.

Lemma Str_matches (s m : jsstring) (cap cap' : option jsstring) :
  matches (Str s) m cap cap' <-> m = s /\ cap' = cap.
Proof.
  revert m cap cap'. induction s as [|c s IH]; intros m cap cap'.
  - cbn. split.
    + intros (_ & Hall & ->). split; [|done].
      destruct m as [|u m]; [done|]. by apply Forall_cons in Hall as [? _].
    + intros [-> ->]. by repeat split.
  - destruct s as [|c' s].
    + cbn. split; by intros [-> ->].
    + change (Str (c :: c' :: s)) with (Seq (Chr c) (Str (c' :: s))).
      cbn [matches]. split.
      * intros (m1 & m2 & cap1 & -> & [-> ->] & Hrest).
        apply IH in Hrest as [-> ->]. done.
      * intros [-> ->]. exists [c], (c' :: s), cap. split; [done|]. split; [done|].
        by apply IH.
Qed.

Lemma fileIdRegex_shape (m : jsstring) (cap : option jsstring) :
  matches fileIdRegex m None cap -> exists fileId, cap = Some fileId /\ is_link m fileId.
Proof.
  unfold fileIdRegex. cbn [matches].
  intros (m1 & ? & c1 & -> & Hhttp & m2 & ? & c2 & -> & Hs & m3 & ? & c3 & -> & Hsep
          & m4 & ? & c4 & -> & Hhost & m5 & ? & c5 & -> & Hdom & m6 & ? & c6 & -> & Hdir
          & m7 & ? & c7 & -> & Hslash & m8 & ? & c8 & -> & Hseg & m9 & ? & c9 & -> & Hslash2
          & m10 & m11 & c10 & -> & Hid & Hrest).
  apply Str_matches in Hhttp as [-> ->], Hsep as [-> ->], Hdom as [-> ->].
  destruct Hslash as [-> ->], Hslash2 as [-> ->].
  destruct Hdir as (Hdir & Hdirc & ->).
  destruct Hid as (c11 & (Hidlen & Hidc & ->) & ->).
  exists m10. split.
  { destruct Hrest as [(? & ? & ? & _ & [_ ->] & ? & ? & ? & _ & (_ & _ & ->) & ? & _ & _ & ->)|[_ ->]];
      done. }
  exists (lit "http" ++ m2), m4, m6, m8, m11.
  split; [by rewrite <- !app_assoc|].
  split. { destruct Hs as [[-> _]|[-> _]]; [by right|by left]. }
  split. { destruct Hhost as [Hh|Hh]; apply Str_matches in Hh as [-> _]; [by left|by right]. }
  split. { intros ->. simpl in Hdir. lia. }
  split; [done|].
  split. { destruct Hseg as [[-> _]|[[-> _]|Hf]]; [by left|by right; left|].
           apply Str_matches in Hf as [-> _]. by right; right. }
  split; [done|]. split; [done|].
  destruct Hrest as [(? & ? & ? & -> & [-> _] & middle & ? & ? & -> & (_ & Hmid & _)
                      & last & -> & Hlast & _)|[-> _]]; [right|by left].
  by exists middle, last.
Qed.

Lemma is_link_matches (m fileId : jsstring) :
  is_link m fileId -> matches fileIdRegex m None (Some fileId).
Proof.
  intros (scheme & host & dir & segment & rest & -> & Hscheme & Hhost & Hdir & Hdirc
          & Hseg & Hlen & Hidc & Hrest).
  unfold fileIdRegex. cbn [matches].
  exists (lit "http"), (drop 4 scheme ++ lit "://" ++ host ++ lit ".google.com/" ++ dir
                        ++ lit "/" ++ segment ++ lit "/" ++ fileId ++ rest), None.
  split; [by destruct Hscheme as [->| ->]|]. split; [by apply Str_matches|].
  eexists (drop 4 scheme), _, None. split; [done|].
  split; [destruct Hscheme as [->| ->]; [by right|by left]|].
  eexists (lit "://"), _, None. split; [done|]. split; [by apply Str_matches|].
  eexists host, _, None. split; [done|].
  split; [destruct Hhost as [->| ->]; [left|right]; by apply Str_matches|].
  eexists (lit ".google.com/"), _, None. split; [done|]. split; [by apply Str_matches|].
  eexists dir, _, None. split; [done|].
  split. { split; [|done]. destruct dir; [done|simpl; lia]. }
  eexists (lit "/"), _, None. split; [done|]. split; [done|].
  eexists segment, _, None. split; [done|].
  split. { destruct Hseg as [->|[->| ->]]; [by left|by right; left|right; right].
           by apply Str_matches. }
  eexists (lit "/"), _, None. split; [done|]. split; [done|].
  exists fileId, rest, (Some fileId). split; [done|].
  split; [by exists None|].
  destruct Hrest as [->|(middle & last & -> & Hmid & Hlast)]; [by right|left].
  exists (lit "/"), (middle ++ [last]), (Some fileId). split; [done|]. split; [done|].
  exists middle, [last], (Some fileId). split; [done|].
  split; [repeat split; [lia|done]|]. by exists last.
Qed.

Lemma is_link_nonempty (m fileId : jsstring) : is_link m fileId -> m <> [].
Proof.
  intros (scheme & ? & ? & ? & ? & -> & [->| ->] & _); done.
Qed.

(** C6: every pair that [extractFileIds] returns is a sharing link of the
    text with its file id (a [d], [e] or [folders] segment followed by an
    id of at least 25 characters of [[-\w]]); the links returned are the
    leftmost ones, from left to right and one after the other: no link
    starts before the first, between two of them or after the last, so
    none is left out, and a link that occurs twice is returned twice.  In
    particular a text with two well-formed links and one link whose id
    has 24 characters yields exactly the two well-formed pairs, in
    order. *)
Theorem extractor_returns_links_in_order (content : jsstring) :
  Forall (fun ref => is_link (url ref) (fileId ref)) (extractFileIds content)
  /\ leftmost (fun m => exists fileId, is_link m fileId)
              (map url (extractFileIds content)) content
  /\ extractFileIds
       (lit "see https://drive.google.com/file/d/1aBcDeFgHiJkLmNoPqRsTuVwXyZ012/view then https://drive.google.com/file/d/123456789012345678901234/view and https://docs.google.com/document/d/1234567890123456789012345/edit.")
     = [ {| url := lit "https://drive.google.com/file/d/1aBcDeFgHiJkLmNoPqRsTuVwXyZ012/view";
            fileId := lit "1aBcDeFgHiJkLmNoPqRsTuVwXyZ012" |};
         {| url := lit "https://docs.google.com/document/d/1234567890123456789012345/edit";
            fileId := lit "1234567890123456789012345" |} ]
  /\ extractFileIds
       (lit "https://drive.google.com/drive/folders/1234567890123456789012345 https://drive.google.com/drive/folders/1234567890123456789012345")
     = [ {| url := lit "https://drive.google.com/drive/folders/1234567890123456789012345";
            fileId := lit "1234567890123456789012345" |};
         {| url := lit "https://drive.google.com/drive/folders/1234567890123456789012345";
            fileId := lit "1234567890123456789012345" |} ].
Proof.
  split; [|split; [|split; by vm_compute]]; unfold extractFileIds, matchAll.
  - (* what is returned matches the pattern, hence is a link *)
    apply Forall_fmap. eapply Forall_impl; [apply matchAll_from_matches|].
    intros [m cap] Hm. cbn.
    apply fileIdRegex_shape in Hm as (fileId & -> & Hlink). done.
  - (* the matcher finds a match wherever one starts *)
    rewrite map_map.
    replace (map (fun x : jsstring * option jsstring => url (let '(url, id) := x in
                    {| url := url; fileId := default [] id |}))
                 (matchAll_from fileIdRegex content 0))
      with ((matchAll_from fileIdRegex content 0).*1)
      by (apply list_fmap_ext; by intros _ [m cap] _).
    apply (leftmost_ext (fun m => exists cap, matches fileIdRegex m None cap)).
    + intros m. split.
      * intros (cap & Hm). apply fileIdRegex_shape in Hm as (fileId & _ & Hl). by exists fileId.
      * intros (fileId & Hl). exists (Some fileId). by apply is_link_matches.
    + apply (matchAll_from_leftmost fileIdRegex content).
      intros m cap Hm. apply fileIdRegex_shape in Hm as (fileId & _ & Hl).
      by apply is_link_nonempty in Hl.
Qed.

End Extractor.

(** ** The synchronization orchestrator *)

Section Idempotence.
Context `{Platform}.

Lemma plain_spec (s : jsstring) :
  plain s = true -> forall c, c ∈ invisibleChars -> c ∉ s.
Proof.
  unfold plain. rewrite forallb_forall. intros Hall c Hc Hin.
  apply invisibleChars_elem in Hc. apply list_elem_of_In, Hall in Hin.
  rewrite Hc in Hin. discriminate.
Qed.

Lemma well_formed_bmp (s : jsstring) :
  Forall (fun u => is_surrogate u = false) s -> well_formed s = true.
Proof.
  induction 1 as [|u s Hu Hs IH]; [done|].
  destruct s as [|l s]; [cbn; by rewrite Hu|].
  rewrite well_formed_cons2.
  assert (is_high_surrogate u = false) as ->.
  { unfold is_surrogate, is_high_surrogate in *.
    destruct (Z.leb_spec 0xD800 u), (Z.leb_spec u 0xDFFF), (Z.leb_spec u 0xDBFF);
      simpl in *; try done; lia. }
  cbn [andb]. by rewrite Hu, IH.
Qed.

Lemma snowflake_string (sid : jsstring) :
  is_snowflake sid = true ->
  is_string sid = true /\ well_formed sid = true /\ head sid <> Some 0xFEFF /\ sid <> [].
Proof.
  unfold is_snowflake. destruct sid as [|d sid]; [done|].
  intros Hd. rewrite forallb_forall in Hd.
  assert (Hdigits : Forall (fun u => 48 <= u <= 57) (d :: sid)).
  { apply Forall_forall. intros u Hu. apply list_elem_of_In, Hd in Hu.
    apply andb_true_iff in Hu as [H0 H1]. apply Z.leb_le in H0, H1. lia. }
  split; [|split; [|split]].
  - unfold is_string. apply forallb_forall. intros u Hu.
    apply list_elem_of_In in Hu. rewrite Forall_forall in Hdigits.
    specialize (Hdigits u Hu). apply andb_true_iff. rewrite !Z.leb_le. lia.
  - apply well_formed_bmp. eapply Forall_impl; [exact Hdigits|].
    intros u Hu. simpl in Hu. unfold is_surrogate.
    destruct (Z.leb_spec 0xD800 u); [lia|done].
  - apply Forall_cons in Hdigits as [Hd0 _]. simpl. intros [= ->]. lia.
  - done.
Qed.

Lemma embedsChanged_stored (newEmbeds : list APIEmbed) :
  Forall stores_faithfully newEmbeds ->
  embedsChanged (map stored_embed newEmbeds) newEmbeds = false.
Proof.
  intros Hall. apply embedsChanged_false. split; [by rewrite length_map|].
  intros i o n Ho Hn. rewrite list_lookup_fmap, Hn in Ho. injection Ho as <-.
  rewrite Forall_forall in Hall.
  destruct (Hall n) as [? ?]; [by eapply list_elem_of_lookup_2|done].
Qed.

Lemma stored_title (e : APIEmbed) (title : jsstring) :
  stores_faithfully e -> embed_title e = Some title ->
  embed_title (stored_embed e) = Some title.
Proof.
  intros [Hkept _]. unfold embed_title.
  destruct (e !! "title"%string) as [[s|n]|] eqn:He; try done. intros [= ->].
  by rewrite (Hkept "title"%string (VStr title)).
Qed.

Lemma hides_stored (sourceId : jsstring) (m : Message)
    (e0 : APIEmbed) (rest : list APIEmbed) (fileName : jsstring) :
  is_snowflake sourceId = true ->
  embeds m = map stored_embed (e0 :: rest) ->
  embed_title e0 = Some (fileName ++ encode sourceId) ->
  fileName <> [] -> plain fileName = true ->
  stores_faithfully e0 ->
  hides_source_id sourceId m = Ret true.
Proof.
  intros Hid Hm Ht Hne Hplain Hst.
  apply snowflake_string in Hid as (Hstr & Hwf & Hbom & _).
  unfold hides_source_id. rewrite Hm. cbn [map].
  rewrite (stored_title e0 _ Hst Ht).
  destruct fileName as [|u fileName]; [done|]. cbn [app].
  destruct (decode_encode sourceId Hstr Hwf Hbom) as [Hbytes Hdecode].
  change (u :: fileName ++ encode sourceId) with ((u :: fileName) ++ encode sourceId).
  rewrite encode_write_nibbles by done.
  rewrite decodeAppendedInvisible_suffix;
    [|by apply plain_spec|by apply nibbles_of_bytes].
  rewrite <- encode_write_nibbles, Hdecode by done.
  simpl. f_equal. by apply bool_decide_eq_true.
Qed.

Lemma buildEmbed_first (sourceId : jsstring) (file : File) (e : APIEmbed) :
  buildEmbed sourceId 0 file = Ret e ->
  exists fileName, name file = Some fileName /\ fileName <> []
    /\ embed_title e = Some (fileName ++ encode sourceId).
Proof.
  intros Hb. apply buildEmbed_Ret in Hb as (Hc & _ & Ht).
  unfold complete in Hc.
  destruct (name file) as [[|u fileName]|]; try done.
  by exists (u :: fileName).
Qed.

Lemma create_first_title (drive : jsstring -> DriveResponse)
    (fileIds : list jsstring) (sourceId : jsstring) (payload : MessagePayload) :
  createEmbedsMessage drive fileIds sourceId = Ret (Some payload) ->
  exists file files e0 rest fileName,
    resolveFiles drive fileIds = Ret (file :: files)
    /\ name file = Some fileName /\ fileName <> []
    /\ payload_embeds payload = e0 :: rest
    /\ embed_title e0 = Some (fileName ++ encode sourceId).
Proof.
  unfold createEmbedsMessage.
  destruct (resolveFiles drive fileIds) as [[|file files]|e]; [done| |done].
  cbn [obind length Nat.eqb]. unfold buildEmbeds. cbn [imap mapM obind].
  destruct (buildEmbed sourceId 0 file) as [e0|] eqn:He0; [|done]. cbn [obind].
  destruct (mapM _ _) as [rest|]; [|done]. cbn [obind].
  intros [= <-].
  apply buildEmbed_first in He0 as (fileName & Hn & Hne & Ht).
  by exists file, files, e0, rest, fileName.
Qed.

(** *** The channel under the requests of a call *)

Lemma effect_fixed (w : World) (ev : event) :
  drive (effect w ev) = drive w /\ botUserId (effect w ev) = botUserId w.
Proof. destruct ev; simpl; try done. unfold send. by destruct (fresh_message _). Qed.

Lemma apply_event_fixed (w : World) (ev : event) :
  drive (apply_event w ev) = drive w /\ botUserId (apply_event w ev) = botUserId w.
Proof. unfold apply_event. destruct (refused _ _); [done|apply effect_fixed]. Qed.

Lemma apply_event_accepted (w : World) (ev : event) :
  refused (channel w) ev = None -> apply_event w ev = effect w ev.
Proof. unfold apply_event. by intros ->. Qed.

Lemma apply_event_refused (w : World) (ev : event) (e : exn) :
  refused (channel w) ev = Some e -> apply_event w ev = w.
Proof. unfold apply_event. by intros ->. Qed.

Lemma after_events_fixed (w : World) (evs : list event) :
  drive (after_events w evs) = drive w /\ botUserId (after_events w evs) = botUserId w.
Proof.
  unfold after_events. revert w. induction evs as [|ev evs IH]; intros w; [done|].
  simpl. destruct (IH (apply_event w ev)) as [-> ->]. apply apply_event_fixed.
Qed.

Lemma after_events_app (w : World) (evs1 evs2 : list event) :
  after_events w (evs1 ++ evs2) = after_events (after_events w evs1) evs2.
Proof. unfold after_events. apply fold_left_app. Qed.

Lemma apply_event_lookup (w : World) (ev : event) :
  is_fetch ev || is_sleep ev = true -> apply_event w ev = w.
Proof. unfold apply_event. destruct (refused _ _); [done|]. by destruct ev. Qed.

Lemma after_lookup_requests (w : World) (sourceId : jsstring) (k : nat) :
  after_events w (lookup_requests sourceId k) = w.
Proof.
  unfold lookup_requests, after_events. induction k as [|k IH].
  - cbn. by apply apply_event_lookup.
  - cbn [replicate concat app fold_left]. by rewrite !apply_event_lookup.
Qed.

Lemma filter_fmap_fixed {A} (P : A -> Prop) `{!forall x, Decision (P x)}
    (f : A -> A) (l : list A) :
  (forall x, P (f x) <-> P x) ->
  filter P (f <$> l) = f <$> filter P l.
Proof.
  intros Hf. induction l as [|x l IH]; [done|].
  rewrite fmap_cons, !filter_cons.
  destruct (decide (P (f x))) as [Hy|Hn], (decide (P x)) as [Hy'|Hn'].
  - rewrite fmap_cons. by f_equal.
  - destruct Hn'. by apply Hf.
  - destruct Hn. by apply Hf.
  - exact IH.
Qed.

Lemma fetch_after_suppress (w : World) (sourceId : jsstring) (suppress : bool) (limit : nat) :
  fetch_after (set_suppress w sourceId suppress) sourceId limit
  = fetch_after w sourceId limit.
Proof.
  unfold fetch_after, set_suppress. cbn [channel]. f_equal. f_equal.
  induction (channel w) as [|m l IH]; [done|].
  cbn [map]. rewrite !filter_cons.
  destruct (bool_decide (id m = sourceId)) eqn:Hid.
  - apply bool_decide_eq_true in Hid. cbn [id].
    destruct (decide (snowflake_value sourceId < snowflake_value (id m))) as [Hlt|_];
      [rewrite Hid in Hlt; lia|done].
  - destruct (decide _); by rewrite IH.
Qed.

Lemma scan_unique (botUserId sourceId : jsstring) (history : list Message) (m : Message) :
  no_match botUserId sourceId history ->
  authorId m = botUserId ->
  hides_source_id sourceId m = Ret true ->
  scan botUserId sourceId (m :: history) = Ret (Some m).
Proof.
  intros Hno Ha Hm. unfold scan.
  set (l := sort _ _).
  assert (Hin : m ∈ l).
  { subst l. rewrite sort_Permutation, filter_cons.
    destruct (decide (authorId m = botUserId)); [left|done]. }
  assert (Hall : forall x, x ∈ l -> x = m \/ hides_source_id sourceId x = Ret false).
  { intros x Hx. subst l. rewrite sort_Permutation in Hx.
    apply list_elem_of_filter in Hx as [Hax Hx].
    apply elem_of_cons in Hx as [->|Hx]; [by left|right; by apply Hno]. }
  clearbody l. induction l as [|x l IH]; [by apply elem_of_nil in Hin|].
  cbn [find_outcome].
  destruct (Hall x) as [->|Hx]; [left| |].
  - by rewrite Hm.
  - rewrite Hx. cbn [obind]. apply IH.
    + apply elem_of_cons in Hin as [->|Hin]; [congruence|done].
    + intros y Hy. apply Hall. by right.
Qed.

Lemma fetch_after_send (w : World) (payload : MessagePayload) (sourceId : jsstring) :
  snowflake_value sourceId < snowflake_value (fresh_message (channel w)).1 ->
  (length (filter (fun m => (snowflake_value sourceId < snowflake_value (id m))%Z)
                  (channel w)) < 10)%nat ->
  exists m,
    fetch_after (send w payload) sourceId 10 = m :: fetch_after w sourceId 10
    /\ authorId m = botUserId w
    /\ embeds m = map stored_embed (payload_embeds payload).
Proof.
  intros Hfresh Hwin. unfold fetch_after, send.
  destruct (fresh_message (channel w)) as [i t]. cbn [fst] in Hfresh. cbn [channel].
  exists {| id := i; authorId := botUserId w; createdTimestamp := t; content := [];
            embeds := map stored_embed (payload_embeds payload);
            flags := payload_flags payload |}.
  split; [|done].
  rewrite filter_app, filter_cons. cbn [id].
  destruct (decide (snowflake_value sourceId < snowflake_value i)); [|done].
  rewrite filter_nil.
  rewrite !take_ge by (rewrite ?length_app; simpl; lia).
  by rewrite reverse_app.
Qed.

Lemma insert_sorted_fmap {A} (compare : A -> A -> Z) (f : A -> A) (a : A) (l : list A) :
  (forall x y, compare (f x) (f y) = compare x y) ->
  insert_sorted compare (f a) (f <$> l) = f <$> insert_sorted compare a l.
Proof.
  intros Hf. induction l as [|b l IH]; [done|].
  rewrite fmap_cons. cbn [insert_sorted]. rewrite Hf.
  destruct (compare a b <=? 0); [done|]. by rewrite IH, fmap_cons.
Qed.

Lemma sort_fmap {A} (compare : A -> A -> Z) (f : A -> A) (l : list A) :
  (forall x y, compare (f x) (f y) = compare x y) ->
  sort compare (f <$> l) = f <$> sort compare l.
Proof.
  intros Hf. induction l as [|a l IH]; [done|].
  rewrite fmap_cons. cbn [sort]. by rewrite IH, insert_sorted_fmap.
Qed.

Lemma with_embeds_fixed (target : jsstring) (storedEmbeds : list APIEmbed) (m : Message) :
  id (with_embeds target storedEmbeds m) = id m
  /\ authorId (with_embeds target storedEmbeds m) = authorId m
  /\ createdTimestamp (with_embeds target storedEmbeds m) = createdTimestamp m.
Proof. unfold with_embeds. by destruct (bool_decide _). Qed.

Lemma fetch_after_edit (w : World) (target : jsstring) (payload : MessagePayload)
    (sourceId : jsstring) (limit : nat) :
  fetch_after (edit w target payload) sourceId limit
  = with_embeds target (map stored_embed (payload_embeds payload))
      <$> fetch_after w sourceId limit.
Proof.
  unfold fetch_after, edit. cbn [channel].
  change (map ?f (channel w)) with
    (with_embeds target (map stored_embed (payload_embeds payload)) <$> channel w).
  rewrite filter_fmap_fixed.
  - by rewrite <- fmap_take, fmap_reverse.
  - intros m. by destruct (with_embeds_fixed target
                             (map stored_embed (payload_embeds payload)) m) as (-> & _).
Qed.

Lemma scan_edit (w : World) (target : jsstring) (payload : MessagePayload)
    (sourceId : jsstring) (m : Message) :
  scan (botUserId w) sourceId (fetch_after w sourceId 10) = Ret (Some m) ->
  id m = target ->
  (forall x, embeds x = map stored_embed (payload_embeds payload) ->
     hides_source_id sourceId x = Ret true) ->
  exists m',
    scan (botUserId w) sourceId (fetch_after (edit w target payload) sourceId 10)
      = Ret (Some m')
    /\ embeds m' = map stored_embed (payload_embeds payload).
Proof.
  intros Hscan Hid Hhides. rewrite fetch_after_edit. unfold scan in *.
  set (f := with_embeds target (map stored_embed (payload_embeds payload))).
  rewrite (filter_fmap_fixed (fun m => authorId m = botUserId w) f).
  2:{ intros x. subst f.
      by destruct (with_embeds_fixed target
                     (map stored_embed (payload_embeds payload)) x) as (_ & -> & _). }
  rewrite sort_fmap.
  2:{ intros x y. subst f.
      destruct (with_embeds_fixed target (map stored_embed (payload_embeds payload)) x)
        as (_ & _ & ->).
      by destruct (with_embeds_fixed target (map stored_embed (payload_embeds payload)) y)
        as (_ & _ & ->). }
  apply find_outcome_Some in Hscan as (l1 & l2 & -> & Hl1 & _).
  clear -Hl1 Hid Hhides.
  assert (Hf : forall x, id x = target -> embeds (f x)
                                         = map stored_embed (payload_embeds payload)).
  { intros x Hx. subst f. unfold with_embeds. by rewrite bool_decide_eq_true_2. }
  induction Hl1 as [|x l1 Hx _ IH].
  - cbn [app]. rewrite fmap_cons. cbn [find_outcome].
    rewrite (Hhides (f m)) by by apply Hf. cbn. by exists (f m); split; [|apply Hf].
  - cbn [app]. rewrite fmap_cons. cbn [find_outcome].
    destruct (decide (id x = target)) as [Hxt|Hxt].
    + rewrite (Hhides (f x)) by by apply Hf. cbn. by exists (f x); split; [|apply Hf].
    + assert (f x = x) as ->.
      { subst f. unfold with_embeds. by rewrite bool_decide_eq_false_2. }
      rewrite Hx. cbn. exact IH.
Qed.

(** *** Requests that the chat service may refuse *)

Lemma await_each_served (w : World) (requests : list event) :
  served w requests (await_each w requests).1 (await_each w requests).2.
Proof.
  revert w. induction requests as [|ev requests IH]; intros w; cbn [await_each].
  - constructor.
  - destruct (refused (channel w) ev) as [e|] eqn:Hev; [by constructor|].
    specialize (IH (effect w ev)).
    destruct (await_each (effect w ev) requests) as [issued r]. by constructor.
Qed.

Lemma served_await_each (w : World) (requests issued : list event) (r : outcome unit) :
  served w requests issued r -> await_each w requests = (issued, r).
Proof.
  induction 1 as [w|w ev requests e Hev|w ev requests issued r Hev _ IH];
    cbn [await_each]; rewrite ?Hev; [done|done|by rewrite IH].
Qed.

Lemma served_prefix (w : World) (requests issued : list event) (r : outcome unit) :
  served w requests issued r -> exists rest, requests = issued ++ rest.
Proof.
  induction 1 as [w|w ev requests e Hev|w ev requests issued r Hev _ [rest ->]].
  - by exists [].
  - by exists requests.
  - by exists rest.
Qed.

Lemma served_result (w : World) (requests issued : list event) (r : outcome unit) :
  served w requests issued r ->
  match r with
  | Ret _ => issued = requests
  | Throw e =>
      exists accepted ev,
        issued = accepted ++ [ev]
        /\ refused (channel (after_events w accepted)) ev = Some e
  end.
Proof.
  induction 1 as [w|w ev requests e Hev|w ev requests issued r Hev _ IH].
  - done.
  - by exists [], ev.
  - destruct r as [[]|e]; [by rewrite IH|].
    destruct IH as (accepted & ev' & -> & Hev').
    exists (ev :: accepted), ev'. split; [done|].
    cbn [after_events fold_left]. by rewrite apply_event_accepted.
Qed.

(** *** Successive calls on an unchanged source message *)

Lemma count_app (p : event -> bool) (evs1 evs2 : list event) :
  count p (evs1 ++ evs2) = (count p evs1 + count p evs2)%nat.
Proof. unfold count. by rewrite List.filter_app, length_app. Qed.

Lemma quiet_lookup_requests (sourceId : jsstring) (k : nat) :
  quiet (lookup_requests sourceId k).
Proof.
  unfold quiet, lookup_requests, count. induction k as [|k IH]; [done|]. exact IH.
Qed.

Lemma quiet_suppressEmbeds (message : Message) (fileUrls : list jsstring) :
  quiet (suppressEmbeds message fileUrls).
Proof. unfold suppressEmbeds. by destruct (Bool.eqb _ _). Qed.

Lemma quiet_app (evs1 evs2 : list event) :
  quiet evs1 -> quiet evs2 -> quiet (evs1 ++ evs2).
Proof. unfold quiet. rewrite !count_app. lia. Qed.

Lemma quiet_served (w : World) (requests issued : list event) (r : outcome unit) :
  served w requests issued r -> quiet requests -> quiet issued.
Proof.
  intros Hs. apply served_prefix in Hs as [rest ->].
  unfold quiet. rewrite !count_app. lia.
Qed.

Lemma fetch_after_suppressions (w : World) (sourceId : jsstring) (evs : list event)
    (limit : nat) :
  Forall (fun ev => exists suppress, ev = EvSuppressEmbeds sourceId suppress) evs ->
  fetch_after (after_events w evs) sourceId limit = fetch_after w sourceId limit.
Proof.
  intros Hall. revert w. induction Hall as [|ev evs [suppress ->] _ IH]; intros w; [done|].
  cbn [after_events fold_left]. fold (after_events (apply_event w (EvSuppressEmbeds sourceId suppress)) evs).
  rewrite IH. unfold apply_event. destruct (refused _ _); [done|].
  apply fetch_after_suppress.
Qed.

Lemma suppressEmbeds_suppressions (message : Message) (fileUrls : list jsstring) :
  Forall (fun ev => exists suppress, ev = EvSuppressEmbeds (id message) suppress)
         (suppressEmbeds message fileUrls).
Proof.
  unfold suppressEmbeds. destruct (Bool.eqb _ _); repeat constructor. by eexists.
Qed.

Section Calls.
Variable sourceMessage : Message.

Lemma quiet_suppress_step (options : UpdateOptions) :
  quiet (suppress_step sourceMessage options).
Proof.
  destruct options as [|b|[]]; cbn; try apply quiet_suppressEmbeds. done.
Qed.

Lemma suppress_step_suppressions (options : UpdateOptions) :
  Forall (fun ev => exists suppress, ev = EvSuppressEmbeds (id sourceMessage) suppress)
         (suppress_step sourceMessage options).
Proof.
  destruct options as [|b|[]]; cbn [suppress_step];
    first [apply suppressEmbeds_suppressions | constructor].
Qed.

(** The channel after a part of the last step of a call, as the lookup
    of the next call sees it. *)
Lemma fetch_after_served_suppress (w : World) (options : UpdateOptions)
    (issued : list event) (r : outcome unit) (limit : nat) :
  served w (suppress_step sourceMessage options) issued r ->
  fetch_after (after_events w issued) (id sourceMessage) limit
  = fetch_after w (id sourceMessage) limit.
Proof.
  intros Hs. apply served_prefix in Hs as [rest Hrest].
  apply fetch_after_suppressions.
  pose proof (suppress_step_suppressions options) as Hall.
  rewrite Hrest in Hall. by apply Forall_app in Hall as [? _].
Qed.

(** What a call does, by the old embeds message and the new embeds.  The
    requests [evs] of the lookup leave the channel as it is. *)
Lemma update_shape (fuel : nat) (w : World) (options : UpdateOptions) :
  (3 <= fuel)%nat ->
  created_without_shadow sourceMessage options w = true ->
  exists evs,
    quiet evs /\ after_events w evs = w
    /\ updateEmbedsMessage fuel w sourceMessage options =
       Some (match old_in sourceMessage w, new_in sourceMessage w with
             | Throw e, Throw e' => (evs, Throw (if lookup_rejects_first then e else e'))
             | Throw e, Ret _ | Ret _, Throw e => (evs, Throw e)
             | Ret oldEmbedsMessage, Ret newEmbedsMessage =>
                 match oldEmbedsMessage, newEmbedsMessage with
                 | None, None => (evs, Ret ())
                 | _, _ =>
                     let '(issued, r) :=
                       await_each w (write_step oldEmbedsMessage newEmbedsMessage
                                     ++ suppress_step sourceMessage options) in
                     (evs ++ issued, r)
                 end
             end).
Proof.
  intros Hfuel Hcreated.
  destruct (is_created options) eqn:Hc.
  - exists []. split; [done|]. split; [done|].
    unfold created_without_shadow in Hcreated. rewrite Hc in Hcreated.
    destruct options as [|[]|b]; try discriminate.
    unfold updateEmbedsMessage. fold (new_in sourceMessage w).
    destruct (old_in sourceMessage w) as [[old|]|e]; try discriminate.
    cbn -[await_each]. by destruct (new_in sourceMessage w) as [[new|]|e].
  - destruct (retrieve_core (fun _ => fetch_after w) (botUserId w) sourceMessage 2 fuel 0)
      as (evs & r & k & Hr & _ & -> & _ & -> & _); [lia|].
    exists (lookup_requests (id sourceMessage) k).
    split; [apply quiet_lookup_requests|]. split; [apply after_lookup_requests|].
    change (Z.of_nat 2) with 2 in Hr. unfold updateEmbedsMessage.
    fold (new_in sourceMessage w).
    fold (old_in sourceMessage w) in Hr |- *.
    destruct options as [|[]|[]]; try discriminate; cbn -[await_each]; rewrite Hr;
      cbn -[await_each];
      destruct (old_in sourceMessage w) as [[old|]|e];
      destruct (new_in sourceMessage w) as [[new|]|e']; reflexivity.
Qed.

Lemma new_in_fixed (w w' : World) :
  drive w' = drive w -> new_in sourceMessage w' = new_in sourceMessage w.
Proof. unfold new_in. by intros ->. Qed.

Lemma settled_step (fuel : nat) (w w' : World) (options : UpdateOptions) :
  (3 <= fuel)%nat -> is_created options = false -> settled sourceMessage w w' ->
  exists evs r,
    updateEmbedsMessage fuel w' sourceMessage options = Some (evs, r)
    /\ quiet evs /\ settled sourceMessage w (after_events w' evs).
Proof.
  intros Hfuel Hc (Hdrive & Hbot & Hsync).
  destruct (update_shape fuel w' options Hfuel) as (evs0 & Hq & Hw & ->).
  { unfold created_without_shadow. rewrite Hc. by destruct (old_in _ _) as [[]|]. }
  rewrite (new_in_fixed w w') by done.
  assert (Hfixed : forall evs, drive (after_events w' evs) = drive w
                               /\ botUserId (after_events w' evs) = botUserId w).
  { intros evs. destruct (after_events_fixed w' evs) as [-> ->]. done. }
  assert (Hrest : settled sourceMessage w (after_events w' evs0)).
  { rewrite Hw. by split; [|split]. }
  destruct (new_in sourceMessage w) as [[payload|]|e] eqn:Hnew.
  - destruct (old_in sourceMessage w') as [[old|]|e] eqn:Hold; [|done|by eexists _, _].
    cbn [write_step]. rewrite Hsync. cbn [app].
    pose proof (await_each_served w' (suppress_step sourceMessage options)) as Hserved.
    destruct (await_each w' (suppress_step sourceMessage options)) as [issued r].
    cbn [fst snd] in Hserved.
    eexists _, _. split; [done|]. split.
    + apply quiet_app; [done|].
      eapply quiet_served; [exact Hserved|apply quiet_suppress_step].
    + destruct (Hfixed (evs0 ++ issued)) as [Hd Hb].
      split; [done|]. split; [done|]. rewrite Hnew.
      unfold old_in in *. rewrite Hb, <- Hbot.
      rewrite after_events_app, Hw, (fetch_after_served_suppress _ _ _ _ _ Hserved).
      by rewrite Hold.
  - destruct (old_in sourceMessage w') as [[old|]|e] eqn:Hold;
      [|by eexists _, _|by eexists _, _].
    cbn [write_step app].
    pose proof (await_each_served w' (EvDelete (id old)
                                      :: suppress_step sourceMessage options)) as Hserved.
    destruct (await_each w' _) as [issued r]. cbn [fst snd] in Hserved.
    eexists _, _. split; [done|]. split.
    + apply quiet_app; [done|].
      eapply quiet_served; [exact Hserved|].
      apply (quiet_app [EvDelete (id old)]); [done|apply quiet_suppress_step].
    + destruct (Hfixed (evs0 ++ issued)) as [? ?].
      split; [done|]. split; [done|]. by rewrite Hnew.
  - destruct (old_in sourceMessage w') as [old|e0] eqn:Hold; by eexists _, _.
Qed.

Lemma settled_resync (fuel : nat) (options : list UpdateOptions) (w w' : World) :
  (3 <= fuel)%nat ->
  Forall (fun o => is_created o = false) options ->
  settled sourceMessage w w' ->
  exists traces,
    resync fuel options w' sourceMessage = Some traces
    /\ length traces = length options /\ Forall quiet traces.
Proof.
  intros Hfuel Hopts. revert w'.
  induction Hopts as [|o options Ho _ IH]; intros w' Hs.
  - by exists [].
  - destruct (settled_step fuel w w' o Hfuel Ho Hs) as (evs & r & Hu & Hq & Hs').
    destruct (IH _ Hs') as (traces & Ht & Hlen & Hqs).
    exists (evs :: traces). cbn [resync]. rewrite Hu. cbn. rewrite Ht. cbn.
    split; [done|]. split; [by rewrite Hlen|]. by constructor.
Qed.

Lemma first_call (fuel : nat) (w : World) (options : UpdateOptions) :
  (3 <= fuel)%nat ->
  is_snowflake (id sourceMessage) = true ->
  first_name_plain sourceMessage w = true ->
  stored_as_sent sourceMessage w ->
  write_accepted sourceMessage w ->
  room_for_shadow sourceMessage w = true ->
  created_without_shadow sourceMessage options w = true ->
  exists evs r,
    updateEmbedsMessage fuel w sourceMessage options = Some (evs, r)
    /\ (count is_send evs <= 1)%nat
    /\ settled sourceMessage w (after_events w evs).
Proof.
  intros Hfuel Hid Hname Hstored Haccepted Hroom Hcreated.
  destruct (update_shape fuel w options Hfuel Hcreated) as (evs0 & [Hqs Hqe] & Hw & Hk).
  destruct (quiet_suppress_step options) as [Hss Hse].
  assert (Hfixed : forall evs, drive (after_events w evs) = drive w
                               /\ botUserId (after_events w evs) = botUserId w).
  { intros evs. apply after_events_fixed. }
  assert (Hrest : forall r : outcome unit, exists evs r',
            Some (evs0, r) = Some (evs, r')
            /\ (count is_send evs <= 1)%nat
            /\ (match new_in sourceMessage w with
                | Ret (Some _) =>
                    match old_in sourceMessage w with Throw _ => True | _ => False end
                | _ => True
                end -> settled sourceMessage w (after_events w evs))).
  { intros r. exists evs0, r. split; [done|]. rewrite Hqs. split; [lia|].
    intros Hcase. rewrite Hw. split; [done|]. split; [done|].
    destruct (new_in sourceMessage w) as [[payload|]|e]; [|done|done].
    by destruct (old_in sourceMessage w) as [[old|]|e]. }
  destruct (new_in sourceMessage w) as [[payload|]|e] eqn:Hnew.
  2:{ destruct (old_in sourceMessage w) as [[old|]|e] eqn:Hold.
      - cbn [write_step app] in Hk.
        pose proof (await_each_served w (EvDelete (id old)
                                         :: suppress_step sourceMessage options)) as Hserved.
        destruct (await_each w _) as [issued r]. cbn [fst snd] in Hserved.
        eexists _, _. split; [exact Hk|].
        assert (Hq : quiet issued).
        { eapply quiet_served; [exact Hserved|].
          apply (quiet_app [EvDelete (id old)]); [done|apply quiet_suppress_step]. }
        destruct Hq as [Hq _]. rewrite count_app, Hqs, Hq. split; [lia|].
        destruct (Hfixed (evs0 ++ issued)) as [? ?].
        split; [done|]. split; [done|]. by rewrite Hnew.
      - destruct (Hrest (Ret ())) as (evs & r' & [= <- <-] & ? & Hs).
        eexists _, _. split; [exact Hk|]. split; [done|]. by apply Hs.
      - destruct (Hrest (Throw e)) as (evs & r' & [= <- <-] & ? & Hs).
        eexists _, _. split; [exact Hk|]. split; [done|]. by apply Hs. }
  2:{ destruct (old_in sourceMessage w) as [old|e0] eqn:Hold.
      - destruct (Hrest (Throw e)) as (evs & r' & [= <- <-] & ? & Hs).
        eexists _, _. split; [exact Hk|]. split; [done|]. by apply Hs.
      - destruct (Hrest (Throw (if lookup_rejects_first then e0 else e)))
          as (evs & r' & [= <- <-] & ? & Hs).
        eexists _, _. split; [exact Hk|]. split; [done|]. by apply Hs. }
  specialize (Hstored payload Hnew). specialize (Haccepted payload Hnew).
  pose proof Hnew as Hcreate. unfold new_in in Hcreate.
  apply create_first_title in Hcreate
    as (file & files & e0 & rest & fileName & Hres & Hn & Hne & Hembeds & Htitle).
  unfold first_name_plain in Hname. rewrite Hres, Hn in Hname. cbn [default] in Hname.
  assert (Hhides : forall x, embeds x = map stored_embed (payload_embeds payload) ->
                     hides_source_id (id sourceMessage) x = Ret true).
  { intros x Hx. rewrite Hembeds in Hx.
    apply (hides_stored _ x e0 rest fileName); try done.
    rewrite Hembeds in Hstored. by apply Forall_cons in Hstored as [? _]. }
  pose proof (embedsChanged_stored _ Hstored) as Hsame.
  destruct (old_in sourceMessage w) as [[old|]|e] eqn:Hold.
  - (* an embeds message exists *)
    cbn [write_step] in Hk.
    destruct (embedsChanged (embeds old) (payload_embeds payload)) eqn:Hchanged.
    + cbn [app await_each] in Hk. rewrite Haccepted in Hk.
      pose proof (await_each_served (effect w (EvEdit (id old) payload))
                    (suppress_step sourceMessage options)) as Hserved.
      destruct (await_each (effect w (EvEdit (id old) payload)) _) as [issued r].
      cbn [fst snd] in Hserved.
      eexists _, _. split; [exact Hk|].
      destruct (quiet_served _ _ _ _ Hserved (quiet_suppress_step options)) as [Hq _].
      split.
      { change (EvEdit (id old) payload :: issued)
          with ([EvEdit (id old) payload] ++ issued).
        rewrite !count_app, Hqs, Hq. simpl. lia. }
      destruct (Hfixed (evs0 ++ EvEdit (id old) payload :: issued)) as [Hd Hb].
      split; [done|]. split; [done|]. rewrite Hnew.
      unfold old_in in *. rewrite Hb.
      change (EvEdit (id old) payload :: issued)
        with ([EvEdit (id old) payload] ++ issued).
      rewrite !after_events_app, Hw.
      change (after_events w [EvEdit (id old) payload])
        with (apply_event w (EvEdit (id old) payload)).
      rewrite apply_event_accepted by done.
      rewrite (fetch_after_served_suppress _ _ _ _ _ Hserved). cbn [effect].
      destruct (scan_edit w (id old) payload (id sourceMessage) old Hold eq_refl Hhides)
        as (m' & -> & Hm').
      by rewrite Hm'.
    + cbn [app] in Hk.
      pose proof (await_each_served w (suppress_step sourceMessage options)) as Hserved.
      destruct (await_each w _) as [issued r]. cbn [fst snd] in Hserved.
      eexists _, _. split; [exact Hk|].
      destruct (quiet_served _ _ _ _ Hserved (quiet_suppress_step options)) as [Hq _].
      split; [rewrite count_app, Hqs, Hq; lia|].
      destruct (Hfixed (evs0 ++ issued)) as [Hd Hb].
      split; [done|]. split; [done|]. rewrite Hnew.
      unfold old_in in *. rewrite Hb.
      rewrite after_events_app, Hw, (fetch_after_served_suppress _ _ _ _ _ Hserved).
      by rewrite Hold.
  - (* no embeds message yet *)
    unfold room_for_shadow in Hroom. rewrite Hold in Hroom.
    apply andb_true_iff in Hroom as [Hfresh Hwin].
    apply bool_decide_eq_true in Hfresh. apply Nat.ltb_lt in Hwin.
    cbn [write_step app await_each] in Hk. rewrite Haccepted in Hk.
    pose proof (await_each_served (effect w (EvSend payload))
                  (suppress_step sourceMessage options)) as Hserved.
    destruct (await_each (effect w (EvSend payload)) _) as [issued r].
    cbn [fst snd] in Hserved.
    eexists _, _. split; [exact Hk|].
    destruct (quiet_served _ _ _ _ Hserved (quiet_suppress_step options)) as [Hq _].
    split.
    { change (EvSend payload :: issued) with ([EvSend payload] ++ issued).
      rewrite !count_app, Hqs, Hq. simpl. lia. }
    destruct (Hfixed (evs0 ++ EvSend payload :: issued)) as [Hd Hb].
    split; [done|]. split; [done|]. rewrite Hnew.
    unfold old_in in *. rewrite Hb.
    change (EvSend payload :: issued) with ([EvSend payload] ++ issued).
    rewrite !after_events_app, Hw.
    change (after_events w [EvSend payload]) with (apply_event w (EvSend payload)).
    rewrite apply_event_accepted by done.
    rewrite (fetch_after_served_suppress _ _ _ _ _ Hserved). cbn [effect].
    destruct (fetch_after_send w payload (id sourceMessage) Hfresh Hwin)
      as (m & -> & Ha & Hm).
    rewrite scan_unique; [by rewrite Hm| |done|by apply Hhides].
    by apply scan_None.
  - (* the lookup fails *)
    destruct (Hrest (Throw e)) as (evs & r' & [= <- <-] & ? & Hs).
    eexists _, _. split; [exact Hk|]. split; [done|]. by apply Hs.
Qed.

End Calls.

Lemma quiet_sends (traces : list (list event)) :
  Forall quiet traces -> sum_list (map (count is_send) traces) = O.
Proof.
  induction 1 as [|evs traces [Hs _] _ IH]; [done|]. cbn. by rewrite Hs, IH.
Qed.

(** C2, as it holds: let the source message have a snowflake id; let the
    name of the first resolved file contain no reserved code point; let
    the chat service return the new embeds as they are sent (every field
    with its value, the timestamp as the same instant) and accept them
    (as a message of their own when no embeds message exists, as an edit
    of the embeds message otherwise); and, when no embeds message exists
    yet, let fewer than 10 messages follow the source message (so that
    the message sent is among the 10 that the lookup reads).  Then
    successive calls of [updateEmbedsMessage] on the unchanged source
    message, of which only the first may say that the message is newly
    created (and then no embeds message exists yet), all return, send at
    most one message in total, and every call after the first neither
    sends nor edits. *)
Theorem resync_sends_once (fuel : nat) (first : UpdateOptions)
    (later : list UpdateOptions) (w : World) (sourceMessage : Message) :
  (3 <= fuel)%nat ->
  is_snowflake (id sourceMessage) = true ->
  first_name_plain sourceMessage w = true ->
  stored_as_sent sourceMessage w ->
  write_accepted sourceMessage w ->
  room_for_shadow sourceMessage w = true ->
  created_without_shadow sourceMessage first w = true ->
  Forall (fun o => is_created o = false) later ->
  exists traces,
    resync fuel (first :: later) w sourceMessage = Some traces
    /\ length traces = S (length later)
    /\ (sum_list (map (count is_send) traces) <= 1)%nat
    /\ Forall (fun evs => count is_send evs = O /\ count is_edit evs = O) (tail traces).
Proof.
  intros Hfuel Hid Hname Hstored Haccepted Hroom Hcreated Hlater.
  destruct (first_call sourceMessage fuel w first Hfuel Hid Hname Hstored Haccepted
              Hroom Hcreated) as (evs & r & Hu & Hsend & Hs).
  destruct (settled_resync sourceMessage fuel later w _ Hfuel Hlater Hs)
    as (traces & Ht & Hlen & Hq).
  exists (evs :: traces). cbn [resync]. rewrite Hu. cbn. rewrite Ht. cbn.
  split; [done|]. split; [by rewrite Hlen|]. split.
  - rewrite quiet_sends by done. lia.
  - exact Hq.
Qed.

End Idempotence.

(** The two conditions on the chat service, in a form that can be
    evaluated. *)
Lemma stored_as_sent_evaluated `{Platform} (sourceMessage : Message) (w : World) :
  match new_in sourceMessage w with
  | Ret (Some payload) =>
      forallb (fun e => negb (embedChanged [e] 0 (stored_embed e))) (payload_embeds payload)
  | _ => true
  end = true ->
  stored_as_sent sourceMessage w.
Proof.
  intros Heval payload Hnew. rewrite Hnew in Heval.
  apply Forall_forall. intros e He.
  rewrite forallb_forall in Heval. apply list_elem_of_In, Heval in He.
  apply negb_true_iff, embedChanged_false in He as (e' & [= <-] & Hs & Hk). by split.
Qed.

Lemma write_accepted_evaluated `{Platform} (sourceMessage : Message) (w : World) :
  match new_in sourceMessage w, old_in sourceMessage w with
  | Ret (Some payload), Ret None =>
      match refused (channel w) (EvSend payload) with None => true | Some _ => false end
  | Ret (Some payload), Ret (Some old) =>
      match refused (channel w) (EvEdit (id old) payload) with
      | None => true
      | Some _ => false
      end
  | _, _ => true
  end = true ->
  write_accepted sourceMessage w.
Proof.
  intros Heval payload Hnew. rewrite Hnew in Heval.
  destruct (old_in sourceMessage w) as [[old|]|e]; [| |done].
  - by destruct (refused (channel w) (EvEdit (id old) payload)).
  - by destruct (refused (channel w) (EvSend payload)).
Qed.

Ltac evaluate :=
  first [ apply stored_as_sent_evaluated | apply write_accepted_evaluated | idtac ];
  vm_compute; reflexivity.

(** C2, as stated, fails, and each condition of the theorem is needed: in
    each of the following cases all the others hold.  A file whose name
    ends in two U+2060 WORD JOINER: the title of the embeds message no
    longer decodes to the source id, the lookup never finds the message,
    and every call sends another one.  10 messages that already follow
    the source message: the message sent is not among the 10 that the
    lookup reads, and every call sends again (with 9 of them, only the
    first call does).  A chat service that keeps timestamps to the second
    only: every later call edits the embeds message.  A source message
    with 11 links: the chat service refuses a message with 11 embeds, so
    no embeds message ever exists and every call sends again.  A second
    call that says that the message is newly created: it does not look
    for the embeds message, and sends a second one. *)
Lemma resync_sends_again :
  (is_snowflake (id Scenario.source) = true
   /\ stored_as_sent Scenario.source (Scenario.world (lit "report" ++ [0x2060; 0x2060]) 0)
   /\ write_accepted Scenario.source (Scenario.world (lit "report" ++ [0x2060; 0x2060]) 0)
   /\ room_for_shadow Scenario.source
        (Scenario.world (lit "report" ++ [0x2060; 0x2060]) 0) = true
   /\ first_name_plain Scenario.source
        (Scenario.world (lit "report" ++ [0x2060; 0x2060]) 0) = false
   /\ Scenario.sends_and_edits (Scenario.world (lit "report" ++ [0x2060; 0x2060]) 0)
      = Some [(1, 0); (1, 0); (1, 0); (1, 0)]%nat)
  /\ (first_name_plain Scenario.source (Scenario.world (lit "report.pdf") 10) = true
      /\ stored_as_sent Scenario.source (Scenario.world (lit "report.pdf") 10)
      /\ write_accepted Scenario.source (Scenario.world (lit "report.pdf") 10)
      /\ room_for_shadow Scenario.source (Scenario.world (lit "report.pdf") 10) = false
      /\ Scenario.sends_and_edits (Scenario.world (lit "report.pdf") 10)
         = Some [(1, 0); (1, 0); (1, 0); (1, 0)]%nat
      /\ Scenario.sends_and_edits (Scenario.world (lit "report.pdf") 9)
         = Some [(1, 0); (0, 0); (0, 0); (0, 0)]%nat)
  /\ (first_name_plain Scenario.source (Scenario.world (lit "report.pdf") 0) = true
      /\ @write_accepted Sample.to_the_second Scenario.source
           (Scenario.world (lit "report.pdf") 0)
      /\ @room_for_shadow Sample.to_the_second Scenario.source
           (Scenario.world (lit "report.pdf") 0) = true
      /\ @Scenario.tally Sample.to_the_second Scenario.history
           (Scenario.world (lit "report.pdf") 0) Scenario.source
         = Some [(1, 0); (0, 1); (0, 1); (0, 1)]%nat)
  /\ (first_name_plain Scenario.crowded Scenario.crowded_world = true
      /\ stored_as_sent Scenario.crowded Scenario.crowded_world
      /\ room_for_shadow Scenario.crowded Scenario.crowded_world = true
      /\ length (extractFileIds (content Scenario.crowded)) = 11%nat
      /\ Scenario.tally Scenario.history Scenario.crowded_world Scenario.crowded
         = Some [(1, 0); (1, 0); (1, 0); (1, 0)]%nat)
  /\ Scenario.tally [IsNewlyCreated true; IsNewlyCreated true]
       (Scenario.world (lit "report.pdf") 0) Scenario.source
     = Some [(1, 0); (1, 0)]%nat.
Proof.
  split; [|split; [|split; [|split]]]; repeat apply conj; evaluate.
Qed.

Lemma resync_sends_once_witness :
  exists traces,
    resync 3 Scenario.history (Scenario.world (lit "report.pdf") 0) Scenario.source
      = Some traces
    /\ length traces = 4%nat
    /\ (sum_list (map (count is_send) traces) <= 1)%nat
    /\ Forall (fun evs => count is_send evs = O /\ count is_edit evs = O) (tail traces).
Proof.
  apply (resync_sends_once 3 (IsNewlyCreated true)
           [IsEmbedsSuppressed false; IsEmbedsSuppressed true; NoOptions]
           (Scenario.world (lit "report.pdf") 0) Scenario.source).
  - lia.
  - reflexivity.
  - evaluate.
  - evaluate.
  - evaluate.
  - evaluate.
  - evaluate.
  - by repeat constructor.
Defined.

(** The same channel, evaluated: the first call sends, the others do
    nothing. *)
Example resync_sample :
  Scenario.sends_and_edits (Scenario.world (lit "report.pdf") 0)
  = Some [(1, 0); (0, 0); (0, 0); (0, 0)]%nat.
Proof. by vm_compute. Qed.

(** ** The theorems at work on the sample channel *)

Lemma locator_returns_first_match_witness :
  exists evs r k,
    retrieveOldEmbedsMessage 3 Scenario.late_history 0 (lit "42") Scenario.source 2
      = Some (evs, r)
    /\ (Z.of_nat k <= 2)
    /\ evs = lookup_requests (id Scenario.source) k
    /\ (forall j, (j < k)%nat ->
          nothing_found (lit "42") (id Scenario.source)
            (Scenario.late_history (0 + j)%nat (id Scenario.source) 10%nat))
    /\ match r with
       | Ret (Some m) =>
           found_first (lit "42") (id Scenario.source)
             (Scenario.late_history (0 + k)%nat (id Scenario.source) 10%nat) m
       | Ret None =>
           Z.of_nat k = 2
           /\ nothing_found (lit "42") (id Scenario.source)
                (Scenario.late_history (0 + k)%nat (id Scenario.source) 10%nat)
       | Throw e =>
           fails_first (lit "42") (id Scenario.source)
             (Scenario.late_history (0 + k)%nat (id Scenario.source) 10%nat) e
       end.
Proof.
  apply (locator_returns_first_match Scenario.late_history (lit "42") Scenario.source 2 3 0).
  - lia.
  - simpl. lia.
Defined.

Lemma locator_terminates_witness :
  exists evs r,
    retrieveOldEmbedsMessage 3 Scenario.late_history 0 (lit "42") Scenario.source 2
      = Some (evs, r)
    /\ (count is_fetch evs <= Z.to_nat 2 + 1)%nat
    /\ (count is_sleep evs <= Z.to_nat 2)%nat
    /\ Forall (fun ev => ev = EvFetch (id Scenario.source) 10 \/ ev = EvSleep 1000) evs.
Proof.
  apply (locator_terminates Scenario.late_history (lit "42") Scenario.source 2 3 0).
  - lia.
  - simpl. lia.
Defined.

(** The lookup of the sample: one miss, one wait, then the embeds
    message. *)
Example locator_sample :
  retrieveOldEmbedsMessage 3 Scenario.late_history 0 (lit "42") Scenario.source 2
  = Some ([EvFetch (lit "1000") 10; EvSleep 1000; EvFetch (lit "1000") 10],
          Ret (Some Scenario.shadow)).
Proof. by vm_compute. Qed.

Lemma builder_hides_id_in_first_title_witness :
  ((exists payload,
      createEmbedsMessage (Scenario.drive1 (lit "report.pdf")) [Scenario.fileId1]
        (lit "1000") = Ret (Some payload))
   <-> forall i file, [Scenario.file1 (lit "report.pdf")] !! i = Some file ->
         complete file = true /\ presentable (lit "1000") i file)
  /\ ((forall payload,
         createEmbedsMessage (Scenario.drive1 (lit "report.pdf")) [Scenario.fileId1]
           (lit "1000") <> Ret (Some payload))
      -> exists e,
           createEmbedsMessage (Scenario.drive1 (lit "report.pdf")) [Scenario.fileId1]
             (lit "1000") = Throw e)
  /\ forall payload,
       createEmbedsMessage (Scenario.drive1 (lit "report.pdf")) [Scenario.fileId1]
         (lit "1000") = Ret (Some payload) ->
       payload_flags payload = SuppressNotifications
       /\ length (payload_embeds payload) = length [Scenario.file1 (lit "report.pdf")]
       /\ forall i file,
            [Scenario.file1 (lit "report.pdf")] !! i = Some file ->
            exists e fileName,
              payload_embeds payload !! i = Some e /\ name file = Some fileName
              /\ embed_title e =
                   Some (if decide (i = O) then fileName ++ encode (lit "1000")
                         else fileName).
Proof.
  apply (builder_hides_id_in_first_title (Scenario.drive1 (lit "report.pdf"))
           [Scenario.fileId1] (lit "1000") [Scenario.file1 (lit "report.pdf")]).
  - vm_compute. reflexivity.
  - done.
Defined.

(** The titles of the sample: two links to the file, the id hidden in
    the first title only. *)
Example builder_sample :
  match createEmbedsMessage (Scenario.drive1 (lit "report.pdf"))
          [Scenario.fileId1; Scenario.fileId1] (lit "1000") with
  | Ret (Some payload) => map embed_title (payload_embeds payload)
  | _ => []
  end
  = [Some (lit "report.pdf" ++ encode (lit "1000")); Some (lit "report.pdf")].
Proof. vm_compute. reflexivity. Qed.

(** C5, as stated, fails: a non-empty list of resolved files does not
    always give embeds.  A file name of 219 code units and the 38
    invisible characters of a source id of 19 digits make a title of 257
    code units, which [setTitle] does not accept: [createEmbedsMessage]
    throws, and no embed carries the id (with a name of 218 code units
    it returns).  It throws as well for a link that is not a URL of the
    web, for a last-modified time that is not a date, and for a missing
    field. *)
Lemma builder_rejects_long_title :
  (complete (Scenario.file1 (replicate 215 (chr "a") ++ lit ".pdf")) = true
   /\ length (replicate 215 (chr "a") ++ lit ".pdf") = 219%nat
   /\ length (encode (lit "1234567890123456789")) = 38%nat
   /\ createEmbedsMessage (Scenario.drive1 (replicate 215 (chr "a") ++ lit ".pdf"))
        [Scenario.fileId1] (lit "1234567890123456789")
      = Throw (ValidationError "setTitle")
   /\ match createEmbedsMessage (Scenario.drive1 (replicate 214 (chr "a") ++ lit ".pdf"))
              [Scenario.fileId1] (lit "1234567890123456789") with
      | Ret (Some payload) => length (payload_embeds payload)
      | _ => O
      end = 1%nat)
  /\ createEmbedsMessage
       (fun _ => Found {| name := Some (lit "report.pdf");
                          webViewLink := Some (lit "drive.google.com/file/d/1/view");
                          mimeType := Some (lit "application/pdf");
                          modifiedTime := Some (lit "2024-03-01T12:34:56.789Z") |})
       [Scenario.fileId1] (lit "1000")
     = Throw (ValidationError "setURL")
  /\ createEmbedsMessage
       (fun _ => Found {| name := Some (lit "report.pdf");
                          webViewLink := Some Scenario.link1;
                          mimeType := Some (lit "application/pdf");
                          modifiedTime := Some (lit "yesterday") |})
       [Scenario.fileId1] (lit "1000")
     = Throw InvalidTimeValue
  /\ createEmbedsMessage
       (fun _ => Found {| name := Some (lit "report.pdf");
                          webViewLink := Some Scenario.link1;
                          mimeType := None;
                          modifiedTime := Some (lit "2024-03-01T12:34:56.789Z") |})
       [Scenario.fileId1] (lit "1000")
     = Throw MissingRequiredFields.
Proof.
  split; [|split; [|split]]; repeat apply conj; vm_compute; reflexivity.
Qed.

Lemma resolver_keeps_order_witness :
  resolveFiles (Scenario.drive1 (lit "report.pdf"))
    [lit "missing"; Scenario.fileId1; lit "gone"; Scenario.fileId1]
  = Ret (omap (fun fileId => resolved (Scenario.drive1 (lit "report.pdf") fileId))
              [lit "missing"; Scenario.fileId1; lit "gone"; Scenario.fileId1]).
Proof.
  apply (proj1 (resolver_keeps_order (Scenario.drive1 (lit "report.pdf"))
                  [lit "missing"; Scenario.fileId1; lit "gone"; Scenario.fileId1]
                  (lit "1000"))).
  repeat constructor.
Defined.

Lemma plain_text_decodes_to_empty_witness :
  decodeAppendedInvisible (lit "report.pdf") = Ret [].
Proof.
  apply (proj1 plain_text_decodes_to_empty (lit "report.pdf")).
  exact not_reserved_lit_id.
Defined.

Lemma suppressor_decision_witness :
  embeds Scenario.previewed <> []
  /\ Forall (preview_matches [Scenario.link1]) (embeds Scenario.previewed).
Proof.
  apply (proj1 (proj1 (suppressor_decision Scenario.previewed [Scenario.link1]))).
  vm_compute. reflexivity.
Defined.

(** One matching native preview: suppress; a second, unrelated one: do
    not. *)
Example suppressor_sample :
  shouldSuppress Scenario.previewed [Scenario.link1] = true
  /\ shouldSuppress
       {| id := lit "1000"; authorId := lit "7"; createdTimestamp := 0; content := [];
          embeds := embeds Scenario.previewed
                    ++ [ <["url"%string := VStr (lit "https://example.com/")]> ∅ ];
          flags := 0 |} [Scenario.link1] = false
  /\ suppressEmbeds Scenario.previewed [Scenario.link1]
     = [EvSuppressEmbeds (lit "1000") true].
Proof. repeat apply conj; vm_compute; reflexivity. Qed.

(** The bit of the flag decides: a message that already has the flag
    gets no request, whatever its other flags are; a message with other
    flags only gets one. *)
Example suppressor_flag_sample :
  suppressEmbeds
    {| id := lit "1000"; authorId := lit "7"; createdTimestamp := 0; content := [];
       embeds := embeds Scenario.previewed;
       flags := Z.lor SuppressEmbeds SuppressNotifications |} [Scenario.link1] = []
  /\ suppressEmbeds
       {| id := lit "1000"; authorId := lit "7"; createdTimestamp := 0; content := [];
          embeds := embeds Scenario.previewed;
          flags := SuppressNotifications |} [Scenario.link1]
     = [EvSuppressEmbeds (lit "1000") true]
  /\ suppressEmbeds
       {| id := lit "1000"; authorId := lit "7"; createdTimestamp := 0; content := [];
          embeds := []; flags := Z.lor SuppressEmbeds SuppressNotifications |}
       [Scenario.link1]
     = [EvSuppressEmbeds (lit "1000") false].
Proof. repeat apply conj; vm_compute; reflexivity. Qed.

Lemma diff_compares_instants_and_fields_witness :
  embedsChanged
    [ <["timestamp"%string := VStr (lit "2024-03-01T12:34:56.789000+00:00")]>
        ((<["title"%string := VStr (lit "report.pdf")]> ∅)
         ∪ (<["type"%string := VStr (lit "rich")]> ∅)) ]
    [ <["timestamp"%string := VStr (lit "2024-03-01T12:34:56.789Z")]>
        (<["title"%string := VStr (lit "report.pdf")]> ∅) ]
  = false.
Proof.
  apply (proj1 (proj2 (diff_compares_instants_and_fields [] []))
           (<["title"%string := VStr (lit "report.pdf")]> ∅)
           (lit "2024-03-01T12:34:56.789Z")
           (lit "2024-03-01T12:34:56.789000+00:00")
           1709296496789).
  - vm_compute. reflexivity.
  - vm_compute. reflexivity.
Defined.

(** The diff of the sample: another instant, a timestamp that is not a
    date, and another title make the embeds differ; an offset that
    renders the same instant does not. *)
Example diff_sample :
  embedsChanged
    [ <["timestamp"%string := VStr (lit "2024-03-01T12:34:57.789Z")]>
        (<["title"%string := VStr (lit "report.pdf")]> ∅) ]
    [ <["timestamp"%string := VStr (lit "2024-03-01T12:34:56.789Z")]>
        (<["title"%string := VStr (lit "report.pdf")]> ∅) ] = true
  /\ embedsChanged
       [ <["timestamp"%string := VStr (lit "today")]>
           (<["title"%string := VStr (lit "report.pdf")]> ∅) ]
       [ <["timestamp"%string := VStr (lit "today")]>
           (<["title"%string := VStr (lit "report.pdf")]> ∅) ] = true
  /\ embedsChanged
       [ <["timestamp"%string := VStr (lit "2024-03-01T12:34:56.789Z")]>
           (<["title"%string := VStr (lit "draft.pdf")]> ∅) ]
       [ <["timestamp"%string := VStr (lit "2024-03-01T12:34:56.789Z")]>
           (<["title"%string := VStr (lit "report.pdf")]> ∅) ] = true
  /\ embedsChanged
       [ <["timestamp"%string := VStr (lit "2024-03-01T07:34:56.789-05:00")]>
           (<["title"%string := VStr (lit "report.pdf")]> ∅) ]
       [ <["timestamp"%string := VStr (lit "2024-03-01T12:34:56.789Z")]>
           (<["title"%string := VStr (lit "report.pdf")]> ∅) ] = false.
Proof. repeat apply conj; vm_compute; reflexivity. Qed.

(** * Further properties *)

(** ** The codec on arbitrary strings *)

Section CodecAtLarge.

Lemma codePoints_range (n : nat) (x : jsstring) :
  (length x <= n)%nat -> is_string x = true ->
  Forall (fun c => 0 <= c <= 0x10FFFF) (codePoints x).
Proof.
  revert x. induction n as [|n IH]; intros x Hlen Hstr.
  { destruct x; [constructor|simpl in Hlen; lia]. }
  destruct x as [|u x]; [constructor|].
  cbn [is_string forallb] in Hstr. apply andb_true_iff in Hstr as [Hu Hstr].
  apply andb_true_iff in Hu as [Hu0 Hu1]. apply Z.leb_le in Hu0, Hu1.
  destruct x as [|l x].
  { cbn [codePoints]. repeat constructor; lia. }
  pose proof Hstr as Hstr'.
  cbn [forallb] in Hstr. apply andb_true_iff in Hstr as [Hl Hstr].
  apply andb_true_iff in Hl as [Hl0 Hl1]. apply Z.leb_le in Hl0, Hl1.
  rewrite codePoints_cons2.
  destruct (is_high_surrogate u && is_low_surrogate l) eqn:Hpair.
  - apply andb_true_iff in Hpair as [Hh Hlo].
    unfold is_high_surrogate, is_low_surrogate in Hh, Hlo.
    apply andb_true_iff in Hh as [Hh0 Hh1], Hlo as [Hlo0 Hlo1].
    apply Z.leb_le in Hh0, Hh1, Hlo0, Hlo1.
    constructor; [lia|]. apply IH; [simpl in Hlen; lia|done].
  - constructor; [lia|]. apply IH; [simpl in *; lia|done].
Qed.

Lemma toUSV_scalars (x : jsstring) :
  is_string x = true -> Forall scalar (Utf8.toUSV x).
Proof.
  intros Hstr. unfold Utf8.toUSV. apply Forall_fmap.
  eapply Forall_impl; [by apply (codePoints_range (length x))|].
  intros c Hc. unfold compose, is_surrogate, scalar. cbv beta in *.
  destruct (Z.leb_spec 0xD800 c), (Z.leb_spec c 0xDFFF); cbn [andb]; lia.
Qed.

Lemma TextEncoder_bytes (x : jsstring) :
  is_string x = true -> Forall is_byte (Utf8.TextEncoder_encode x).
Proof. intros Hstr. apply encode_bytes. by apply toUSV_scalars. Qed.

Lemma reserved_write_nibbles (ns : list Z) :
  Forall is_nibble ns -> Forall (fun u => reserved u = true) (write_nibbles ns).
Proof.
  intros Hns. unfold write_nibbles. apply Forall_fmap.
  eapply Forall_impl; [exact Hns|]. intros n Hn. simpl.
  unfold reserved, is_nibble in *. apply andb_true_iff. rewrite !Z.leb_le. lia.
Qed.

Lemma encode_reserved (str : jsstring) :
  is_string str = true -> Forall (fun u => reserved u = true) (encode str).
Proof.
  intros Hstr. rewrite encode_write_nibbles by by apply TextEncoder_bytes.
  apply reserved_write_nibbles. by apply nibbles_of_bytes, TextEncoder_bytes.
Qed.

Lemma plain_no_reserved (s : jsstring) :
  plain s = true <-> (forall c, c ∈ invisibleChars -> c ∉ s).
Proof.
  unfold plain. rewrite forallb_forall. split.
  - intros Hp c Hc Hin. apply invisibleChars_elem in Hc.
    apply list_elem_of_In in Hin. apply Hp in Hin. by rewrite Hc in Hin.
  - intros Hn u Hu. apply list_elem_of_In in Hu.
    destruct (reserved u) eqn:Hr; [|done].
    apply invisibleChars_elem in Hr. by destruct (Hn u Hr).
Qed.

(** X1: for every string, [encode] returns a string made of reserved
    invisible code points only, two for each byte of the UTF-8 form of the
    string; it is empty only for the empty string. *)
Theorem encode_is_invisible (str : jsstring) :
  is_string str = true ->
  Forall (fun u => reserved u = true) (encode str)
  /\ length (encode str) = (2 * length (Utf8.TextEncoder_encode str))%nat
  /\ (encode str = [] <-> str = []).
Proof.
  intros Hstr. pose proof (TextEncoder_bytes str Hstr) as Hb.
  split; [by apply encode_reserved|].
  rewrite encode_write_nibbles by done.
  split.
  - unfold write_nibbles. by rewrite length_map, length_nibbles_of.
  - split.
    + intros He. apply (f_equal length) in He.
      unfold write_nibbles in He. rewrite length_map, length_nibbles_of in He.
      destruct str as [|u str]; [done|]. exfalso.
      unfold Utf8.TextEncoder_encode, Utf8.toUSV in He.
      destruct (codePoints (u :: str)) as [|c cps] eqn:Hcps.
      * destruct str as [|l str]; [discriminate|].
        rewrite codePoints_cons2 in Hcps. destruct (_ && _); discriminate.
      * cbn [map concat] in He. rewrite length_app in He.
        unfold Utf8.encode_cp in He.
        repeat match type of He with
               | context [if ?b then _ else _] => destruct b
               end; simpl in He; lia.
    + by intros ->.
Qed.

Lemma mapM_Throw_at {A B} (f : A -> outcome B) (pre : list A) (a : A) (post : list A)
    (e : exn) :
  Forall (fun a => exists b, f a = Ret b) pre -> f a = Throw e ->
  mapM f (pre ++ a :: post) = Throw e.
Proof.
  intros Hpre Ha. induction Hpre as [|p pre [b Hb] _ IH]; cbn [app mapM].
  - by rewrite Ha.
  - by rewrite Hb, IH.
Qed.

Lemma mapM_Throw_first {A B} (f : A -> outcome B) (l : list A) (e : exn) :
  mapM f l = Throw e ->
  exists pre a post, l = pre ++ a :: post
    /\ Forall (fun a => exists b, f a = Ret b) pre /\ f a = Throw e.
Proof.
  induction l as [|a l IH]; simpl; [done|].
  destruct (f a) as [b|e'] eqn:Hfa; simpl.
  - destruct (mapM f l) as [bs|e'']; simpl; [done|].
    intros [= ->]. destruct (IH eq_refl) as (pre & a' & post & -> & Hpre & Ha').
    exists (a :: pre), a', post. split; [done|]. split; [|done].
    constructor; [by exists b|done].
  - intros [= ->]. exists [], a, l. by repeat split.
Qed.

Lemma nibble_of_cases (c : Z) :
  (reserved c = true /\ nibble_of c = Ret (c - 0x2060))
  \/ (reserved c = false /\ nibble_of c = Throw (InvalidInvisibleCharacter c)).
Proof.
  unfold nibble_of. destruct (reserved c) eqn:Hr.
  - left. split; [done|].
    unfold reserved in Hr. apply andb_true_iff in Hr. rewrite !Z.leb_le in Hr.
    assert (Hn : is_nibble (c - 0x2060)) by (unfold is_nibble; lia).
    destruct (invisibleChars_nibble _ Hn) as [_ Hi].
    replace (0x2060 + (c - 0x2060)) with c in Hi by lia. rewrite Hi. cbv zeta.
    destruct (Z.eqb_spec (c - 0x2060) (-1)); [lia|done].
  - right. split; [done|]. cbv zeta.
    destruct (Z.eqb_spec (arrayIndexOf invisibleChars c) (-1)) as [|Hne]; [done|].
    apply arrayIndexOf_reserved in Hne. congruence.
Qed.

Lemma decode_unfold (encoded : jsstring) :
  decode encoded =
    (nibbles <-! mapM nibble_of (codePoints encoded);
     Ret (Utf8.TextDecoder_decode
            (decode_loop (length nibbles) nibbles 0
               (replicate (length nibbles / 2)%nat 0)))).
Proof. reflexivity. Qed.

Lemma nibble_of_reserved (l : list Z) :
  Forall (fun c => reserved c = true) l -> Forall (fun c => exists b, nibble_of c = Ret b) l.
Proof.
  intros Hl. eapply Forall_impl; [exact Hl|]. intros c Hc. cbv beta in Hc.
  destruct (nibble_of_cases c) as [[_ ->]|[? _]]; [by eexists|congruence].
Qed.

Lemma first_foreign (l : list Z) :
  Exists (fun c => reserved c = false) l ->
  exists pre c post, l = pre ++ c :: post
    /\ Forall (fun c => reserved c = true) pre /\ reserved c = false.
Proof.
  induction 1 as [c l Hc|c l _ IH].
  - by exists [], c, l.
  - destruct IH as (pre & c' & post & -> & Hpre & Hc').
    destruct (reserved c) eqn:Hr.
    + exists (c :: pre), c', post. split; [done|]. split; [by constructor|done].
    + by exists [], c, (pre ++ c' :: post).
Qed.

Lemma decode_foreign (encoded pre : jsstring) (c : Z) (post : jsstring) :
  codePoints encoded = pre ++ c :: post ->
  Forall (fun c => reserved c = true) pre -> reserved c = false ->
  decode encoded = Throw (InvalidInvisibleCharacter c).
Proof.
  intros Hcps Hpre Hc. rewrite decode_unfold, Hcps.
  rewrite (mapM_Throw_at nibble_of pre c post (InvalidInvisibleCharacter c)); [done| |].
  - by apply nibble_of_reserved.
  - destruct (nibble_of_cases c) as [[? _]|[_ ->]]; [congruence|done].
Qed.

(** X2: [decode] returns exactly when every code point of its argument
    is one of the 16 reserved ones; otherwise it throws, and the error
    names the first code point of the argument that is not reserved. *)
Theorem decode_fails_at_first_foreign (encoded : jsstring) :
  ((exists s, decode encoded = Ret s)
     <-> Forall (fun c => reserved c = true) (codePoints encoded))
  /\ (forall e, decode encoded = Throw e <->
        exists pre c post,
          codePoints encoded = pre ++ c :: post
          /\ Forall (fun c => reserved c = true) pre /\ reserved c = false
          /\ e = InvalidInvisibleCharacter c).
Proof.
  assert (Hthrow : forall e, decode encoded = Throw e ->
        exists pre c post,
          codePoints encoded = pre ++ c :: post
          /\ Forall (fun c => reserved c = true) pre /\ reserved c = false
          /\ e = InvalidInvisibleCharacter c).
  { intros e. rewrite decode_unfold.
    destruct (mapM nibble_of (codePoints encoded)) as [ns|e'] eqn:Hm; [done|].
    apply mapM_Throw_first in Hm as (pre & c & post & Hcps & Hpre & Hc).
    intros [= <-]. exists pre, c, post. split; [done|].
    destruct (nibble_of_cases c) as [[_ Hn]|[Hrc Hn]]; rewrite Hn in Hc; [done|].
    injection Hc as <-. split; [|done].
    eapply Forall_impl; [exact Hpre|]. intros c' [b Hb].
    destruct (nibble_of_cases c') as [[? _]|[_ Hn']]; [done|congruence]. }
  split; [split|split].
  - intros [s Hs]. apply Forall_forall. intros c Hc.
    destruct (reserved c) eqn:Hr; [done|]. exfalso.
    assert (Hex : Exists (fun c => reserved c = false) (codePoints encoded)).
    { apply Exists_exists. by exists c. }
    destruct (first_foreign _ Hex) as (pre & c' & post & Hcps & Hpre & Hc').
    rewrite (decode_foreign encoded pre c' post) in Hs; done.
  - intros Hall. destruct (decode encoded) as [s|e] eqn:Hd; [by exists s|]. exfalso.
    destruct (Hthrow e eq_refl) as (pre & c & post & Hcps & _ & Hc & _).
    rewrite Hcps in Hall. apply Forall_app in Hall as [_ Hall].
    apply Forall_cons in Hall as [? _]. congruence.
  - apply Hthrow.
  - intros (pre & c & post & Hcps & Hpre & Hc & ->). by eapply decode_foreign.
Qed.

Lemma codePoints_app_bmp (pre s : jsstring) :
  Forall (fun u => is_high_surrogate u = false) pre ->
  codePoints (pre ++ s) = pre ++ codePoints s.
Proof.
  induction 1 as [|u pre Hu _ IH]; [done|].
  cbn [app]. destruct (pre ++ s) as [|l x] eqn:Hx.
  - destruct pre; [|done]. simpl in Hx. by subst s.
  - rewrite codePoints_cons2, Hu. cbn [andb]. by rewrite IH.
Qed.

Lemma reserved_bmp (s : jsstring) :
  Forall (fun u => reserved u = true) s -> Forall (fun u => is_high_surrogate u = false) s.
Proof.
  intros Hs. eapply Forall_impl; [exact Hs|].
  intros u Hu. unfold reserved, is_high_surrogate in *.
  apply andb_true_iff in Hu. rewrite !Z.leb_le in Hu.
  destruct (Z.leb_spec 0xD800 u); [lia|done].
Qed.

Lemma head_codePoints_foreign (v : Z) (post : jsstring) :
  reserved v = false ->
  exists c cps, codePoints (v :: post) = c :: cps /\ reserved c = false.
Proof.
  intros Hv. destruct post as [|l post].
  - exists v, []. by eauto.
  - rewrite codePoints_cons2.
    destruct (is_high_surrogate v && is_low_surrogate l) eqn:Hpair.
    + apply andb_true_iff in Hpair as [Hh Hl].
      unfold is_high_surrogate, is_low_surrogate in Hh, Hl.
      apply andb_true_iff in Hh, Hl. rewrite !Z.leb_le in Hh, Hl.
      eexists _, _. split; [done|].
      unfold reserved. apply andb_false_iff. rewrite !Z.leb_gt. lia.
    + exists v, (codePoints (l :: post)). by eauto.
Qed.

(** X3: when a text holds a reserved code point and, somewhere after
    it, a code unit that is not reserved, [decodeAppendedInvisible] throws:
    the payload must end the text.  The error names the code point that
    begins at the first such code unit. *)
Theorem visible_after_payload_throws (visible payload : jsstring) (v : Z) (post : jsstring) :
  plain visible = true ->
  payload <> [] -> Forall (fun u => reserved u = true) payload ->
  reserved v = false ->
  exists c, head (codePoints (v :: post)) = Some c
    /\ decodeAppendedInvisible (visible ++ payload ++ v :: post)
       = Throw (InvalidInvisibleCharacter c).
Proof.
  intros Hvis Hne Hpay Hv.
  destruct (head_codePoints_foreign v post Hv) as (c & cps & Hcps & Hc).
  exists c. split; [by rewrite Hcps|].
  destruct payload as [|r payload]; [done|].
  pose proof Hpay as Hpay'. apply Forall_cons in Hpay' as [Hr _].
  unfold decodeAppendedInvisible.
  fold (indices (visible ++ (r :: payload) ++ v :: post)).
  cbn [app]. rewrite first_invisible;
    [|by apply plain_no_reserved|by apply invisibleChars_elem].
  cbn [substring]. rewrite Nat2Z.id, drop_app_length.
  apply (decode_foreign _ (r :: payload) c cps); [|done..].
  change (r :: payload ++ v :: post) with ((r :: payload) ++ v :: post).
  rewrite codePoints_app_bmp, Hcps; [done|]. by apply reserved_bmp.
Qed.

Lemma TextDecoder_TextEncoder_any (x : jsstring) :
  is_string x = true ->
  Utf8.TextDecoder_decode (Utf8.TextEncoder_encode x)
  = fromCodePoint (without_bom (Utf8.toUSV x)).
Proof.
  intros Hstr. unfold Utf8.TextDecoder_decode, Utf8.TextEncoder_encode.
  rewrite run_encode by by apply toUSV_scalars. done.
Qed.

(** X4: for every string [x] and every visible text without a reserved
    code point, decoding [appendInvisible(visible, x)] never throws; it
    returns [x] with every unpaired surrogate replaced by U+FFFD and
    without a leading U+FEFF, and nothing else changed. *)
Theorem codec_roundtrip_any (visible x : jsstring) :
  plain visible = true -> is_string x = true ->
  decodeAppendedInvisible (appendInvisible visible x)
  = Ret (fromCodePoint (without_bom (Utf8.toUSV x))).
Proof.
  intros Hvis Hstr. pose proof (TextEncoder_bytes x Hstr) as Hb.
  unfold appendInvisible. rewrite encode_write_nibbles by done.
  rewrite decodeAppendedInvisible_suffix;
    [|by apply plain_no_reserved|by apply nibbles_of_bytes].
  rewrite decode_write_nibbles by done.
  by rewrite TextDecoder_TextEncoder_any.
Qed.

Lemma write_nibbles_inj (ns ms : list Z) : write_nibbles ns = write_nibbles ms -> ns = ms.
Proof.
  unfold write_nibbles. revert ms. induction ns as [|n ns IH]; intros [|m ms]; try done.
  cbn [map]. intros [= Hn Hrest]. f_equal; [lia|by apply IH].
Qed.

Lemma nibbles_of_inj (bs cs : list Z) :
  Forall is_byte bs -> Forall is_byte cs -> nibbles_of bs = nibbles_of cs -> bs = cs.
Proof.
  intros Hbs. revert cs. induction Hbs as [|b bs Hb _ IH]; intros cs Hcs Heq.
  - destruct cs; [done|discriminate].
  - destruct Hcs as [|c cs Hc Hcs]; [discriminate|].
    unfold nibbles_of in Heq. cbn [map concat app] in Heq.
    injection Heq as Hhi Hlo Hrest.
    destruct (nibbles_of_byte b Hb) as (_ & _ & Hvb).
    destruct (nibbles_of_byte c Hc) as (_ & _ & Hvc).
    rewrite Hhi, Hlo, Hvc in Hvb. f_equal; [done|by apply IH].
Qed.

Lemma encode_cp_inj (cps ds : list Z) :
  Forall scalar cps -> Forall scalar ds ->
  concat (map Utf8.encode_cp cps) = concat (map Utf8.encode_cp ds) -> cps = ds.
Proof.
  intros Hc Hd Heq. rewrite <- (run_encode cps Hc), <- (run_encode ds Hd). by rewrite Heq.
Qed.

Lemma toUSV_well_formed (x : jsstring) :
  is_string x = true -> well_formed x = true ->
  Utf8.toUSV x = codePoints x /\ fromCodePoint (codePoints x) = x.
Proof.
  intros Hstr Hwf.
  destruct (codePoints_well_formed (length x) x) as (Hs & Hx & _); [done..|].
  split; [|done]. unfold Utf8.toUSV. by apply toUSV_scalar.
Qed.

Lemma encode_inj (x y : jsstring) :
  is_string x = true -> well_formed x = true ->
  is_string y = true -> well_formed y = true ->
  encode x = encode y -> x = y.
Proof.
  intros Hx Hwx Hy Hwy Heq.
  pose proof (TextEncoder_bytes x Hx) as Hbx. pose proof (TextEncoder_bytes y Hy) as Hby.
  rewrite !encode_write_nibbles in Heq by done.
  apply write_nibbles_inj, nibbles_of_inj in Heq; [|done..].
  apply encode_cp_inj in Heq; [|by apply toUSV_scalars..].
  destruct (toUSV_well_formed x Hx Hwx) as [Hux <-].
  destruct (toUSV_well_formed y Hy Hwy) as [Huy <-].
  by rewrite <- Hux, <- Huy, Heq.
Qed.

Lemma split_at_reserved (v v' e e' : jsstring) :
  plain v = true -> plain v' = true ->
  Forall (fun u => reserved u = true) e -> Forall (fun u => reserved u = true) e' ->
  v ++ e = v' ++ e' -> v = v' /\ e = e'.
Proof.
  intros Hv Hv' He He'. revert v' Hv'. induction v as [|u v IH]; intros v' Hv' Heq.
  - destruct v' as [|u' v']; [done|]. exfalso.
    cbn [plain forallb] in Hv'. apply andb_true_iff in Hv' as [Hu' _].
    simpl in Heq. subst e. apply Forall_cons in He as [Hr _]. by rewrite Hr in Hu'.
  - cbn [plain forallb] in Hv. apply andb_true_iff in Hv as [Hu Hv].
    destruct v' as [|u' v'].
    + exfalso. simpl in Heq. subst e'. apply Forall_cons in He' as [Hr _].
      by rewrite Hr in Hu.
    + cbn [plain forallb] in Hv'. apply andb_true_iff in Hv' as [_ Hv'].
      injection Heq as -> Heq. destruct (IH Hv v' Hv' Heq) as [-> ->]. done.
Qed.

(** X5: a title determines the file name and the source id hidden in
    it: two visible texts without a reserved code point and two strings
    without an unpaired surrogate that give the same
    [appendInvisible(visible, x)] are equal; in particular [encode] is
    injective on such strings. *)
Theorem title_determines_name_and_id (visible visible' x y : jsstring) :
  plain visible = true -> plain visible' = true ->
  is_string x = true -> well_formed x = true ->
  is_string y = true -> well_formed y = true ->
  appendInvisible visible x = appendInvisible visible' y ->
  visible = visible' /\ x = y.
Proof.
  intros Hv Hv' Hx Hwx Hy Hwy Heq. unfold appendInvisible in Heq.
  pose proof (encode_reserved x Hx) as Hrx.
  pose proof (encode_reserved y Hy) as Hry.
  destruct (split_at_reserved _ _ _ _ Hv Hv' Hrx Hry Heq) as [-> He].
  split; [done|]. by apply encode_inj.
Qed.

(** The loop of [decode] on the nibbles of [done ++ rest] followed by at
    most one more nibble. *)
Lemma decode_loop_tail (rest : list Z) :
  forall (done tl : list Z) (fuel : nat),
    Forall is_byte rest ->
    (length tl <= 1)%nat ->
    (length rest <= fuel)%nat ->
    decode_loop fuel (nibbles_of (done ++ rest) ++ tl) (2 * Z.of_nat (length done))
      (done ++ replicate (length rest) 0)
    = done ++ rest.
Proof.
  induction rest as [|b rest IH]; intros done tl fuel Hbytes Htl Hfuel.
  - destruct fuel as [|fuel]; simpl; [done|].
    rewrite length_app, length_nibbles_of, !app_nil_r.
    destruct (Z.ltb_spec (2 * Z.of_nat (length done))
                (Z.of_nat (2 * length done + length tl) - 1)); [lia|done].
  - destruct fuel as [|fuel]; [simpl in Hfuel; lia|].
    apply Forall_cons in Hbytes as [Hb Hbytes].
    destruct (nibbles_of_byte b Hb) as (_ & _ & Hval).
    cbn [decode_loop].
    rewrite length_app, length_nibbles_of, length_app. cbn [length].
    destruct (Z.ltb_spec (2 * Z.of_nat (length done))
                (Z.of_nat (2 * (length done + S (length rest)) + length tl) - 1)); [|lia].
    assert (Hhi : (nibbles_of (done ++ b :: rest) ++ tl)
                    !!! Z.to_nat (2 * Z.of_nat (length done)) = b ≫ 4).
    { rewrite nibbles_of_app, <- app_assoc. apply list_lookup_total_middle.
      rewrite length_nibbles_of. lia. }
    assert (Hlo : (nibbles_of (done ++ b :: rest) ++ tl)
                    !!! Z.to_nat (2 * Z.of_nat (length done) + 1) = Z.land b 0xf).
    { rewrite nibbles_of_app, <- app_assoc.
      change (nibbles_of (b :: rest)) with ([b ≫ 4] ++ Z.land b 0xf :: nibbles_of rest).
      rewrite <- app_assoc. cbn [app].
      change (nibbles_of done ++ b ≫ 4 :: Z.land b 0xf :: nibbles_of rest ++ tl)
        with (nibbles_of done ++ [b ≫ 4] ++ Z.land b 0xf :: nibbles_of rest ++ tl).
      rewrite app_assoc. apply list_lookup_total_middle.
      rewrite length_app, length_nibbles_of. simpl. lia. }
    rewrite Hhi, Hlo, Hval.
    replace (Z.to_nat (2 * Z.of_nat (length done) / 2)) with (length done + 0)%nat
      by (rewrite Z.mul_comm, Z.div_mul by lia; lia).
    cbn [replicate length].
    rewrite insert_app_r. cbn [insert list_insert].
    specialize (IH (done ++ [b]) tl fuel Hbytes Htl).
    rewrite <- !app_assoc, length_app in IH. cbn [app length] in IH.
    replace (2 * Z.of_nat (length done) + 2) with (2 * Z.of_nat (length done + 1)) by lia.
    apply IH. simpl in Hfuel. lia.
Qed.

(** X6: a payload cut after an odd number of invisible characters
    decodes like the payload without its last character: the array of
    bytes has [floor(n / 2)] elements and the loop never reads the odd
    nibble. *)
Theorem decode_drops_odd_nibble (bytes : list Z) (n : Z) :
  Forall is_byte bytes -> is_nibble n ->
  decode (write_nibbles (nibbles_of bytes ++ [n])) = Ret (Utf8.TextDecoder_decode bytes)
  /\ decode (write_nibbles (nibbles_of bytes ++ [n]))
     = decode (write_nibbles (nibbles_of bytes)).
Proof.
  intros Hb Hn. rewrite (decode_write_nibbles bytes Hb).
  enough (decode (write_nibbles (nibbles_of bytes ++ [n]))
          = Ret (Utf8.TextDecoder_decode bytes)) by done.
  unfold decode. rewrite read_nibbles.
  2:{ apply Forall_app. split; [by apply nibbles_of_bytes|by constructor]. }
  cbn [obind]. do 2 f_equal.
  rewrite length_app, length_nibbles_of. cbn [length].
  replace ((2 * length bytes + 1) / 2)%nat with (length bytes).
  2:{ apply Nat.div_unique with (r := 1%nat); lia. }
  apply (decode_loop_tail bytes [] [n] _ Hb); simpl; lia.
Qed.

End CodecAtLarge.

(** ** The link extractor on composed texts *)

Section ExtractorAtLarge.

Lemma repeat_class_ext {R} (p : Z -> bool) (s : jsstring) :
  forall (min : nat) (k k' : jsstring -> option R),
    (forall s', k s' = k' s') -> repeat_class p min s k = repeat_class p min s k'.
Proof.
  induction s as [|u s IH]; intros min k k' Hk; cbn [repeat_class].
  - by rewrite Hk.
  - rewrite (IH (pred min) k k' Hk). by rewrite Hk.
Qed.

Lemma bt_ext {R} (r : regex) :
  forall (s : jsstring) (cap : option jsstring)
         (k k' : jsstring -> option jsstring -> option R),
    (forall s' cap', k s' cap' = k' s' cap') -> bt r s cap k = bt r s cap k'.
Proof.
  induction r as [c|p|r1 IH1 r2 IH2|r1 IH1 r2 IH2|r IH|min p|r IH];
    intros s cap k k' Hk; cbn [bt].
  - destruct s as [|u s]; [done|]. by rewrite Hk.
  - destruct s as [|u s]; [done|]. by rewrite Hk.
  - apply IH1. intros s1 cap1. by apply IH2.
  - by rewrite (IH1 s cap k k' Hk), (IH2 s cap k k' Hk).
  - by rewrite (IH s cap k k' Hk), Hk.
  - apply repeat_class_ext. intros s'. apply Hk.
  - apply IH. intros s' cap'. apply Hk.
Qed.

Lemma repeat_class_stops {R} (p : Z -> bool) (c : Z) (t : jsstring) (s : jsstring) :
  p c = false ->
  forall (min : nat) (k : jsstring -> option R),
    repeat_class p min (s ++ c :: t) k
    = repeat_class p min s (fun s' => k (s' ++ c :: t)).
Proof.
  intros Hc. induction s as [|u s IH]; intros min k; cbn [app repeat_class].
  - by rewrite Hc.
  - by rewrite IH.
Qed.

(** A pattern that cannot read [c] matches in front of [c] as it does at
    the end of the input. *)
Lemma bt_stops {R} (r : regex) (c : Z) (t : jsstring) :
  never_reads r c ->
  forall (s : jsstring) (cap : option jsstring)
         (k : jsstring -> option jsstring -> option R),
    bt r (s ++ c :: t) cap k = bt r s cap (fun s' cap' => k (s' ++ c :: t) cap').
Proof.
  induction r as [x|p|r1 IH1 r2 IH2|r1 IH1 r2 IH2|r IH|min p|r IH];
    cbn [never_reads]; intros Hr s cap k; cbn [bt].
  - destruct s as [|u s]; cbn [app]; [|done].
    destruct (Z.eqb_spec c x); [congruence|done].
  - destruct s as [|u s]; cbn [app]; [|done]. by rewrite Hr.
  - destruct Hr as [H1 H2]. rewrite (IH1 H1). apply bt_ext.
    intros s1 cap1. by apply IH2.
  - destruct Hr as [H1 H2]. by rewrite (IH1 H1), (IH2 H2).
  - by rewrite (IH Hr).
  - by rewrite repeat_class_stops.
  - rewrite (IH Hr). apply bt_ext. intros s' _. do 2 f_equal.
    rewrite !length_app.
    replace (length s + length (c :: t) - (length s' + length (c :: t)))%nat
      with (length s - length s')%nat by lia.
    apply take_app_le. lia.
Qed.

Lemma exec_stops (r : regex) (c : Z) (s t : jsstring) :
  never_reads r c -> exec r (s ++ c :: t) = exec r s.
Proof.
  intros Hr. unfold exec. rewrite (bt_stops r c t Hr). apply bt_ext.
  intros s' cap'. do 2 f_equal.
  rewrite !length_app.
  replace (length s + length (c :: t) - (length s' + length (c :: t)))%nat
    with (length s - length s')%nat by lia.
  apply take_app_le. lia.
Qed.

Lemma exec_length (r : regex) (s m : jsstring) (cap : option jsstring) :
  exec r s = Some (m, cap) -> (length m <= length s)%nat.
Proof.
  intros He. apply exec_sound in He as (s' & -> & _). rewrite length_app. lia.
Qed.

Lemma matchAll_from_stops (r : regex) (c : Z) (t : jsstring) :
  never_reads r c ->
  forall (s : jsstring) (skip : nat),
    (skip <= length s)%nat ->
    matchAll_from r (s ++ c :: t) skip = matchAll_from r s skip ++ matchAll_from r t 0.
Proof.
  intros Hr. induction s as [|u s IH]; intros skip Hskip.
  - simpl in Hskip. assert (skip = O) as -> by lia.
    cbn [app matchAll_from]. rewrite (exec_stops r c [] t Hr : exec r (c :: t) = exec r []).
    destruct (exec r []) as [[m cap]|] eqn:He; [|done].
    apply exec_length in He. destruct m; [done|simpl in He; lia].
  - destruct skip as [|skip]; cbn [app matchAll_from].
    + rewrite (exec_stops r c (u :: s) t Hr : exec r (u :: s ++ c :: t) = exec r (u :: s)).
      destruct (exec r (u :: s)) as [[m cap]|] eqn:He.
      * apply exec_length in He. cbn [length] in He.
        rewrite IH by lia. done.
      * apply IH. lia.
    + apply IH. simpl in Hskip. lia.
Qed.

Lemma url_char_false (c : Z) :
  url_char c = false <->
  (9 <= c <= 13 \/ c = 32 \/ c = 0xA0 \/ c = 0x1680 \/ 0x2000 <= c <= 0x200A
   \/ c = 0x2028 \/ c = 0x2029 \/ c = 0x202F \/ c = 0x205F \/ c = 0x3000
   \/ c = 0xFEFF \/ c = 39 \/ c = 34 \/ c = 41).
Proof.
  unfold url_char, is_space.
  change (chr "'") with 39. change (chr ")") with 41.
  rewrite negb_false_iff, !orb_true_iff, !andb_true_iff, !Z.leb_le, !Z.eqb_eq. lia.
Qed.

Lemma url_char_id_char (c : Z) : id_char c = true -> url_char c = true.
Proof.
  intros Hid. destruct (url_char c) eqn:Hc; [done|].
  apply url_char_false in Hc. revert Hid. unfold id_char, is_word.
  change (chr "-") with 45.
  rewrite !orb_true_iff, !andb_true_iff, !Z.leb_le, !Z.eqb_eq. lia.
Qed.

Lemma url_char_last_char (c : Z) : url_last_char c = true -> url_char c = true.
Proof.
  intros Hl. destruct (url_char c) eqn:Hc; [done|].
  apply url_char_false in Hc. revert Hl. unfold url_last_char, is_space.
  change (chr "'") with 39. change (chr ")") with 41. change (chr ".") with 46.
  change (chr "?") with 63. change (chr "!") with 33.
  rewrite negb_true_iff, !orb_false_iff, !andb_false_iff, !Z.leb_gt, !Z.eqb_neq. lia.
Qed.

Lemma id_char_last_char (c : Z) : id_char c = true -> url_last_char c = true.
Proof.
  unfold id_char, is_word, url_last_char, is_space.
  change (chr "'") with 39. change (chr ")") with 41. change (chr ".") with 46.
  change (chr "?") with 63. change (chr "!") with 33. change (chr "-") with 45.
  rewrite negb_true_iff, !orb_false_iff, !andb_false_iff, !Z.leb_gt, !Z.eqb_neq.
  rewrite !orb_true_iff, !andb_true_iff, !Z.leb_le, !Z.eqb_eq. lia.
Qed.

Lemma url_char_never_read (c : Z) : url_char c = false -> never_reads fileIdRegex c.
Proof.
  intros Hc.
  assert (Hid : id_char c = false).
  { destruct (id_char c) eqn:Hid; [|done]. apply url_char_id_char in Hid. congruence. }
  assert (Hlast : url_last_char c = false).
  { destruct (url_last_char c) eqn:Hl; [|done]. apply url_char_last_char in Hl. congruence. }
  assert (Hlit : forall x, url_char x = true -> x <> c) by (intros x Hx ->; congruence).
  unfold fileIdRegex. cbn [never_reads Str lit].
  repeat split; try done; apply Hlit; by vm_compute.
Qed.

(** X7: links are extracted from the parts of a text on each side of a
    character that no link can contain (white space, a quote, a closing
    parenthesis) independently: the links of the whole text are the links
    of the part before that character followed by the links of the part
    after it. *)
Theorem extractFileIds_app (before after : jsstring) (c : Z) :
  url_char c = false ->
  extractFileIds (before ++ c :: after) = extractFileIds before ++ extractFileIds after.
Proof.
  intros Hc. unfold extractFileIds, matchAll.
  rewrite (matchAll_from_stops fileIdRegex c after (url_char_never_read c Hc)) by lia.
  by rewrite map_app.
Qed.

Lemma is_link_chars (m fileId : jsstring) :
  is_link m fileId ->
  Forall (fun u => url_char u = true) m
  /\ (exists u, last m = Some u /\ url_last_char u = true)
  /\ (52 <= length m)%nat.
Proof.
  intros (scheme & host & dir & segment & rest & -> & Hscheme & Hhost & Hdir & Hdirc
          & Hseg & Hlen & Hidc & Hrest).
  assert (Hid : Forall (fun u => url_char u = true) fileId).
  { eapply Forall_impl; [exact Hidc|]. apply url_char_id_char. }
  assert (Hr : Forall (fun u => url_char u = true) rest).
  { destruct Hrest as [->|(middle & last & -> & Hmid & Hlast)]; [constructor|].
    apply Forall_app. split; [by repeat constructor|].
    apply Forall_app. split; [done|]. repeat constructor. by apply url_char_last_char. }
  split; [|split].
  - rewrite !Forall_app. repeat split; try done.
    + destruct Hscheme as [->| ->]; by repeat constructor.
    + by repeat constructor.
    + destruct Hhost as [->| ->]; by repeat constructor.
    + by repeat constructor.
    + by repeat constructor.
    + destruct Hseg as [->|[->| ->]]; by repeat constructor.
    + by repeat constructor.
  - rewrite !app_assoc.
    destruct Hrest as [->|(middle & l & -> & Hmid & Hlast)].
    + rewrite app_nil_r.
      destruct (last fileId) as [u|] eqn:Hl.
      * exists u. rewrite last_app, Hl. split; [done|].
        apply id_char_last_char.
        apply last_Some in Hl as [l' ->]. apply Forall_app in Hidc as [_ Hu].
        by apply Forall_cons in Hu as [? _].
      * apply last_None in Hl. subst fileId. simpl in Hlen. lia.
    + exists l. rewrite !app_assoc. by rewrite last_snoc.
  - rewrite !length_app.
    assert (4 <= length scheme)%nat by (destruct Hscheme as [->| ->]; simpl; lia).
    assert (4 <= length host)%nat by (destruct Hhost as [->| ->]; simpl; lia).
    assert (1 <= length dir)%nat by (destruct dir; [done|simpl; lia]).
    assert (1 <= length segment)%nat by (destruct Hseg as [->|[->| ->]]; simpl; lia).
    simpl. lia.
Qed.

Lemma extractFileIds_links (content : jsstring) :
  Forall (fun ref => is_link (url ref) (fileId ref)) (extractFileIds content).
Proof.
  unfold extractFileIds, matchAll.
  apply Forall_fmap. eapply Forall_impl; [apply matchAll_from_matches|].
  intros [m cap] Hm. cbn.
  apply fileIdRegex_shape in Hm as (fileId & -> & Hlink). done.
Qed.

(** X8: no URL that [extractFileIds] returns contains white space, a
    quote or a closing parenthesis, and none ends in one of [. ? !]: the
    punctuation that follows a link in a sentence is not taken for a part
    of it.  The ids consist of characters of [[-\w]] only. *)
Theorem extracted_urls_are_clean (content : jsstring) :
  Forall (fun ref =>
            Forall (fun u => url_char u = true) (url ref)
            /\ (exists u, last (url ref) = Some u /\ url_last_char u = true)
            /\ Forall (fun u => id_char u = true) (fileId ref))
         (extractFileIds content).
Proof.
  eapply Forall_impl; [apply extractFileIds_links|].
  intros ref Hlink. destruct (is_link_chars _ _ Hlink) as (Hc & Hl & _).
  split; [done|]. split; [done|].
  by destruct Hlink as (? & ? & ? & ? & ? & _ & _ & _ & _ & _ & _ & _ & Hid & _).
Qed.

Lemma matchAll_from_length (r : regex) (s : jsstring) :
  forall skip,
    (sum_list_with (fun x => length x.1) (matchAll_from r s skip) <= length s - skip)%nat.
Proof.
  induction s as [|u s IH]; intros skip.
  - destruct skip as [|skip]; cbn [matchAll_from]; [|simpl; lia].
    destruct (exec r []) as [[m cap]|] eqn:He; [|simpl; lia].
    apply exec_length in He. destruct m; simpl in *; lia.
  - destruct skip as [|skip]; cbn [matchAll_from].
    + destruct (exec r (u :: s)) as [[m cap]|] eqn:He.
      * apply exec_length in He. cbn [length] in He.
        cbn [sum_list_with fst]. specialize (IH (pred (length m))). cbn [length]. lia.
      * specialize (IH O). cbn [length]. lia.
    + specialize (IH skip). cbn [length]. lia.
Qed.

(** X9: the URLs that [extractFileIds] returns do not overlap: their
    lengths add up to at most the length of the text; as a link has at
    least 52 characters, a text of [n] characters yields at most [n / 52]
    links, hence at most that many lookups and embeds. *)
Theorem extracted_urls_fit (content : jsstring) :
  (sum_list_with (fun ref => length (url ref)) (extractFileIds content) <= length content)%nat
  /\ (52 * length (extractFileIds content) <= length content)%nat.
Proof.
  assert (Hsum : (sum_list_with (fun ref => length (url ref)) (extractFileIds content)
                  <= length content)%nat).
  { unfold extractFileIds, matchAll.
    pose proof (matchAll_from_length fileIdRegex content 0) as Hl.
    rewrite Nat.sub_0_r in Hl. etrans; [|exact Hl]. apply Nat.eq_le_incl.
    generalize (matchAll_from fileIdRegex content 0). intros l.
    induction l as [|[m cap] l IH]; [done|]. cbn [map sum_list_with fst]. by rewrite IH. }
  split; [done|].
  etrans; [|exact Hsum].
  pose proof (extractFileIds_links content) as Hlinks.
  revert Hlinks. generalize (extractFileIds content). intros refs.
  induction 1 as [|ref refs Hlink _ IH]; [simpl; lia|].
  destruct (is_link_chars _ _ Hlink) as (_ & _ & Hlen).
  cbn [sum_list_with length]. lia.
Qed.

Lemma run_length_spec (p : Z -> bool) (s : jsstring) :
  (run_length p s <= length s)%nat
  /\ (forall c rest, drop (run_length p s) s = c :: rest -> p c = false).
Proof.
  induction s as [|u s (IH1 & IH2)]; cbn [run_length].
  - split; [done|]. by intros c rest.
  - destruct (p u) eqn:Hu; cbn [length take drop].
    + split; [lia|done].
    + split; [lia|]. by intros c rest [= -> _].
Qed.

(** With a continuation that always succeeds, [[p]{min,}] takes the
    whole run of characters of the class. *)
Lemma repeat_class_greedy {R} (p : Z -> bool) (s : jsstring) :
  forall (min : nat) (k : jsstring -> option R),
    (forall s', is_Some (k s')) ->
    repeat_class p min s k
    = if (min <=? run_length p s)%nat then k (drop (run_length p s) s) else None.
Proof.
  induction s as [|c s IH]; intros min k Hk; cbn [repeat_class run_length].
  - destruct min; done.
  - destruct (p c).
    + rewrite (IH (pred min) k Hk). cbn [drop].
      destruct (Nat.leb_spec (pred min) (run_length p s)) as [Hle|Hgt].
      * destruct (Hk (drop (run_length p s) s)) as [r ->].
        destruct (Nat.leb_spec min (S (run_length p s))); [done|lia].
      * destruct (Nat.leb_spec min (S (run_length p s))); [lia|].
        destruct min; [lia|done].
    + destruct min; done.
Qed.

Lemma matches_no_capture (r : regex) :
  no_capture r -> forall m cap cap', matches r m cap cap' -> cap' = cap.
Proof.
  induction r as [c|p|r1 IH1 r2 IH2|r1 IH1 r2 IH2|r IH|min p|r IH];
    cbn [no_capture matches]; intros Hn m cap cap'.
  - by intros [_ ->].
  - by intros (_ & _ & _ & ->).
  - destruct Hn as [H1 H2]. intros (m1 & m2 & cap1 & _ & Hm1 & Hm2).
    apply (IH1 H1) in Hm1. apply (IH2 H2) in Hm2. congruence.
  - destruct Hn as [H1 H2]. intros [Hm|Hm]; [by apply (IH1 H1) in Hm|by apply (IH2 H2) in Hm].
  - intros [Hm|[_ ->]]; [by apply (IH Hn) in Hm|done].
  - by intros (_ & _ & ->).
  - done.
Qed.

Lemma fileIdRegex_split {R} (s : jsstring) (cap : option jsstring)
    (k : jsstring -> option jsstring -> option R) :
  bt fileIdRegex s cap k
  = bt beforeId s cap (fun s1 cap1 =>
      bt (Capture (Repeat 25 id_char)) s1 cap1 (fun s2 cap2 => bt afterId s2 cap2 k)).
Proof. reflexivity. Qed.

Lemma matches_beforeId (m : jsstring) (cap cap' : option jsstring) :
  matches beforeId m cap cap' -> exists m', m = m' ++ [chr "/"].
Proof.
  unfold beforeId. cbn [matches].
  intros (m1 & ? & ? & -> & _ & m2 & ? & ? & -> & _ & m3 & ? & ? & -> & _
          & m4 & ? & ? & -> & _ & m5 & ? & ? & -> & _ & m6 & ? & ? & -> & _
          & m7 & ? & ? & -> & _ & m8 & m9 & ? & -> & _ & -> & _).
  exists (m1 ++ m2 ++ m3 ++ m4 ++ m5 ++ m6 ++ m7 ++ m8). by rewrite <- !app_assoc.
Qed.

Lemma exec_fileIdRegex (s m : jsstring) (cap : option jsstring) :
  exec fileIdRegex s = Some (m, cap) ->
  exists head fileId tail post,
    s = m ++ post /\ m = head ++ fileId ++ tail /\ cap = Some fileId
    /\ last head = Some (chr "/")
    /\ (forall c rest, tail ++ post = c :: rest -> id_char c = false).
Proof.
  unfold exec. rewrite fileIdRegex_split. intros Hbt.
  apply bt_sound in Hbt as (head & s1 & cap1 & -> & Hhead & Hbt).
  cbn [bt] in Hbt.
  rewrite repeat_class_greedy in Hbt.
  2:{ intros s'. unfold afterId. cbn [bt].
      match goal with |- is_Some (match ?x with _ => _ end) => destruct x end; by eexists. }
  destruct (run_length_spec id_char s1) as (Hle & Hstop).
  destruct (_ <=? _)%nat; [|done].
  apply bt_sound in Hbt as (tail & post & cap2 & Hdrop & Htail & Hk).
  assert (Hcap : cap2 = Some (take (length s1 - length (drop (run_length id_char s1) s1)) s1)).
  { eapply matches_no_capture; [|exact Htail]. by cbn. }
  replace (length s1 - length (drop (run_length id_char s1) s1))%nat
    with (run_length id_char s1) in Hcap by (rewrite length_drop; lia).
  rewrite Hdrop in Hstop.
  remember (take (run_length id_char s1) s1) as fileId eqn:Hid.
  assert (Hs1 : s1 = fileId ++ tail ++ post).
  { rewrite <- Hdrop, Hid. by rewrite take_drop. }
  clear Hid Hdrop Hle. subst s1 cap2.
  assert (Hm : take (length (head ++ fileId ++ tail ++ post) - length post)
                 (head ++ fileId ++ tail ++ post) = head ++ fileId ++ tail).
  { rewrite (app_assoc fileId tail post), (app_assoc head (fileId ++ tail) post).
    rewrite take_app_length'; [done|].
    rewrite !length_app. lia. }
  rewrite Hm in Hk. injection Hk as <- <-.
  exists head, fileId, tail, post.
  split; [by rewrite <- !app_assoc|]. split; [done|]. split; [done|]. split; [|done].
  apply matches_beforeId in Hhead as [m' ->]. by rewrite last_snoc.
Qed.

Lemma matchAll_from_exec (r : regex) (s : jsstring) :
  forall skip,
    Forall (fun '(m, cap) => exists pre post,
              s = pre ++ m ++ post /\ exec r (m ++ post) = Some (m, cap))
           (matchAll_from r s skip).
Proof.
  assert (Hshift : forall (u : Z) (s' : jsstring) (l : list (jsstring * option jsstring)),
            Forall (fun '(m, cap) => exists pre post,
                      s' = pre ++ m ++ post /\ exec r (m ++ post) = Some (m, cap)) l ->
            Forall (fun '(m, cap) => exists pre post,
                      u :: s' = pre ++ m ++ post /\ exec r (m ++ post) = Some (m, cap)) l).
  { intros u s' l Hl. eapply Forall_impl; [exact Hl|].
    intros [m cap] (pre & post & -> & He). by exists (u :: pre), post. }
  induction s as [|u s IH]; intros skip.
  - destruct skip as [|skip]; cbn [matchAll_from]; [|constructor].
    destruct (exec r []) as [[m cap]|] eqn:He; [|constructor].
    constructor; [|constructor].
    pose proof He as He'. apply exec_sound in He' as (s' & Hs & _).
    symmetry in Hs. apply app_eq_nil in Hs as [-> ->]. by exists [], [].
  - destruct skip as [|skip]; cbn [matchAll_from]; [|by apply Hshift].
    destruct (exec r (u :: s)) as [[m cap]|] eqn:He; [|by apply Hshift].
    constructor; [|by apply Hshift].
    pose proof He as He'. apply exec_sound in He' as (s' & Hs & _).
    exists [], s'. split; [done|]. by rewrite <- Hs.
Qed.

(** X10: the id that [extractFileIds] returns with a URL is never cut
    short: it begins after a [/] of the URL and is followed, in the text,
    by a character outside [[-\w]] or by the end of the text. *)
Theorem extracted_ids_are_maximal (content : jsstring) :
  Forall (fun ref => exists pre head tail post,
            content = pre ++ url ref ++ post
            /\ url ref = head ++ fileId ref ++ tail
            /\ last head = Some (chr "/")
            /\ (forall c rest, tail ++ post = c :: rest -> id_char c = false))
         (extractFileIds content).
Proof.
  unfold extractFileIds, matchAll. apply Forall_fmap.
  eapply Forall_impl; [apply matchAll_from_exec|].
  intros [m cap] (pre & post & -> & He). cbn.
  apply exec_fileIdRegex in He as (head & fileId & tail & post' & Hs & -> & -> & Hlast & Hstop).
  apply app_inv_head in Hs as <-.
  by exists pre, head, tail, post.
Qed.

End ExtractorAtLarge.

(** ** The lookup and the builder at their edges *)

Section EngineAtLarge.
Context `{Platform}.

Lemma sorted_by_key_unique {A} (key : A -> Z) (l1 l2 : list A) :
  StronglySorted (fun x y => key x <= key y) l1 ->
  StronglySorted (fun x y => key x <= key y) l2 ->
  l1 ≡ₚ l2 -> NoDup (map key l1) -> l1 = l2.
Proof.
  intros Hs1. revert l2. induction Hs1 as [|a l1 Hs1 IH Ha]; intros l2 Hs2 Hp Hnd.
  - by apply Permutation_nil_l in Hp.
  - destruct Hs2 as [|b l2 Hs2 Hb].
    { by apply Permutation_nil_r in Hp. }
    cbn [map] in Hnd. apply NoDup_cons in Hnd as [Hna Hnd].
    assert (Hab : a = b).
    { destruct (decide (key a = key b)) as [Hk|Hk].
      - assert (Hin : b ∈ a :: l1) by (rewrite Hp; left).
        apply elem_of_cons in Hin as [->|Hin]; [done|].
        destruct Hna. rewrite Hk. apply list_elem_of_fmap. by exists b.
      - exfalso.
        assert (Hin : b ∈ a :: l1) by (rewrite Hp; left).
        assert (Hin' : a ∈ b :: l2) by (rewrite <- Hp; left).
        apply elem_of_cons in Hin as [->|Hin]; [done|].
        apply elem_of_cons in Hin' as [->|Hin']; [done|].
        rewrite Forall_forall in Ha, Hb.
        specialize (Ha b Hin). specialize (Hb a Hin'). simpl in *. lia. }
    subst b. f_equal. apply IH; [done| |done].
    by apply Permutation_cons_inv in Hp.
Qed.

Lemma scan_Permutation (botUserId sourceId : jsstring) (h1 h2 : list Message) :
  h1 ≡ₚ h2 ->
  NoDup (map createdTimestamp (filter (fun m => authorId m = botUserId) h1)) ->
  scan botUserId sourceId h1 = scan botUserId sourceId h2.
Proof.
  intros Hp Hnd. unfold scan. f_equal.
  apply (sorted_by_key_unique createdTimestamp).
  - apply sort_by_key.
  - apply sort_by_key.
  - rewrite !sort_Permutation. by rewrite Hp.
  - by rewrite sort_Permutation.
Qed.

(** X11: the lookup does not depend on the order in which the chat
    service lists the messages of a history answer, as long as the bot's
    messages in it have different creation times: two services whose
    answers are permutations of each other give the same requests and the
    same result. *)
Theorem locator_ignores_the_order_of_the_history
    (fetch fetch' : nat -> jsstring -> nat -> list Message)
    (botUserId : jsstring) (message : Message) (maxRetries : Z) (fuel attempt : nat) :
  (forall n, fetch n (id message) 10%nat ≡ₚ fetch' n (id message) 10%nat) ->
  (forall n, NoDup (map createdTimestamp
                      (filter (fun m => authorId m = botUserId)
                              (fetch n (id message) 10%nat)))) ->
  retrieveOldEmbedsMessage fuel fetch attempt botUserId message maxRetries
  = retrieveOldEmbedsMessage fuel fetch' attempt botUserId message maxRetries.
Proof.
  intros Hp Hnd. revert attempt maxRetries.
  induction fuel as [|fuel IH]; intros attempt maxRetries; [done|].
  cbn [retrieveOldEmbedsMessage].
  fold (scan botUserId (id message) (fetch attempt (id message) 10%nat)).
  fold (scan botUserId (id message) (fetch' attempt (id message) 10%nat)).
  rewrite (scan_Permutation _ _ _ _ (Hp attempt) (Hnd attempt)).
  destruct (scan _ _ _) as [old|e]; [|done].
  destruct (bool_decide (is_Some old) || (maxRetries =? 0)); [done|].
  by rewrite IH.
Qed.

Lemma mapM_length {A B} (f : A -> outcome B) (l : list A) (bs : list B) :
  mapM f l = Ret bs -> length bs = length l.
Proof. intros Hm. apply mapM_Ret in Hm. symmetry. by eapply Forall2_length. Qed.

Lemma createEmbedsMessage_Some (drive : jsstring -> DriveResponse)
    (fileIds : list jsstring) (sourceId : jsstring) (payload : MessagePayload) :
  createEmbedsMessage drive fileIds sourceId = Ret (Some payload) ->
  exists files,
    resolveFiles drive fileIds = Ret files
    /\ length (payload_embeds payload) = length files
    /\ payload_embeds payload <> [] /\ payload_flags payload = SuppressNotifications.
Proof.
  unfold createEmbedsMessage.
  destruct (resolveFiles drive fileIds) as [files|e]; [|done]. cbn [obind].
  destruct files as [|file files]; [done|]. cbn [length Nat.eqb].
  destruct (buildEmbeds sourceId (file :: files)) as [embeds|e] eqn:Hb; [|done].
  cbn [obind]. intros [= <-]. exists (file :: files). split; [done|].
  cbn [payload_embeds payload_flags].
  unfold buildEmbeds in Hb. apply mapM_length in Hb. rewrite length_imap in Hb.
  split; [done|]. split; [|done]. by destruct embeds.
Qed.

Lemma createEmbedsMessage_None (drive : jsstring -> DriveResponse)
    (fileIds : list jsstring) (sourceId : jsstring) :
  createEmbedsMessage drive fileIds sourceId = Ret None
  <-> Forall (fun fileId => is_notFound (drive fileId) = true) fileIds.
Proof.
  unfold createEmbedsMessage. split.
  - intros Hc.
    assert (Hr : resolveFiles drive fileIds = Ret []).
    { destruct (resolveFiles drive fileIds) as [[|file files]|e]; [done| |done].
      cbn [obind length Nat.eqb] in Hc.
      by destruct (buildEmbeds sourceId (file :: files)). }
    clear Hc. unfold resolveFiles in Hr.
    destruct (mapM (getFile drive) fileIds) as [responses|e] eqn:Hm; [|done].
    cbn in Hr. injection Hr as Hr. apply mapM_Ret in Hm.
    induction Hm as [|fileId r l rs Hg _ IH]; [constructor|].
    cbn in Hr. destruct r as [file|]; [done|]. constructor; [|by apply IH].
    clear -Hg. unfold getFile, is_notFound in *.
    destruct (drive fileId) as [data|e]; [done|].
    destruct e as [| | |[] [[errors|]|]| | |]; try done.
    by destruct (existsb _ errors).
  - intros Hall.
    assert (Hr : resolveFiles drive fileIds = Ret []); [|by rewrite Hr].
    rewrite resolveFiles_ok.
    + f_equal. induction Hall as [|fileId l Hn _ IH]; [done|]. cbn.
      unfold is_notFound, resolved in *. destruct (drive fileId); [done|]. exact IH.
    + eapply Forall_impl; [exact Hall|]. intros fileId Hn. cbn in Hn.
      unfold is_fatal. rewrite Hn. by destruct (drive fileId).
Qed.

Lemma resolveFiles_Ret (drive : jsstring -> DriveResponse) (fileIds : list jsstring)
    (files : list File) :
  resolveFiles drive fileIds = Ret files ->
  files = omap (fun fileId => resolved (drive fileId)) fileIds.
Proof.
  intros Hr.
  destruct (decide (Forall (fun fileId => is_fatal (drive fileId) = false) fileIds))
    as [Hok|Hbad].
  - rewrite (resolveFiles_ok drive fileIds Hok) in Hr. by injection Hr.
  - apply not_Forall_Exists in Hbad; [|intros x; apply _].
    destruct (resolveFiles_fatal drive fileIds) as [e He]; [|congruence].
    eapply Exists_impl; [exact Hbad|]. intros fileId Hf.
    destruct (is_fatal (drive fileId)) eqn:Hfatal; [done|]. exfalso. by apply Hf.
Qed.

(** X12: [createEmbedsMessage] returns [undefined] exactly when every
    lookup ends in not-found, in particular for no ids at all; and when it
    returns a message, the message carries one embed for each id that
    resolved, at least one, and the flag [SuppressNotifications]. *)
Theorem builder_returns_nothing_iff_nothing_resolves (drive : jsstring -> DriveResponse)
    (fileIds : list jsstring) (sourceId : jsstring) :
  (createEmbedsMessage drive fileIds sourceId = Ret None
     <-> Forall (fun fileId => is_notFound (drive fileId) = true) fileIds)
  /\ createEmbedsMessage drive [] sourceId = Ret None
  /\ (forall payload,
        createEmbedsMessage drive fileIds sourceId = Ret (Some payload) ->
        length (payload_embeds payload)
        = length (omap (fun fileId => resolved (drive fileId)) fileIds)
        /\ payload_embeds payload <> []
        /\ (length (payload_embeds payload) <= length fileIds)%nat
        /\ payload_flags payload = SuppressNotifications).
Proof.
  split; [apply createEmbedsMessage_None|]. split; [done|].
  intros payload Hc.
  apply createEmbedsMessage_Some in Hc as (files & Hres & Hlen & Hne & Hflags).
  apply resolveFiles_Ret in Hres. subst files.
  split; [done|]. split; [done|]. split; [|done].
  rewrite Hlen. clear.
  induction fileIds as [|fileId l IH]; [done|]. cbn.
  destruct (resolved (drive fileId)); cbn; lia.
Qed.

(** X13: when a resolved file lacks one of the four requested fields, or
    has it as the empty string, and the embed of every file before it
    can be built (the file is complete, and the chat library accepts its
    title and its link), [createEmbedsMessage] throws the error [Missing
    required fields]: no message is built, not even for the files before
    it. *)
Theorem builder_rejects_missing_fields (drive : jsstring -> DriveResponse)
    (fileIds : list jsstring) (sourceId : jsstring)
    (pre : list File) (file : File) (post : list File) :
  resolveFiles drive fileIds = Ret (pre ++ file :: post) ->
  (forall i earlier, pre !! i = Some earlier ->
     complete earlier = true /\ presentable sourceId i earlier) ->
  has_fields file = false ->
  createEmbedsMessage drive fileIds sourceId = Throw MissingRequiredFields.
Proof.
  intros Hres Hpre Hfile. unfold createEmbedsMessage. rewrite Hres. cbn [obind].
  assert ((length (pre ++ file :: post) =? 0)%nat = false) as ->.
  { rewrite length_app. cbn [length]. apply Nat.eqb_neq. lia. }
  assert (Hb : buildEmbeds sourceId (pre ++ file :: post) = Throw MissingRequiredFields);
    [|by rewrite Hb].
  unfold buildEmbeds. rewrite imap_app. cbn [imap].
  apply mapM_Throw_at.
  - apply Forall_forall. intros [i f] Hin.
    apply elem_of_lookup_imap in Hin as (j & f' & [= -> ->] & Hj).
    destruct (Hpre j f' Hj) as [Hc Hp].
    destruct (buildEmbed_title sourceId j f' Hc Hp) as (e & -> & _). by eexists.
  - unfold buildEmbed. unfold has_fields in Hfile. by rewrite Hfile.
Qed.

End EngineAtLarge.

(** ** The requests of a call *)

Section Requests.
Context `{Platform}.
Variable sourceMessage : Message.

(** With a channel that does not change during the lookup, every attempt
    sees the same history. *)
Lemma lookup_constant (fuel : nat) (w : World) (n : nat) :
  (n < fuel)%nat ->
  retrieveOldEmbedsMessage fuel (fun _ => fetch_after w) 0 (botUserId w) sourceMessage
    (Z.of_nat n)
  = Some (match old_in sourceMessage w with
          | Ret None => lookup_requests (id sourceMessage) n
          | _ => lookup_requests (id sourceMessage) 0
          end, old_in sourceMessage w).
Proof.
  intros Hfuel.
  destruct (retrieve_core (fun _ => fetch_after w) (botUserId w) sourceMessage n fuel 0 Hfuel)
    as (evs & r & k & Hr & Hk & -> & Hnone & Hres & Hlast).
  fold (old_in sourceMessage w) in Hres. subst r. rewrite Hr. f_equal. f_equal.
  destruct (old_in sourceMessage w) as [[m|]|e] eqn:Hold.
  - destruct k as [|k]; [done|].
    specialize (Hnone O ltac:(lia)). fold (old_in sourceMessage w) in Hnone. congruence.
  - by rewrite (Hlast eq_refl).
  - destruct k as [|k]; [done|].
    specialize (Hnone O ltac:(lia)). fold (old_in sourceMessage w) in Hnone. congruence.
Qed.

(** What a call does, whatever its options. *)
Lemma update_steps (fuel : nat) (w : World) (options : UpdateOptions) :
  (3 <= fuel)%nat ->
  updateEmbedsMessage fuel w sourceMessage options =
  Some (match old_seen sourceMessage options w, new_in sourceMessage w with
        | Throw e, Throw e' =>
            (lookup_step sourceMessage options w,
             Throw (if lookup_rejects_first then e else e'))
        | Throw e, Ret _ | Ret _, Throw e => (lookup_step sourceMessage options w, Throw e)
        | Ret old, Ret new =>
            let '(issued, r) :=
              await_each w (awaited_requests sourceMessage options old new) in
            (lookup_step sourceMessage options w ++ issued, r)
        end).
Proof.
  intros Hfuel. unfold old_seen, lookup_step, updateEmbedsMessage, awaited_requests.
  fold (new_in sourceMessage w).
  destruct (is_created options) eqn:Hc.
  - destruct options as [|[]|b]; try discriminate. cbn -[await_each].
    destruct (new_in sourceMessage w) as [[new|]|e]; reflexivity.
  - assert (Hl := lookup_constant fuel w 2 ltac:(lia)). change (Z.of_nat 2) with 2 in Hl.
    destruct options as [|[]|[]]; try discriminate; cbn -[await_each]; rewrite Hl;
      cbn -[await_each];
      destruct (old_in sourceMessage w) as [[old|]|e];
      destruct (new_in sourceMessage w) as [[new|]|e']; cbn -[await_each];
      rewrite ?app_nil_r; reflexivity.
Qed.

(** The same, with the answers of the chat service spelled out. *)
Lemma update_served (fuel : nat) (w : World) (options : UpdateOptions) :
  (3 <= fuel)%nat ->
  exists evs r,
    updateEmbedsMessage fuel w sourceMessage options = Some (evs, r)
    /\ match old_seen sourceMessage options w, new_in sourceMessage w with
       | Throw e, Throw e' =>
           evs = lookup_step sourceMessage options w /\ (r = Throw e \/ r = Throw e')
       | Throw e, Ret _ | Ret _, Throw e =>
           evs = lookup_step sourceMessage options w /\ r = Throw e
       | Ret old, Ret new =>
           exists issued,
             evs = lookup_step sourceMessage options w ++ issued
             /\ served w (awaited_requests sourceMessage options old new) issued r
       end.
Proof.
  intros Hfuel. rewrite (update_steps fuel w options Hfuel).
  destruct (old_seen sourceMessage options w) as [old|e];
    destruct (new_in sourceMessage w) as [new|e'].
  - pose proof (await_each_served w (awaited_requests sourceMessage options old new))
      as Hserved.
    destruct (await_each w _) as [issued r]. eexists _, _. split; [reflexivity|].
    by exists issued.
  - by eexists _, _.
  - by eexists _, _.
  - eexists _, _. split; [done|]. split; [done|].
    destruct lookup_rejects_first; by eauto.
Qed.

Lemma fetch_after_channel (w : World) (after : jsstring) (limit : nat) (m : Message) :
  m ∈ fetch_after w after limit ->
  m ∈ channel w /\ snowflake_value after < snowflake_value (id m).
Proof.
  unfold fetch_after. rewrite elem_of_reverse. intros Hm.
  apply elem_of_take in Hm as (i & Hi & _). apply list_elem_of_lookup_2 in Hi.
  apply list_elem_of_filter in Hi as [Hlt Hin]. done.
Qed.

Lemma old_in_own (w : World) (m : Message) :
  old_in sourceMessage w = Ret (Some m) -> own_shadow sourceMessage w (id m).
Proof.
  intros Hold. apply scan_Some in Hold as (Hin & Ha & Hh & _).
  apply fetch_after_channel in Hin as [Hin Hlt]. by exists m.
Qed.

Lemma allowed_lookup_step (w : World) (options : UpdateOptions) :
  Forall (allowed sourceMessage w) (lookup_step sourceMessage options w).
Proof.
  unfold lookup_step. destruct (is_created options); [constructor|].
  assert (Hk : forall k, Forall (allowed sourceMessage w) (lookup_requests (id sourceMessage) k)).
  { intros k. eapply Forall_impl; [apply lookup_requests_kinds|].
    intros ev [-> | ->]; by cbn. }
  destruct (old_in sourceMessage w) as [[m|]|e]; apply Hk.
Qed.

Lemma allowed_suppress_step (w : World) (options : UpdateOptions) :
  Forall (allowed sourceMessage w) (suppress_step sourceMessage options).
Proof.
  assert (Hs : forall urls, Forall (allowed sourceMessage w) (suppressEmbeds sourceMessage urls)).
  { intros urls. unfold suppressEmbeds. destruct (Bool.eqb _ _); by repeat constructor. }
  destruct options as [|b|[]]; cbn [suppress_step]; first [apply Hs | constructor].
Qed.

Lemma old_seen_Some (w : World) (options : UpdateOptions) (m : Message) :
  old_seen sourceMessage options w = Ret (Some m) ->
  is_created options = false /\ old_in sourceMessage w = Ret (Some m).
Proof. unfold old_seen. by destruct (is_created options). Qed.

Lemma awaited_requests_split (options : UpdateOptions) (old : option Message)
    (new : option MessagePayload) (issued rest : list event) :
  awaited_requests sourceMessage options old new = issued ++ rest ->
  exists writes suppressions rest1 rest2,
    issued = writes ++ suppressions
    /\ write_step old new = writes ++ rest1
    /\ suppress_step sourceMessage options = suppressions ++ rest2.
Proof.
  unfold awaited_requests. intros Heq.
  assert (Hcase : (old = None /\ new = None)
                  \/ write_step old new ++ suppress_step sourceMessage options
                     = issued ++ rest).
  { destruct old, new; eauto. }
  destruct Hcase as [[-> ->]|Happ].
  - symmetry in Heq. apply app_eq_nil in Heq as [-> ->].
    by exists [], [], [], (suppress_step sourceMessage options).
  - apply List.app_eq_app in Happ as [l [[Hw Hs]|[Hi Hs]]].
    + exists issued, [], l, (suppress_step sourceMessage options).
      by rewrite app_nil_r.
    + exists (write_step old new), l, [], rest. by rewrite app_nil_r.
Qed.

(** X14: a call of [updateEmbedsMessage] returns, and every request it
    issues is one of these: a history request for the 10 messages after
    the source message; a wait of one second; the sending of a message
    with at least one embed and the flag [SuppressNotifications]; an edit
    or a deletion of a message of the bot itself that hides the id of the
    source message and comes after it in the channel; a change of the
    suppression flag of the source message.  The bot never edits or
    deletes the message of somebody else. *)
Theorem update_touches_only_its_own (fuel : nat) (w : World) (options : UpdateOptions) :
  (3 <= fuel)%nat ->
  exists evs r,
    updateEmbedsMessage fuel w sourceMessage options = Some (evs, r)
    /\ Forall (allowed sourceMessage w) evs.
Proof.
  intros Hfuel.
  destruct (update_served fuel w options Hfuel) as (evs & r & Hu & Hcases).
  exists evs, r. split; [done|].
  pose proof (allowed_lookup_step w options) as Hl.
  pose proof (allowed_suppress_step w options) as Hs.
  destruct (old_seen sourceMessage options w) as [old|e] eqn:Hold;
    destruct (new_in sourceMessage w) as [new|e'] eqn:Hnew;
    try (by destruct Hcases as [-> _]).
  destruct Hcases as (issued & -> & Hserved).
  apply Forall_app. split; [done|].
  apply served_prefix in Hserved as [rest Hrest].
  assert (Hall : Forall (allowed sourceMessage w)
                   (awaited_requests sourceMessage options old new)).
  { assert (Hnew' : forall payload, new = Some payload ->
              payload_embeds payload <> [] /\ payload_flags payload = SuppressNotifications).
    { intros payload ->.
      by apply createEmbedsMessage_Some in Hnew as (? & _ & _ & ? & ?). }
    assert (Hold' : forall m, old = Some m -> own_shadow sourceMessage w (id m)).
    { intros m ->. apply old_seen_Some in Hold as [_ Hold]. by apply old_in_own. }
    unfold awaited_requests.
    destruct old as [m|], new as [payload|]; cbn [write_step];
      try (specialize (Hold' m eq_refl)); try (specialize (Hnew' payload eq_refl)).
    - apply Forall_app. split; [|done].
      destruct (embedsChanged _ _); [|constructor].
      constructor; [|constructor]. by split.
    - constructor; [done|done].
    - constructor; [done|done].
    - constructor. }
  rewrite Hrest in Hall. by apply Forall_app in Hall as [? _].
Qed.

(** X15: the requests of a call come in three steps: first the lookup,
    at most 3 history requests and 2 waits, and none at all when the
    source message is said to be newly created; then at most one of
    send, edit and delete; then at most one change of the suppression
    flag, and none when the call is told that the embeds were just
    suppressed.  A call issues at most 7 requests. *)
Theorem update_requests_bounded (fuel : nat) (w : World) (options : UpdateOptions) :
  (3 <= fuel)%nat ->
  exists lookups writes suppressions r,
    updateEmbedsMessage fuel w sourceMessage options
      = Some (lookups ++ writes ++ suppressions, r)
    /\ Forall (fun ev => is_fetch ev || is_sleep ev = true) lookups
    /\ (count is_fetch lookups <= 3)%nat /\ (count is_sleep lookups <= 2)%nat
    /\ (is_created options = true -> lookups = [])
    /\ Forall (fun ev => is_write ev = true) writes /\ (length writes <= 1)%nat
    /\ Forall (fun ev => is_suppress ev = true) suppressions
    /\ (length suppressions <= 1)%nat
    /\ (options = IsEmbedsSuppressed true -> suppressions = []).
Proof.
  intros Hfuel.
  destruct (update_served fuel w options Hfuel) as (evs & r & Hu & Hcases).
  rewrite Hu. clear Hu.
  assert (Hl : Forall (fun ev => is_fetch ev || is_sleep ev = true)
                 (lookup_step sourceMessage options w)
               /\ (count is_fetch (lookup_step sourceMessage options w) <= 3)%nat
               /\ (count is_sleep (lookup_step sourceMessage options w) <= 2)%nat
               /\ (is_created options = true -> lookup_step sourceMessage options w = [])).
  { unfold lookup_step. destruct (is_created options).
    { split; [constructor|]. unfold count. simpl. repeat split; lia. }
    assert (Hk : forall k, (k <= 2)%nat ->
              Forall (fun ev => is_fetch ev || is_sleep ev = true)
                (lookup_requests (id sourceMessage) k)
              /\ (count is_fetch (lookup_requests (id sourceMessage) k) <= 3)%nat
              /\ (count is_sleep (lookup_requests (id sourceMessage) k) <= 2)%nat
              /\ (false = true -> lookup_requests (id sourceMessage) k = [])).
    { intros k Hk. destruct (count_lookup_requests (id sourceMessage) k) as [-> ->].
      split; [|repeat split; [lia|lia|done]].
      eapply Forall_impl; [apply lookup_requests_kinds|]. by intros ev [-> | ->]. }
    destruct (old_in sourceMessage w) as [[m|]|e]; apply Hk; lia. }
  destruct Hl as (Hl1 & Hl2 & Hl3 & Hl4).
  assert (Hs : Forall (fun ev => is_suppress ev = true) (suppress_step sourceMessage options)
               /\ (length (suppress_step sourceMessage options) <= 1)%nat
               /\ (options = IsEmbedsSuppressed true -> suppress_step sourceMessage options = [])).
  { assert (Hs : forall urls,
              Forall (fun ev => is_suppress ev = true) (suppressEmbeds sourceMessage urls)
              /\ (length (suppressEmbeds sourceMessage urls) <= 1)%nat).
    { intros urls. unfold suppressEmbeds.
      destruct (Bool.eqb _ _); split; simpl; try lia; by repeat constructor. }
    destruct options as [|b|[]]; cbn [suppress_step];
      first [ destruct (Hs (map url (extractFileIds (content sourceMessage)))) as [? ?];
              by repeat split
            | by repeat split; simpl; try lia ]. }
  destruct Hs as (Hs1 & Hs2 & Hs3).
  assert (Hw : forall old new, Forall (fun ev => is_write ev = true) (write_step old new)
                               /\ (length (write_step old new) <= 1)%nat).
  { intros [m|] [payload|]; cbn [write_step]; try destruct (embedsChanged _ _);
      split; simpl; try lia; by repeat constructor. }
  assert (Hnone : forall e : outcome unit, evs = lookup_step sourceMessage options w ->
            exists lookups writes suppressions (r0 : outcome unit),
              Some (evs, e) = Some (lookups ++ writes ++ suppressions, r0)
              /\ Forall (fun ev => is_fetch ev || is_sleep ev = true) lookups
              /\ (count is_fetch lookups <= 3)%nat /\ (count is_sleep lookups <= 2)%nat
              /\ (is_created options = true -> lookups = [])
              /\ Forall (fun ev => is_write ev = true) writes /\ (length writes <= 1)%nat
              /\ Forall (fun ev => is_suppress ev = true) suppressions
              /\ (length suppressions <= 1)%nat
              /\ (options = IsEmbedsSuppressed true -> suppressions = [])).
  { intros e ->. exists (lookup_step sourceMessage options w), [], [], e.
    rewrite !app_nil_r. by repeat split; simpl; try lia. }
  destruct (old_seen sourceMessage options w) as [old|e] eqn:Hold;
    destruct (new_in sourceMessage w) as [new|e'] eqn:Hnew;
    try (destruct Hcases as [Hevs _]; by apply Hnone).
  destruct Hcases as (issued & -> & Hserved).
  apply served_prefix in Hserved as [rest Hrest].
  apply awaited_requests_split in Hrest
    as (writes & suppressions & rest1 & rest2 & -> & Hwrites & Hsuppressions).
  destruct (Hw old new) as [Hw1 Hw2].
  rewrite Hwrites in Hw1, Hw2. rewrite Hsuppressions in Hs1, Hs2, Hs3.
  apply Forall_app in Hw1 as [Hw1 _]. apply Forall_app in Hs1 as [Hs1 _].
  rewrite length_app in Hw2, Hs2.
  exists (lookup_step sourceMessage options w), writes, suppressions, r.
  split; [done|]. repeat split; try done; try lia.
  intros Ho. specialize (Hs3 Ho). by apply app_eq_nil in Hs3 as [? _].
Qed.

Lemma count_lookup_step (w : World) (options : UpdateOptions) :
  count is_write (lookup_step sourceMessage options w) = O
  /\ count is_suppress (lookup_step sourceMessage options w) = O.
Proof.
  unfold lookup_step. destruct (is_created options); [done|].
  assert (Hk : forall k, count is_write (lookup_requests (id sourceMessage) k) = O
                         /\ count is_suppress (lookup_requests (id sourceMessage) k) = O).
  { intros k. unfold lookup_requests, count.
    induction k as [|k [IHw IHs]]; [done|]. cbn. done. }
  destruct (old_in sourceMessage w) as [[m|]|e]; apply Hk.
Qed.

(** X16: with the history requests answered, a call rejects for one of
    two reasons only.  Either the lookup or the building of the new
    embeds throws (a title that does not decode, a lookup at the file
    service that fails, a file without one of its fields, a title that is
    too long): then the call rejects with that error (the one of the two
    that comes first when both throw) and has sent, edited, deleted and
    suppressed nothing, so that one bad link keeps the embeds of all
    links of the message from being updated.  Or the chat service refuses
    a request: then the call rejects with the error of the service, that
    request is the last one issued, and the requests accepted before it
    stand.  The call fulfils exactly when the lookup and the building
    succeed and the chat service accepts every request. *)
Theorem update_rejects_for_a_reason (fuel : nat) (w : World) (options : UpdateOptions) :
  (3 <= fuel)%nat ->
  exists evs r,
    updateEmbedsMessage fuel w sourceMessage options = Some (evs, r)
    /\ (r = Ret () <->
          exists old new,
            old_seen sourceMessage options w = Ret old
            /\ new_in sourceMessage w = Ret new
            /\ served w (awaited_requests sourceMessage options old new)
                 (awaited_requests sourceMessage options old new) (Ret ()))
    /\ (forall e, r = Throw e ->
          ((old_seen sourceMessage options w = Throw e
            \/ new_in sourceMessage w = Throw e)
           /\ count is_write evs = O /\ count is_suppress evs = O)
          \/ (exists old new accepted ev,
                old_seen sourceMessage options w = Ret old
                /\ new_in sourceMessage w = Ret new
                /\ evs = lookup_step sourceMessage options w ++ accepted ++ [ev]
                /\ refused (channel (after_events w accepted)) ev = Some e)).
Proof.
  intros Hfuel.
  destruct (update_served fuel w options Hfuel) as (evs & r & Hu & Hcases).
  exists evs, r. split; [done|].
  destruct (count_lookup_step w options) as [Hw Hs].
  destruct (old_seen sourceMessage options w) as [old|e] eqn:Hold;
    destruct (new_in sourceMessage w) as [new|e'] eqn:Hnew.
  - destruct Hcases as (issued & -> & Hserved).
    pose proof (served_result _ _ _ _ Hserved) as Hresult. split.
    + split.
      * intros ->. exists old, new. rewrite Hresult in Hserved. done.
      * intros (old' & new' & [= <-] & [= <-] & Hall).
        apply served_await_each in Hserved, Hall. congruence.
    + intros e ->. right. destruct Hresult as (accepted & ev & -> & Hev).
      by exists old, new, accepted, ev.
  - destruct Hcases as [-> ->]. split.
    + split; [done|]. by intros (? & ? & _ & ? & _).
    + intros e [= <-]. left. by eauto.
  - destruct Hcases as [-> ->]. split.
    + split; [done|]. by intros (? & ? & ? & _).
    + intros e0 [= <-]. left. by eauto.
  - destruct Hcases as [-> Hr]. split.
    + split; [by intros ->; destruct Hr|]. by intros (? & ? & ? & _).
    + intros e0 ->. left. split; [|done]. destruct Hr as [[= ->]|[= ->]]; by eauto.
Qed.

(** X17: what a message without a link that resolves costs (no link at
    all, or none that the file service knows).  When the message is said
    to be newly created, nothing is requested.  Otherwise, when no embeds
    message exists, the call asks for the history three times, waits two
    seconds in between, and does nothing else; when one exists, it is
    found at the first answer, and the call asks to delete it and then,
    when needed, to change the suppression flag: it fulfils with exactly
    these requests when the chat service accepts them, and rejects at
    the first one that the chat service refuses. *)
Theorem update_without_files (fuel : nat) (w : World) (options : UpdateOptions) :
  (3 <= fuel)%nat ->
  Forall (fun ref => is_notFound (drive w (fileId ref)) = true)
         (extractFileIds (content sourceMessage)) ->
  exists evs r,
    updateEmbedsMessage fuel w sourceMessage options = Some (evs, r)
    /\ if is_created options then evs = [] /\ r = Ret ()
       else match old_in sourceMessage w with
            | Ret None =>
                evs = [EvFetch (id sourceMessage) 10; EvSleep 1000;
                       EvFetch (id sourceMessage) 10; EvSleep 1000;
                       EvFetch (id sourceMessage) 10]
                /\ r = Ret ()
            | Ret (Some old) =>
                exists issued,
                  evs = EvFetch (id sourceMessage) 10 :: issued
                  /\ served w (EvDelete (id old) :: suppress_step sourceMessage options)
                       issued r
                  /\ (r = Ret () ->
                      issued = EvDelete (id old) :: suppress_step sourceMessage options)
                  /\ (served w (EvDelete (id old) :: suppress_step sourceMessage options)
                        (EvDelete (id old) :: suppress_step sourceMessage options)
                        (Ret ()) ->
                      r = Ret ())
            | Throw e => evs = [EvFetch (id sourceMessage) 10] /\ r = Throw e
            end.
Proof.
  intros Hfuel Hnone.
  destruct (update_served fuel w options Hfuel) as (evs & r & Hu & Hcases).
  exists evs, r. split; [done|].
  assert (Hnew : new_in sourceMessage w = Ret None).
  { apply createEmbedsMessage_None. by apply Forall_fmap. }
  rewrite Hnew in Hcases. unfold old_seen, lookup_step in Hcases.
  destruct (is_created options).
  { destruct Hcases as (issued & -> & Hserved). cbn in Hserved. by inversion Hserved. }
  destruct (old_in sourceMessage w) as [[old|]|e].
  - destruct Hcases as (issued & -> & Hserved).
    change (awaited_requests sourceMessage options (Some old) None)
      with (EvDelete (id old) :: suppress_step sourceMessage options) in Hserved.
    exists issued. split; [done|]. split; [done|]. split.
    + intros ->. by apply served_result in Hserved.
    + intros Hall. apply served_await_each in Hserved, Hall. congruence.
  - destruct Hcases as (issued & -> & Hserved). cbn in Hserved. by inversion Hserved.
  - done.
Qed.

Lemma deleteEmbedsMessage_steps (fuel : nat) (w : World) :
  (1 <= fuel)%nat ->
  deleteEmbedsMessage fuel w sourceMessage =
  Some (match old_in sourceMessage w with
        | Ret (Some old) =>
            ([EvFetch (id sourceMessage) 10; EvDelete (id old)],
             match refused (channel w) (EvDelete (id old)) with
             | Some e => Throw e
             | None => Ret ()
             end)
        | Ret None => ([EvFetch (id sourceMessage) 10], Ret ())
        | Throw e => ([EvFetch (id sourceMessage) 10], Throw e)
        end).
Proof.
  intros Hfuel. unfold deleteEmbedsMessage.
  assert (Hl := lookup_constant fuel w 0 ltac:(lia)). change (Z.of_nat 0) with 0 in Hl.
  rewrite Hl. cbn. destruct (old_in sourceMessage w) as [[old|]|e]; [|done|done].
  by destruct (refused (channel w) (EvDelete (id old))).
Qed.

(** X18: [deleteEmbedsMessage] returns after one history request,
    without a retry.  When the lookup finds an embeds message, the call
    asks to delete that message, a message of the bot itself; when the
    chat service accepts, the channel afterwards holds all other
    messages unchanged, and when it refuses, the call rejects with its
    error and the channel is as before.  When the lookup finds none, or
    fails, nothing is deleted. *)
Theorem delete_removes_the_shadow_only (fuel : nat) (w : World) :
  (1 <= fuel)%nat ->
  exists evs r,
    deleteEmbedsMessage fuel w sourceMessage = Some (evs, r)
    /\ match old_in sourceMessage w with
       | Ret (Some old) =>
           evs = [EvFetch (id sourceMessage) 10; EvDelete (id old)]
           /\ own_shadow sourceMessage w (id old)
           /\ match refused (channel w) (EvDelete (id old)) with
              | None =>
                  r = Ret ()
                  /\ channel (after_events w evs)
                     = filter (fun m => id m ≠ id old) (channel w)
              | Some e => r = Throw e /\ channel (after_events w evs) = channel w
              end
       | Ret None => evs = [EvFetch (id sourceMessage) 10] /\ r = Ret ()
       | Throw e => evs = [EvFetch (id sourceMessage) 10] /\ r = Throw e
       end.
Proof.
  intros Hfuel. rewrite (deleteEmbedsMessage_steps fuel w Hfuel).
  destruct (old_in sourceMessage w) as [[old|]|e] eqn:Hold; eexists _, _;
    (split; [reflexivity|]); try done.
  split; [done|]. split; [by apply old_in_own|].
  unfold after_events. cbn [fold_left].
  rewrite (apply_event_lookup _ (EvFetch _ _)) by done.
  unfold apply_event.
  by destruct (refused (channel w) (EvDelete (id old))).
Qed.

Lemma filter_fresh (l : list Message) (i : jsstring) :
  i ∉ map id l -> filter (fun m => id m ≠ i) l = l.
Proof.
  induction l as [|m l IH]; [done|]. cbn [map]. intros Hn.
  apply not_elem_of_cons in Hn as [Hne Hn].
  rewrite filter_cons, decide_True by done. by rewrite IH.
Qed.

(** X19: sending and deleting cancel out.  Let the source message have
    a snowflake id, the name of the first resolved file hold no reserved
    code point, the chat service store embeds faithfully, fewer than 10
    messages follow the source message, no embeds message exist yet, and
    the chat service give the message that the bot sends an id that is
    not in use.  Then a call of [deleteEmbedsMessage] after the sending
    finds the message sent and asks to delete it; when the chat service
    accepts, the channel is left as it was before the sending, and when
    it refuses, the call rejects and the message sent stays. *)
Theorem sent_message_is_found_and_deleted (fuel : nat) (w : World)
    (payload : MessagePayload) :
  (1 <= fuel)%nat ->
  is_snowflake (id sourceMessage) = true ->
  first_name_plain sourceMessage w = true ->
  stored_as_sent sourceMessage w ->
  room_for_shadow sourceMessage w = true ->
  old_in sourceMessage w = Ret None ->
  new_in sourceMessage w = Ret (Some payload) ->
  (fresh_message (channel w)).1 ∉ map id (channel w) ->
  exists r,
    deleteEmbedsMessage fuel (send w payload) sourceMessage
    = Some ([EvFetch (id sourceMessage) 10; EvDelete (fresh_message (channel w)).1], r)
    /\ match refused (channel (send w payload))
               (EvDelete (fresh_message (channel w)).1) with
       | None =>
           r = Ret ()
           /\ channel (after_events (send w payload)
                         [EvFetch (id sourceMessage) 10;
                          EvDelete (fresh_message (channel w)).1])
              = channel w
       | Some e =>
           r = Throw e
           /\ channel (after_events (send w payload)
                         [EvFetch (id sourceMessage) 10;
                          EvDelete (fresh_message (channel w)).1])
              = channel (send w payload)
       end.
Proof.
  intros Hfuel Hid Hname Hstored Hroom Hold Hnew Hunused.
  specialize (Hstored payload Hnew).
  pose proof Hnew as Hcreate. unfold new_in in Hcreate.
  apply create_first_title in Hcreate
    as (file & files & e0 & rest & fileName & Hres & Hn & Hne & Hembeds & Htitle).
  unfold first_name_plain in Hname. rewrite Hres, Hn in Hname. cbn [default] in Hname.
  unfold room_for_shadow in Hroom. rewrite Hold in Hroom.
  apply andb_true_iff in Hroom as [Hfresh Hwin].
  apply bool_decide_eq_true in Hfresh. apply Nat.ltb_lt in Hwin.
  set (sent := {| id := (fresh_message (channel w)).1; authorId := botUserId w;
                  createdTimestamp := (fresh_message (channel w)).2; content := [];
                  embeds := map stored_embed (payload_embeds payload);
                  flags := payload_flags payload |}).
  assert (Hsend : channel (send w payload) = channel w ++ [sent]
                  /\ botUserId (send w payload) = botUserId w).
  { unfold send, sent. by destruct (fresh_message (channel w)). }
  destruct Hsend as [Hchannel Hbot].
  assert (Hfetch : fetch_after (send w payload) (id sourceMessage) 10
                   = sent :: fetch_after w (id sourceMessage) 10).
  { unfold fetch_after. rewrite Hchannel, filter_app, filter_cons.
    rewrite decide_True by exact Hfresh. rewrite filter_nil.
    rewrite !take_ge by (rewrite ?length_app; simpl; lia).
    by rewrite reverse_app. }
  assert (Hfound : old_in sourceMessage (send w payload) = Ret (Some sent)).
  { unfold old_in. rewrite Hfetch, Hbot. apply scan_unique.
    - by apply scan_None.
    - done.
    - apply (hides_stored _ sent e0 rest fileName); try done.
      + cbn. by rewrite Hembeds.
      + rewrite Hembeds in Hstored. by apply Forall_cons in Hstored as [? _]. }
  rewrite (deleteEmbedsMessage_steps fuel (send w payload) Hfuel), Hfound.
  eexists. split; [reflexivity|].
  unfold after_events. cbn [fold_left].
  rewrite (apply_event_lookup _ (EvFetch _ _)) by done.
  unfold apply_event. change (id sent) with (fresh_message (channel w)).1.
  destruct (refused (channel (send w payload)) (EvDelete (fresh_message (channel w)).1));
    [done|].
  split; [done|]. cbn [effect delete_message channel].
  rewrite Hchannel, filter_app, filter_fresh by done.
  rewrite filter_cons, decide_False, filter_nil, app_nil_r; [done|].
  intros Hne'. by apply Hne'.
Qed.

Lemma find_outcome_Throw_first (botUserId sourceId : jsstring) (history : list Message)
    (m : Message) (e : exn) :
  m ∈ history -> authorId m = botUserId ->
  hides_source_id sourceId m = Throw e ->
  (forall m', m' ∈ history -> authorId m' = botUserId ->
     createdTimestamp m' < createdTimestamp m ->
     hides_source_id sourceId m' = Ret false) ->
  (forall m', m' ∈ history -> authorId m' = botUserId ->
     createdTimestamp m' = createdTimestamp m -> m' = m) ->
  scan botUserId sourceId history = Throw e.
Proof.
  intros Hin Ha Hm Holder Htie. unfold scan.
  pose proof (sort_Permutation (fun a b => createdTimestamp a - createdTimestamp b)
                (filter (fun m => authorId m = botUserId) history)) as Hperm.
  pose proof (sort_by_key createdTimestamp
                (filter (fun m => authorId m = botUserId) history)) as Hsorted.
  set (l := sort _ _) in *.
  assert (Hl : m ∈ l).
  { rewrite Hperm. by apply list_elem_of_filter. }
  assert (Hall : forall x, x ∈ l -> x ∈ history /\ authorId x = botUserId).
  { intros x Hx. rewrite Hperm in Hx. by apply list_elem_of_filter in Hx as [? ?]. }
  clearbody l. clear Hperm.
  induction Hsorted as [|x l Hs IH Hx]; [by apply elem_of_nil in Hl|].
  destruct (Hall x) as [Hxin Hxa]; [left|].
  assert (Hle : createdTimestamp x <= createdTimestamp m).
  { apply elem_of_cons in Hl as [->|Hl]; [lia|].
    rewrite Forall_forall in Hx. exact (Hx m Hl). }
  destruct (Z.eq_dec (createdTimestamp x) (createdTimestamp m)) as [Heq|Hne].
  - rewrite (Htie x Hxin Hxa Heq). cbn [find_outcome]. by rewrite Hm.
  - cbn [find_outcome]. rewrite (Holder x Hxin Hxa) by lia. cbn [obind].
    apply IH.
    + apply elem_of_cons in Hl as [->|Hl]; [lia|done].
    + intros y Hy. apply Hall. by right.
Qed.

(** X26: one unreadable title blocks a source message.  Let the first
    history answer hold a message of the bot whose first title has a
    reserved code point and, somewhere after it, a code unit that is not
    reserved (the embeds message of a file with U+2060 inside its name
    is one); let every older message of the bot in the answer hide
    another id or none, and no other message of the bot in it have the
    same creation time.  Then [deleteEmbedsMessage] rejects after the one
    history request with the error of that title, and so does
    [updateEmbedsMessage] unless the message is said to be newly created;
    only when the building of the new embeds fails as well may the error
    of the update be that of the building, if it comes first.  Nothing is
    sent, edited or deleted, whatever the links of the source message
    are. *)
Theorem unreadable_title_blocks_the_source (fuel : nat) (w : World)
    (options : UpdateOptions) (m : Message) (firstEmbed : APIEmbed) (others : list APIEmbed)
    (visible payload : jsstring) (v : Z) (post : jsstring) :
  (3 <= fuel)%nat ->
  m ∈ fetch_after w (id sourceMessage) 10 -> authorId m = botUserId w ->
  embeds m = firstEmbed :: others ->
  embed_title firstEmbed = Some (visible ++ payload ++ v :: post) ->
  plain visible = true ->
  payload <> [] -> Forall (fun u => reserved u = true) payload ->
  reserved v = false ->
  (forall m', m' ∈ fetch_after w (id sourceMessage) 10 -> authorId m' = botUserId w ->
     createdTimestamp m' < createdTimestamp m ->
     title_decodes_elsewhere (id sourceMessage) m') ->
  (forall m', m' ∈ fetch_after w (id sourceMessage) 10 -> authorId m' = botUserId w ->
     createdTimestamp m' = createdTimestamp m -> m' = m) ->
  exists c,
    head (codePoints (v :: post)) = Some c
    /\ deleteEmbedsMessage fuel w sourceMessage
       = Some ([EvFetch (id sourceMessage) 10], Throw (InvalidInvisibleCharacter c))
    /\ (is_created options = false ->
        exists e,
          updateEmbedsMessage fuel w sourceMessage options
          = Some ([EvFetch (id sourceMessage) 10], Throw e)
          /\ (e = InvalidInvisibleCharacter c
              \/ (new_in sourceMessage w = Throw e /\ lookup_rejects_first = false))
          /\ (e = InvalidInvisibleCharacter c
              <-> (forall e', new_in sourceMessage w = Throw e' ->
                     lookup_rejects_first = true \/ e' = InvalidInvisibleCharacter c))).
Proof.
  intros Hfuel Hin Ha Hembeds Htitle Hvis Hne Hpay Hv Holder Htie.
  destruct (head_codePoints_foreign v post Hv) as (c & cps & Hcps & Hc).
  exists c. split; [by rewrite Hcps|].
  assert (Hm : hides_source_id (id sourceMessage) m = Throw (InvalidInvisibleCharacter c)).
  { unfold hides_source_id. rewrite Hembeds, Htitle.
    destruct payload as [|r payload]; [done|].
    pose proof Hpay as Hpay'. apply Forall_cons in Hpay' as [Hr _].
    assert (Hd : decodeAppendedInvisible (visible ++ (r :: payload) ++ v :: post)
                 = Throw (InvalidInvisibleCharacter c)).
    { unfold decodeAppendedInvisible.
      fold (indices (visible ++ (r :: payload) ++ v :: post)).
      cbn [app]. rewrite first_invisible;
        [|by apply plain_no_reserved|by apply invisibleChars_elem].
      cbn [substring]. rewrite Nat2Z.id, drop_app_length.
      apply (decode_foreign _ (r :: payload) c cps); [|done..].
      change (r :: payload ++ v :: post) with ((r :: payload) ++ v :: post).
      rewrite codePoints_app_bmp, Hcps; [done|]. by apply reserved_bmp. }
    rewrite Hd. by destruct (visible ++ (r :: payload) ++ v :: post). }
  assert (Hold : old_in sourceMessage w = Throw (InvalidInvisibleCharacter c)).
  { apply (find_outcome_Throw_first _ _ _ m); try done.
    intros m' Hm' Ha' Hlt. specialize (Holder m' Hm' Ha' Hlt).
    by apply title_decodes_elsewhere_hides. }
  split.
  - rewrite deleteEmbedsMessage_steps by lia. by rewrite Hold.
  - intros Hcreated. rewrite update_steps by done.
    unfold old_seen, lookup_step. rewrite Hcreated, Hold.
    destruct (new_in sourceMessage w) as [new|e'] eqn:Hnew.
    + eexists. split; [reflexivity|]. split; [by left|]. split; [done|done].
    + destruct lookup_rejects_first eqn:Hrace.
      * eexists. split; [reflexivity|]. split; [by left|].
        split; [by intros _ e'' _; left|done].
      * eexists. split; [reflexivity|]. split; [by right|]. split.
        -- intros ->. intros e'' [= <-]. by right.
        -- intros Hall. by destruct (Hall e' eq_refl).
Qed.

End Requests.

(** ** The listeners *)

Section ListenerProperties.
Context `{Platform}.

Lemma strict_ne_false (a b : option jsstring) :
  strict_ne a b = false <-> exists x, a = Some x /\ b = Some x.
Proof.
  unfold strict_ne. destruct a as [x|], b as [y|]; cbn.
  - rewrite negb_false_iff, bool_decide_eq_true. split.
    + intros ->. by exists y.
    + by intros (z & [= ->] & [= ->]).
  - split; [done|]. by intros (z & _ & ?).
  - split; [done|]. by intros (z & ? & _).
  - split; [done|]. by intros (z & ? & _).
Qed.

Lemma isValidRequest_addressed (env : Env) (w : World) (message : Received) :
  (isValidRequest env w message).2 = true <-> addressed env w message.
Proof.
  unfold isValidRequest, addressed.
  destruct (bool_decide_reflect (author message = Some (botUserId w))) as [Ha|Ha]; cbn.
  - split; [done|]. by intros [? _].
  - destruct (strict_ne _ _) eqn:Hg; cbn.
    + split; [done|]. intros [_ Hex]. apply strict_ne_false in Hex. congruence.
    + apply strict_ne_false in Hg. done.
Qed.

Lemma isValidRequest_cases (env : Env) (w : World) (message : Received) :
  (addressed env w message /\ isValidRequest env w message = ([], true))
  \/ (~ addressed env w message
      /\ exists logs, isValidRequest env w message = (logs, false)).
Proof.
  pose proof (isValidRequest_addressed env w message) as Hv.
  unfold isValidRequest in *.
  destruct (bool_decide _); cbn in *.
  - right. split; [|by eexists]. intros Ha. by apply Hv in Ha.
  - destruct (strict_ne _ _); cbn in *.
    + right. split; [|by eexists]. intros Ha. by apply Hv in Ha.
    + left. split; [by apply Hv|done].
Qed.

(** X20: the listeners of the four message events act on a message only
    when it comes from the configured guild and is not known to be the
    bot's own (a partial message without an author passes); a message
    from another guild or outside a guild, and a message of the bot
    itself, such as the embeds message it has just sent, cause no request
    at all, only console output. *)
Theorem listeners_ignore_own_and_foreign_messages (fuel : nat) (env : Env) (w : World)
    (message oldMessage : Received) (messages : list Received) :
  ((isValidRequest env w message).2 = true <-> addressed env w message)
  /\ (~ addressed env w message ->
      exists logs,
        on_MessageCreate fuel env w message = Some (map Log logs, Fulfilled)
        /\ on_MessageUpdate fuel env w oldMessage message = Some (map Log logs, Fulfilled)
        /\ on_MessageDelete fuel env w message = Some (map Log logs, Fulfilled))
  /\ (Forall (fun message => ~ addressed env w message) messages ->
      exists logs,
        on_MessageBulkDelete fuel env w messages = Some (map Log logs, Fulfilled)).
Proof.
  split; [apply isValidRequest_addressed|]. split.
  - intros Hna.
    destruct (isValidRequest_cases env w message) as [[Ha _]|[_ [logs Hv]]]; [done|].
    exists logs. unfold on_MessageCreate, on_MessageUpdate, on_MessageDelete.
    by rewrite Hv.
  - induction 1 as [|m messages' Hna _ [logs IH]]; [by exists []|].
    destruct (isValidRequest_cases env w m) as [[Ha _]|[_ [logs' Hv]]]; [done|].
    exists (logs' ++ logs). cbn [on_MessageBulkDelete]. rewrite Hv, IH. cbn.
    by rewrite map_app.
Qed.

Lemma flags_has_set (flags : Z) : flags_has (Z.lor flags SuppressEmbeds) SuppressEmbeds = true.
Proof.
  unfold flags_has. apply Z.eqb_eq. apply Z.bits_inj'. intros i Hi.
  rewrite Z.land_spec, Z.lor_spec.
  by destruct (Z.testbit flags i), (Z.testbit SuppressEmbeds i).
Qed.

Lemma requests_app (acts1 acts2 : list action) :
  requests (acts1 ++ acts2) = requests acts1 ++ requests acts2.
Proof. apply omap_app. Qed.

Lemma requests_Log (logs : list log) : requests (map Log logs) = [].
Proof. by induction logs. Qed.

Lemma requests_Do (evs : list event) : requests (map Do evs) = evs.
Proof. induction evs as [|ev evs IH]; [done|]. cbn. by rewrite <- IH at 2. Qed.

Lemma count_suppress_steps (sourceMessage : Message) (w : World) (options : UpdateOptions)
    (old : option Message) (new : option MessagePayload) :
  count is_suppress (lookup_step sourceMessage options w) = O
  /\ count is_suppress (write_step old new) = O.
Proof.
  split; [apply count_lookup_step|].
  destruct old, new; cbn [write_step]; try done. by destruct (embedsChanged _ _).
Qed.

(** X21: suppression does not loop.  When the engine has asked to
    suppress the native previews of a message, the update event that this
    request causes (the old message, in the cache, without the flag; the
    new one with it) makes the listener call the engine with
    [isEmbedsSuppressed] set, and that call issues no further change of
    the suppression flag. *)
Theorem suppression_does_not_loop (fuel : nat) (env : Env) (w : World)
    (oldMessage newMessage : Received) (fileUrls : list jsstring) :
  (3 <= fuel)%nat ->
  partial oldMessage = false -> partial newMessage = false ->
  EvSuppressEmbeds (id (received oldMessage)) true
    ∈ suppressEmbeds (received oldMessage) fileUrls ->
  flags (received newMessage) = Z.lor (flags (received oldMessage)) SuppressEmbeds ->
  exists acts s,
    on_MessageUpdate fuel env w oldMessage newMessage = Some (acts, s)
    /\ count is_suppress (requests acts) = O.
Proof.
  intros Hfuel Hpo Hpn Hreq Hflags.
  assert (Hold : flags_has (flags (received oldMessage)) SuppressEmbeds = false).
  { unfold suppressEmbeds in Hreq.
    destruct (flags_has (flags (received oldMessage)) SuppressEmbeds); [|done].
    destruct (shouldSuppress _ _); cbn in Hreq.
    - by apply elem_of_nil in Hreq.
    - apply list_elem_of_singleton in Hreq. done. }
  unfold on_MessageUpdate.
  destruct (isValidRequest_cases env w newMessage) as [[_ ->]|[_ [logs ->]]]; cbn [negb].
  2:{ eexists _, _. split; [done|]. by rewrite requests_Log. }
  rewrite Hpn, Hpo, Hold, Hflags, flags_has_set. cbn [orb negb andb].
  destruct (update_served (received newMessage) fuel w (IsEmbedsSuppressed true) Hfuel)
    as (evs & r & -> & Hcases).
  cbn [mbind option_bind]. eexists _, _. split; [reflexivity|].
  cbn [map app]. rewrite requests_Do.
  pose proof (count_suppress_steps (received newMessage) w (IsEmbedsSuppressed true))
    as Hc.
  destruct (old_seen _ _ _) as [old|e]; [destruct (new_in _ _) as [new|e]|].
  - destruct Hcases as (issued & -> & Hserved).
    apply served_prefix in Hserved as [rest Hrest].
    destruct (Hc old new) as [Hl Hw]. unfold count in *.
    rewrite List.filter_app, length_app, Hl.
    assert (Hall : length (List.filter is_suppress
                     (awaited_requests (received newMessage) (IsEmbedsSuppressed true)
                        old new)) = O).
    { unfold awaited_requests.
      destruct old, new; cbn [suppress_step]; rewrite ?app_nil_r; done. }
    rewrite Hrest, List.filter_app, length_app in Hall. lia.
  - destruct Hcases as [-> _]. by destruct (Hc None None) as [-> _].
  - destruct (new_in _ _); destruct Hcases as [-> _];
      by destruct (Hc None None) as [-> _].
Qed.

Lemma isValidRequest_fixed (env : Env) (w w' : World) (message : Received) :
  botUserId w' = botUserId w -> isValidRequest env w' message = isValidRequest env w message.
Proof. unfold isValidRequest. by intros ->. Qed.

(** X22: a bulk deletion returns; it costs one history request for each
    message that the listener acts on (fewer when a lookup throws, which
    ends the loop), never more deletions than history requests, no wait
    and no other request. *)
Theorem bulk_delete_costs (fuel : nat) (env : Env) (w : World) (messages : list Received) :
  (1 <= fuel)%nat ->
  exists acts s,
    on_MessageBulkDelete fuel env w messages = Some (acts, s)
    /\ Forall (fun ev => is_fetch ev || is_delete ev = true) (requests acts)
    /\ (count is_delete (requests acts) <= count is_fetch (requests acts))%nat
    /\ (count is_fetch (requests acts)
        <= length (List.filter (fun message => (isValidRequest env w message).2) messages))%nat
    /\ (s = Fulfilled ->
        count is_fetch (requests acts)
        = length (List.filter (fun message => (isValidRequest env w message).2) messages)).
Proof.
  intros Hfuel. revert w. induction messages as [|message messages IH]; intros w.
  { exists [], Fulfilled. by repeat split. }
  cbn [on_MessageBulkDelete List.filter].
  destruct (isValidRequest_cases env w message) as [[_ Hv]|[_ [logs Hv]]]; rewrite Hv;
    cbn [negb snd].
  - rewrite (deleteEmbedsMessage_steps _ fuel w Hfuel). cbn [mbind option_bind].
    set (evs := match old_in (received message) w with
                | Ret (Some old) =>
                    [EvFetch (id (received message)) 10; EvDelete (id old)]
                | _ => [EvFetch (id (received message)) 10]
                end).
    assert (Hevs : Forall (fun ev => is_fetch ev || is_delete ev = true) evs
                   /\ count is_fetch evs = 1%nat /\ (count is_delete evs <= 1)%nat).
    { subst evs. destruct (old_in _ _) as [[old|]|e]; repeat split;
        first [by repeat constructor | cbn; lia]. }
    destruct Hevs as (He1 & He2 & He3).
    destruct (old_in (received message) w) as [[old|]|e] eqn:Hold;
      [destruct (refused (channel w) (EvDelete (id old))) as [e|] eqn:Hrefused| |].
    1,4: eexists _, _; (split; [reflexivity|]);
         rewrite requests_app, requests_Log, requests_Do; cbn [app];
         fold evs; (split; [done|]); (split; [lia|]); (split; [|done]); cbn [length]; lia.
    all: match goal with
         | |- context [after_events ?w0 ?l] =>
             destruct (IH (after_events w0 l)) as (acts & s & -> & Ha1 & Ha2 & Ha3 & Ha4);
             (erewrite List.filter_ext in Ha3, Ha4;
              [|intros m; rewrite (isValidRequest_fixed env w0 (after_events w0 l));
                [reflexivity|apply after_events_fixed]..])
         end.
    all: eexists _, _; (split; [reflexivity|]);
         rewrite !requests_app, requests_Log, requests_Do, app_nil_l; fold evs.
    all: unfold count in *; rewrite !List.filter_app, !length_app.
    all: split; [by apply Forall_app|]; cbn [length]; split; [lia|]; split; [lia|].
    all: intros Hs; specialize (Ha4 Hs); lia.
  - destruct (IH w) as (acts & s & -> & Ha1 & Ha2 & Ha3 & Ha4).
    eexists _, _. split; [reflexivity|].
    rewrite requests_app, requests_Log. cbn [app]. done.
Qed.

(** X23: the listener of interactions returns.  It runs an update only
    for the message context menu command [Update Embeds] used in the
    configured guild: then it defers the reply, calls
    [updateEmbedsMessage] on the target message without options (so with
    the lookup and the suppression step), and deletes the reply, unless
    the update throws, in which case the reply stays.  Any other
    interaction causes no request, only console output at most. *)
Theorem command_updates_only_when_asked (fuel : nat) (env : Env) (w : World)
    (interaction : Interaction) :
  (3 <= fuel)%nat ->
  exists acts s,
    commandsListener fuel env w interaction = Some (acts, s)
    /\ (asks_for_update env interaction ->
        exists evs r,
          updateEmbedsMessage fuel w (targetMessage interaction) NoOptions = Some (evs, r)
          /\ acts = DeferReply true :: map Do evs
                    ++ match r with Ret _ => [DeleteReply] | Throw _ => [] end
          /\ s = settle r)
    /\ (~ asks_for_update env interaction ->
        requests acts = [] /\ acts = filter (fun a => is_log a = true) acts
        /\ s = Fulfilled).
Proof.
  intros Hfuel. unfold commandsListener, asks_for_update.
  destruct (command interaction) as [type|] eqn:Hc.
  2:{ exists [], Fulfilled. split; [done|]. split; [by intros [? _]|done]. }
  destruct (strict_ne _ _) eqn:Hg.
  { eexists _, _. split; [reflexivity|]. split; [|done].
    intros (_ & _ & Hex). apply strict_ne_false in Hex. congruence. }
  apply strict_ne_false in Hg. cbn [commands dispatch updateEmbedsCommand data_name command_type].
  destruct (bool_decide_reflect (lit "Update Embeds" = commandName interaction)) as [Hn|Hn];
    cbn [negb].
  2:{ exists [], Fulfilled. split; [done|]. split; [|done]. by intros (_ & ? & _). }
  destruct (bool_decide_reflect (MessageCommand = type)) as [<-|Ht].
  - assert (exists x, updateEmbedsMessage fuel w (targetMessage interaction) NoOptions
                      = Some x) as [[evs r] Hu].
    { rewrite (update_steps (targetMessage interaction) fuel w NoOptions Hfuel).
      by eexists. }
    unfold updateEmbedsCommand. cbn [execute]. rewrite Hu. cbn [mbind option_bind].
    eexists _, _. split; [reflexivity|]. split.
    + intros _. by exists evs, r.
    + intros Hna. destruct Hna. by repeat split.
  - eexists _, _. split; [reflexivity|]. split; [|done].
    intros ([= ?] & _). congruence.
Qed.

End ListenerProperties.

(** ** The checks at startup *)

Section Checks.

(** X24: [checkEnvs] returns exactly when each of the four required
    variables is set to a string that is not empty.  Otherwise it ends the
    process with code 1, after one error message that names the missing
    variables, those that are not set and those that are empty, in the
    order of the list of required variables. *)
Theorem checkEnvs_returns_iff_all_set (env : Env) :
  ((checkEnvs env).2 = Returned <->
     forall name, name ∈ requiredEnvs -> exists v, env !! name = Some v /\ v <> [])
  /\ ((checkEnvs env).2 = Returned \/
      exists missingEnv,
        checkEnvs env = ([Report (ErrorEnvsNotSet missingEnv)], Exited 1)
        /\ missingEnv <> [] /\ missingEnv `sublist_of` requiredEnvs
        /\ forall name, name ∈ missingEnv <->
             name ∈ requiredEnvs /\ (env !! name = None \/ env !! name = Some [])).
Proof.
  unfold checkEnvs.
  set (missingEnv := filter (fun name => truthy (env !! name) = false) requiredEnvs).
  assert (Hin : forall name, name ∈ missingEnv <->
             name ∈ requiredEnvs /\ (env !! name = None \/ env !! name = Some [])).
  { intros name. subst missingEnv. rewrite list_elem_of_filter. split.
    - intros [Ht Hr]. split; [done|].
      destruct (env !! name) as [[|u v]|]; by eauto.
    - intros [Hr Ht]. split; [|done]. by destruct Ht as [-> | ->]. }
  split.
  - destruct missingEnv as [|name0 l] eqn:Hm; cbn.
    + split; [|done]. intros _ name Hname.
      destruct (env !! name) as [[|u v]|] eqn:Hv.
      * assert (name ∈ @nil string) as Hn by (apply Hin; eauto). by apply elem_of_nil in Hn.
      * by exists (u :: v).
      * assert (name ∈ @nil string) as Hn by (apply Hin; eauto). by apply elem_of_nil in Hn.
    + split; [done|]. intros Hall. exfalso.
      assert (Hn : name0 ∈ name0 :: l) by left.
      apply Hin in Hn as [Hreq Hnone]. destruct (Hall name0 Hreq) as (v & Hv & Hne).
      destruct Hnone as [Hn|Hn]; congruence.
  - destruct missingEnv as [|name0 l] eqn:Hm; cbn; [by left|right].
    exists (name0 :: l). split; [done|]. split; [done|]. split; [|done].
    rewrite <- Hm. apply sublist_filter.
Qed.






End Checks.

(** ** The further properties at work on the samples *)

Lemma encode_is_invisible_witness :
  Forall (fun u => reserved u = true) (encode (lit "1000"))
  /\ length (encode (lit "1000")) = (2 * length (Utf8.TextEncoder_encode (lit "1000")))%nat
  /\ (encode (lit "1000") = [] <-> lit "1000" = []).
Proof. apply (encode_is_invisible (lit "1000")). reflexivity. Defined.

(** The id [1000] is written with 8 invisible characters. *)
Example encode_sample :
  encode (lit "1000")
  = [0x2063; 0x2061; 0x2063; 0x2060; 0x2063; 0x2060; 0x2063; 0x2060].
Proof. by vm_compute. Qed.

Lemma visible_after_payload_throws_witness :
  exists c, head (codePoints [98]) = Some c
    /\ decodeAppendedInvisible (lit "a" ++ [0x2060] ++ [98])
       = Throw (InvalidInvisibleCharacter c).
Proof.
  apply (visible_after_payload_throws (lit "a") [0x2060] 98 []).
  - reflexivity.
  - discriminate.
  - by repeat constructor.
  - reflexivity.
Defined.

Lemma codec_roundtrip_any_witness :
  decodeAppendedInvisible (appendInvisible (lit "report.pdf") [0xD800; 49])
  = Ret (fromCodePoint (without_bom (Utf8.toUSV [0xD800; 49]))).
Proof.
  apply (codec_roundtrip_any (lit "report.pdf") [0xD800; 49]); reflexivity.
Defined.

(** The lone surrogate comes back as U+FFFD, the digit as it is. *)
Example codec_roundtrip_any_sample :
  fromCodePoint (without_bom (Utf8.toUSV [0xD800; 49])) = [0xFFFD; 49].
Proof. by vm_compute. Qed.

Lemma title_determines_name_and_id_witness :
  lit "report.pdf" = lit "report.pdf" /\ lit "1000" = lit "1000".
Proof.
  apply (title_determines_name_and_id (lit "report.pdf") (lit "report.pdf")
           (lit "1000") (lit "1000")); reflexivity.
Defined.

Lemma decode_drops_odd_nibble_witness :
  decode (write_nibbles (nibbles_of [0x31] ++ [3])) = Ret (Utf8.TextDecoder_decode [0x31])
  /\ decode (write_nibbles (nibbles_of [0x31] ++ [3]))
     = decode (write_nibbles (nibbles_of [0x31])).
Proof.
  apply (decode_drops_odd_nibble [0x31] 3).
  - repeat constructor; unfold is_byte; lia.
  - unfold is_nibble. lia.
Defined.

Lemma extractFileIds_app_witness :
  extractFileIds (Scenario.link1 ++ 32 :: Scenario.link1)
  = extractFileIds Scenario.link1 ++ extractFileIds Scenario.link1.
Proof. apply (extractFileIds_app Scenario.link1 Scenario.link1 32). reflexivity. Defined.

(** A link in parentheses at the end of a sentence: neither the
    parenthesis nor the full stop belongs to it; and an id is taken
    whole. *)
Example extractFileIds_sample :
  map url (extractFileIds
             (lit "(see https://docs.google.com/document/d/1234567890123456789012345/edit).)"))
  = [lit "https://docs.google.com/document/d/1234567890123456789012345/edit"]
  /\ map fileId (extractFileIds
                   (lit "https://drive.google.com/file/d/1234567890123456789012345678-_x"))
     = [lit "1234567890123456789012345678-_x"].
Proof. split; by vm_compute. Qed.

Lemma locator_ignores_the_order_of_the_history_witness :
  retrieveOldEmbedsMessage 3 Scenario.late_history 0 (lit "42") Scenario.source 2
  = retrieveOldEmbedsMessage 3 Events.late_history_reversed 0 (lit "42") Scenario.source 2.
Proof.
  apply (locator_ignores_the_order_of_the_history
           Scenario.late_history Events.late_history_reversed
           (lit "42") Scenario.source 2 3 0).
  - intros n. unfold Events.late_history_reversed. symmetry. apply reverse_Permutation.
  - intros n. unfold Scenario.late_history.
    destruct (n <? 1)%nat; vm_compute; repeat constructor; by intros ?%elem_of_nil.
Defined.

Lemma builder_rejects_missing_fields_witness :
  createEmbedsMessage (fun _ => Found Events.nameless) [lit "x"] (lit "1000")
  = Throw MissingRequiredFields.
Proof.
  apply (builder_rejects_missing_fields (fun _ => Found Events.nameless) [lit "x"]
           (lit "1000") [] Events.nameless []).
  - reflexivity.
  - intros i earlier Hi. by rewrite lookup_nil in Hi.
  - reflexivity.
Defined.

Lemma update_touches_only_its_own_witness :
  exists evs r,
    updateEmbedsMessage 3 Events.shadowed Scenario.source NoOptions = Some (evs, r)
    /\ Forall (allowed Scenario.source Events.shadowed) evs.
Proof. apply (update_touches_only_its_own Scenario.source 3 Events.shadowed NoOptions). lia. Defined.

Lemma update_requests_bounded_witness :
  exists lookups writes suppressions r,
    updateEmbedsMessage 3 (Scenario.world (lit "report.pdf") 0) Scenario.source NoOptions
      = Some (lookups ++ writes ++ suppressions, r)
    /\ Forall (fun ev => is_fetch ev || is_sleep ev = true) lookups
    /\ (count is_fetch lookups <= 3)%nat /\ (count is_sleep lookups <= 2)%nat
    /\ (is_created NoOptions = true -> lookups = [])
    /\ Forall (fun ev => is_write ev = true) writes /\ (length writes <= 1)%nat
    /\ Forall (fun ev => is_suppress ev = true) suppressions
    /\ (length suppressions <= 1)%nat
    /\ (NoOptions = IsEmbedsSuppressed true -> suppressions = []).
Proof.
  apply (update_requests_bounded Scenario.source 3 (Scenario.world (lit "report.pdf") 0)
           NoOptions).
  lia.
Defined.

(** The command on the sample channel: three history requests and two
    waits, then the message is sent; the source message has no native
    preview, so no suppression is asked for. *)
Example update_sample :
  (fun '(evs, _) => (count is_fetch evs, count is_sleep evs, count is_write evs,
                     count is_suppress evs))
    <$> updateEmbedsMessage 3 (Scenario.world (lit "report.pdf") 0) Scenario.source NoOptions
  = Some (3, 2, 1, 0)%nat.
Proof. by vm_compute. Qed.

Lemma update_rejects_for_a_reason_witness :
  exists evs r,
    updateEmbedsMessage 3 (Scenario.world (lit "report.pdf") 0) Scenario.source NoOptions
      = Some (evs, r)
    /\ (r = Ret () <->
          exists old new,
            old_seen Scenario.source NoOptions (Scenario.world (lit "report.pdf") 0)
              = Ret old
            /\ new_in Scenario.source (Scenario.world (lit "report.pdf") 0) = Ret new
            /\ served (Scenario.world (lit "report.pdf") 0)
                 (awaited_requests Scenario.source NoOptions old new)
                 (awaited_requests Scenario.source NoOptions old new) (Ret ()))
    /\ (forall e, r = Throw e ->
          ((old_seen Scenario.source NoOptions (Scenario.world (lit "report.pdf") 0)
              = Throw e
            \/ new_in Scenario.source (Scenario.world (lit "report.pdf") 0) = Throw e)
           /\ count is_write evs = O /\ count is_suppress evs = O)
          \/ (exists old new accepted ev,
                old_seen Scenario.source NoOptions (Scenario.world (lit "report.pdf") 0)
                  = Ret old
                /\ new_in Scenario.source (Scenario.world (lit "report.pdf") 0) = Ret new
                /\ evs = lookup_step Scenario.source NoOptions
                           (Scenario.world (lit "report.pdf") 0)
                         ++ accepted ++ [ev]
                /\ refused (channel (after_events (Scenario.world (lit "report.pdf") 0)
                                       accepted)) ev
                   = Some e)).
Proof.
  apply (update_rejects_for_a_reason Scenario.source 3
           (Scenario.world (lit "report.pdf") 0) NoOptions).
  lia.
Defined.

(** A file without a name: the call rejects after the lookup and writes
    nothing. *)
Example update_rejects_sample :
  updateEmbedsMessage 3
    {| channel := [Scenario.source]; drive := fun _ => Found Events.nameless;
       botUserId := lit "42" |}
    Scenario.source (IsNewlyCreated true)
  = Some ([], Throw MissingRequiredFields).
Proof. by vm_compute. Qed.

(** A message with 11 links to a file: the chat service refuses the 11
    embeds, the call rejects with the error of the service, and the
    suppression step is not reached. *)
Example update_refused_sample :
  (fun '(evs, r) => (count is_send evs, count is_suppress evs, r))
    <$> updateEmbedsMessage 3 Scenario.crowded_world Scenario.crowded (IsNewlyCreated true)
  = Some (1%nat, O, Throw (DiscordAPIError 50035)).
Proof. vm_compute. reflexivity. Qed.

(** The lookup fails on an unreadable title and the building on a file
    without a name: the call rejects with the error that comes first. *)
Example update_race_sample :
  updateEmbedsMessage 3
    {| channel := channel Events.stuck; drive := fun _ => Found Events.nameless;
       botUserId := lit "42" |}
    Scenario.source NoOptions
  = Some ([EvFetch (lit "1000") 10], Throw (InvalidInvisibleCharacter (chr "v")))
  /\ @updateEmbedsMessage Sample.building_fails_first 3
       {| channel := channel Events.stuck; drive := fun _ => Found Events.nameless;
          botUserId := lit "42" |}
       Scenario.source NoOptions
     = Some ([EvFetch (lit "1000") 10], Throw MissingRequiredFields).
Proof. split; vm_compute; reflexivity. Qed.

Lemma update_without_files_witness :
  exists evs r,
    updateEmbedsMessage 3 (Scenario.world (lit "report.pdf") 1) (Scenario.chatter 1)
      NoOptions = Some (evs, r)
    /\ if is_created NoOptions then evs = [] /\ r = Ret ()
       else match old_in (Scenario.chatter 1) (Scenario.world (lit "report.pdf") 1) with
            | Ret None =>
                evs = [EvFetch (id (Scenario.chatter 1)) 10; EvSleep 1000;
                       EvFetch (id (Scenario.chatter 1)) 10; EvSleep 1000;
                       EvFetch (id (Scenario.chatter 1)) 10]
                /\ r = Ret ()
            | Ret (Some old) =>
                exists issued,
                  evs = EvFetch (id (Scenario.chatter 1)) 10 :: issued
                  /\ served (Scenario.world (lit "report.pdf") 1)
                       (EvDelete (id old) :: suppress_step (Scenario.chatter 1) NoOptions)
                       issued r
                  /\ (r = Ret () ->
                      issued = EvDelete (id old)
                               :: suppress_step (Scenario.chatter 1) NoOptions)
                  /\ (served (Scenario.world (lit "report.pdf") 1)
                        (EvDelete (id old) :: suppress_step (Scenario.chatter 1) NoOptions)
                        (EvDelete (id old) :: suppress_step (Scenario.chatter 1) NoOptions)
                        (Ret ()) ->
                      r = Ret ())
            | Throw e => evs = [EvFetch (id (Scenario.chatter 1)) 10] /\ r = Throw e
            end.
Proof.
  apply (update_without_files (Scenario.chatter 1) 3 (Scenario.world (lit "report.pdf") 1)
           NoOptions).
  - lia.
  - by vm_compute.
Defined.

(** The link is removed from the source message of the sample: the
    embeds message is found at the first answer and deleted, and nothing
    is sent. *)
Example update_without_files_sample :
  updateEmbedsMessage 3
    {| channel := [Scenario.chatter 0; Scenario.shadow];
       drive := Scenario.drive1 (lit "report.pdf"); botUserId := lit "42" |}
    (Scenario.chatter 0) NoOptions
  = Some ([EvFetch (lit "1000") 10; EvDelete (lit "1001")], Ret ()).
Proof. vm_compute. reflexivity. Qed.

Lemma delete_removes_the_shadow_only_witness :
  exists evs r,
    deleteEmbedsMessage 1 Events.shadowed Scenario.source = Some (evs, r)
    /\ match old_in Scenario.source Events.shadowed with
       | Ret (Some old) =>
           evs = [EvFetch (id Scenario.source) 10; EvDelete (id old)]
           /\ own_shadow Scenario.source Events.shadowed (id old)
           /\ match refused (channel Events.shadowed) (EvDelete (id old)) with
              | None =>
                  r = Ret ()
                  /\ channel (after_events Events.shadowed evs)
                     = filter (fun m => id m ≠ id old) (channel Events.shadowed)
              | Some e =>
                  r = Throw e
                  /\ channel (after_events Events.shadowed evs) = channel Events.shadowed
              end
       | Ret None => evs = [EvFetch (id Scenario.source) 10] /\ r = Ret ()
       | Throw e => evs = [EvFetch (id Scenario.source) 10] /\ r = Throw e
       end.
Proof. apply (delete_removes_the_shadow_only Scenario.source 1 Events.shadowed). lia. Defined.

(** The embeds message of the sample is found and deleted. *)
Example delete_sample :
  deleteEmbedsMessage 1 Events.shadowed Scenario.source
  = Some ([EvFetch (lit "1000") 10; EvDelete (lit "1001")], Ret ()).
Proof. by vm_compute. Qed.

Lemma sent_message_is_found_and_deleted_witness :
  exists payload r,
    new_in Scenario.source (Scenario.world (lit "report.pdf") 0) = Ret (Some payload)
    /\ deleteEmbedsMessage 1 (send (Scenario.world (lit "report.pdf") 0) payload)
         Scenario.source
       = Some ([EvFetch (id Scenario.source) 10;
                EvDelete (fresh_message (channel (Scenario.world (lit "report.pdf") 0))).1],
               r)
    /\ match refused (channel (send (Scenario.world (lit "report.pdf") 0) payload))
               (EvDelete (fresh_message
                            (channel (Scenario.world (lit "report.pdf") 0))).1) with
       | None =>
           r = Ret ()
           /\ channel (after_events (send (Scenario.world (lit "report.pdf") 0) payload)
                         [EvFetch (id Scenario.source) 10;
                          EvDelete (fresh_message
                                      (channel (Scenario.world (lit "report.pdf") 0))).1])
              = channel (Scenario.world (lit "report.pdf") 0)
       | Some e =>
           r = Throw e
           /\ channel (after_events (send (Scenario.world (lit "report.pdf") 0) payload)
                         [EvFetch (id Scenario.source) 10;
                          EvDelete (fresh_message
                                      (channel (Scenario.world (lit "report.pdf") 0))).1])
              = channel (send (Scenario.world (lit "report.pdf") 0) payload)
       end.
Proof.
  eexists.
  assert (Hnew : new_in Scenario.source (Scenario.world (lit "report.pdf") 0)
                 = Ret (Some _)) by (vm_compute; reflexivity).
  destruct (sent_message_is_found_and_deleted Scenario.source 1
              (Scenario.world (lit "report.pdf") 0) _
              ltac:(lia) eq_refl ltac:(vm_compute; reflexivity)
              ltac:(apply stored_as_sent_evaluated; vm_compute; reflexivity)
              ltac:(vm_compute; reflexivity) ltac:(vm_compute; reflexivity) Hnew
              ltac:(vm_compute; intros Hin; apply list_elem_of_singleton in Hin;
                    discriminate))
    as (r & Hdelete & Hafter).
  exists r. split; [exact Hnew|]. split; [exact Hdelete|exact Hafter].
Defined.

(** The message sent on the sample channel is found and deleted, and
    the channel is as before. *)
Example sent_and_deleted_sample :
  match new_in Scenario.source (Scenario.world (lit "report.pdf") 0) with
  | Ret (Some payload) =>
      let w := send (Scenario.world (lit "report.pdf") 0) payload in
      match deleteEmbedsMessage 1 w Scenario.source with
      | Some (evs, r) => Some (evs, r, map id (channel (after_events w evs)))
      | None => None
      end
  | _ => None
  end
  = Some ([EvFetch (lit "1000") 10; EvDelete (lit "1001")], Ret (), [lit "1000"]).
Proof. vm_compute. reflexivity. Qed.

Lemma suppression_does_not_loop_witness :
  exists acts s,
    on_MessageUpdate 3 Events.env (Scenario.world (lit "report.pdf") 0)
      (Events.delivered Scenario.previewed) (Events.delivered Events.suppressed)
    = Some (acts, s)
    /\ count is_suppress (requests acts) = O.
Proof.
  apply (suppression_does_not_loop 3 Events.env (Scenario.world (lit "report.pdf") 0)
           (Events.delivered Scenario.previewed) (Events.delivered Events.suppressed)
           [Scenario.link1]).
  - lia.
  - reflexivity.
  - reflexivity.
  - vm_compute. left.
  - reflexivity.
Defined.

(** The two update events around a suppression: the edit of the source
    message makes the engine ask for the suppression of its preview; the
    event that this causes asks for nothing of the kind. *)
Example suppression_sample :
  (fun '(acts, _) => List.filter is_suppress (requests acts))
    <$> on_MessageUpdate 3 Events.env (Scenario.world (lit "report.pdf") 0)
          (Events.delivered Scenario.source) (Events.delivered Scenario.previewed)
  = Some [EvSuppressEmbeds (lit "1000") true]
  /\ (fun '(acts, _) => List.filter is_suppress (requests acts))
       <$> on_MessageUpdate 3 Events.env (Scenario.world (lit "report.pdf") 0)
             (Events.delivered Scenario.previewed) (Events.delivered Events.suppressed)
     = Some [].
Proof. split; by vm_compute. Qed.

(** The embeds message that the bot has sent comes back as a creation
    event: the listener does nothing. *)
Example own_message_sample :
  on_MessageCreate 3 Events.env Events.shadowed (Events.delivered Scenario.shadow)
  = Some ([], Fulfilled)
  /\ on_MessageCreate 3 Events.env Events.shadowed
       {| partial := false; author := Some (lit "7"); guildId := None;
          received := Scenario.source |}
     = Some ([Log (WarnMessageOutside false)], Fulfilled).
Proof. split; by vm_compute. Qed.

Lemma bulk_delete_costs_witness :
  exists acts s,
    on_MessageBulkDelete 1 Events.env Events.shadowed
      [Events.delivered Scenario.source; Events.delivered Scenario.shadow]
    = Some (acts, s)
    /\ Forall (fun ev => is_fetch ev || is_delete ev = true) (requests acts)
    /\ (count is_delete (requests acts) <= count is_fetch (requests acts))%nat
    /\ (count is_fetch (requests acts)
        <= length (List.filter
                     (fun message => (isValidRequest Events.env Events.shadowed message).2)
                     [Events.delivered Scenario.source; Events.delivered Scenario.shadow]))%nat
    /\ (s = Fulfilled ->
        count is_fetch (requests acts)
        = length (List.filter
                    (fun message => (isValidRequest Events.env Events.shadowed message).2)
                    [Events.delivered Scenario.source; Events.delivered Scenario.shadow])).
Proof.
  apply (bulk_delete_costs 1 Events.env Events.shadowed
           [Events.delivered Scenario.source; Events.delivered Scenario.shadow]).
  lia.
Defined.

(** The source message and its embeds message deleted in bulk: one
    lookup and one deletion for the first, nothing for the second, which
    is the bot's own. *)
Example bulk_delete_sample :
  on_MessageBulkDelete 1 Events.env Events.shadowed
    [Events.delivered Scenario.source; Events.delivered Scenario.shadow]
  = Some ([Do (EvFetch (lit "1000") 10); Do (EvDelete (lit "1001"))], Fulfilled).
Proof. by vm_compute. Qed.

Lemma command_updates_only_when_asked_witness :
  exists acts s,
    commandsListener 3 Events.env Events.shadowed (Events.menu Scenario.source)
    = Some (acts, s)
    /\ (asks_for_update Events.env (Events.menu Scenario.source) ->
        exists evs r,
          updateEmbedsMessage 3 Events.shadowed
            (targetMessage (Events.menu Scenario.source)) NoOptions = Some (evs, r)
          /\ acts = DeferReply true :: map Do evs
                    ++ match r with Ret _ => [DeleteReply] | Throw _ => [] end
          /\ s = settle r)
    /\ (~ asks_for_update Events.env (Events.menu Scenario.source) ->
        requests acts = [] /\ acts = filter (fun a => is_log a = true) acts
        /\ s = Fulfilled).
Proof.
  apply (command_updates_only_when_asked 3 Events.env Events.shadowed
           (Events.menu Scenario.source)).
  lia.
Defined.

(** The command on the sample channel (the reply is deferred, the
    embeds message is found at the first answer and edited, the reply is
    deleted), and the same interaction with the type of a slash
    command. *)
Example command_sample :
  (fun '(acts, s) => (head acts, count is_fetch (requests acts),
                      count is_edit (requests acts), last acts, s))
    <$> commandsListener 3 Events.env Events.shadowed (Events.menu Scenario.source)
  = Some (Some (DeferReply true), 1%nat, 1%nat, Some DeleteReply, Fulfilled)
  /\ commandsListener 3 Events.env Events.shadowed
       {| command := Some ChatInput; interaction_guildId := Some (lit "900");
          commandName := lit "Update Embeds"; targetMessage := Scenario.source |}
     = Some ([Log (ErrorCommandNotFound (lit "Update Embeds"))], Fulfilled).
Proof. split; by vm_compute. Qed.

(** An empty variable counts as missing; and a bot that is in two guilds
    leaves the one that is not configured. *)
Example checks_sample :
  checkEnvs (<["DISCORD_BOT_TOKEN"%string := []]> (delete "GOOGLE_SERVICE_ACCOUNT_KEY"%string Events.env))
  = ([Report (ErrorEnvsNotSet ["DISCORD_BOT_TOKEN"; "GOOGLE_SERVICE_ACCOUNT_KEY"]%string)],
     Exited 1)
  /\ checkEnvs Events.env = ([], Returned)
  /\ checkBotStatus Events.env
       [ {| guild_id := lit "800"; guild_name := lit "other"; missing := [] |};
         {| guild_id := lit "900"; guild_name := lit "home"; missing := [] |} ]
       {| application_id := lit "5"; botPublic := true; botRequireCodeGrant := false |}
       (lit "42")
     = ([Report WarnBotPublic; Leave (lit "800");
         Report (WarnLeft (lit "other") (lit "800"))], Returned)
  /\ checkBotStatus Events.env
       [ {| guild_id := lit "900"; guild_name := lit "home";
            missing := ["ManageMessages"%string] |} ]
       {| application_id := lit "5"; botPublic := false; botRequireCodeGrant := true |}
       (lit "42")
     = ([Report (ErrorMissingPermissions (Some ["ManageMessages"%string]));
         Report ErrorNoAuthorizationUrl], Exited 1).
Proof. repeat split; by vm_compute. Qed.

Lemma unreadable_title_blocks_the_source_witness :
  exists c,
    head (codePoints (chr "v" :: lit "2.pdf" ++ encode (lit "1000"))) = Some c
    /\ deleteEmbedsMessage 3 Events.stuck Scenario.source
       = Some ([EvFetch (id Scenario.source) 10], Throw (InvalidInvisibleCharacter c))
    /\ (is_created NoOptions = false ->
        exists e,
          updateEmbedsMessage 3 Events.stuck Scenario.source NoOptions
          = Some ([EvFetch (id Scenario.source) 10], Throw e)
          /\ (e = InvalidInvisibleCharacter c
              \/ (new_in Scenario.source Events.stuck = Throw e
                  /\ lookup_rejects_first = false))
          /\ (e = InvalidInvisibleCharacter c
              <-> (forall e', new_in Scenario.source Events.stuck = Throw e' ->
                     lookup_rejects_first = true \/ e' = InvalidInvisibleCharacter c))).
Proof.
  apply (unreadable_title_blocks_the_source Scenario.source 3 Events.stuck NoOptions
           Events.unreadable
           (<["title"%string :=
                VStr (appendInvisible (lit "draft" ++ 0x2060 :: lit "v2.pdf") (lit "1000"))]>
              (<["url"%string := VStr Scenario.link1]> ∅)) []
           (lit "draft") [0x2060] (chr "v") (lit "2.pdf" ++ encode (lit "1000"))).
  - lia.
  - vm_compute. by left.
  - reflexivity.
  - reflexivity.
  - vm_compute. reflexivity.
  - reflexivity.
  - discriminate.
  - by repeat constructor.
  - reflexivity.
  - intros m' Hm' _ Hlt. vm_compute in Hm'.
    apply list_elem_of_singleton in Hm'. subst m'. vm_compute in Hlt. discriminate.
  - intros m' Hm' _ _. vm_compute in Hm'.
    apply list_elem_of_singleton in Hm'. by subst m'.
Defined.

Example unreadable_title_sample :
  deleteEmbedsMessage 3 Events.stuck Scenario.source
  = Some ([EvFetch (lit "1000") 10], Throw (InvalidInvisibleCharacter (chr "v"))).
Proof. vm_compute. reflexivity. Qed.
